(** * The indexing-and-retrieval pipeline of [app.py]

    A shallow embedding of [src/app.py]: chunking, ingestion, the build of
    the FAISS index with its staleness check, and the interactive query
    loop.  Python exceptions are an explicit [result]; printing and logging
    are an explicit output trace; the settings module, the network, the
    source directories and the model service are the fields of a [World]
    that the program only reads; the save directory is a [Store] that
    [build_index] threads. *)

From Stdlib Require Import List String Ascii ZArith QArith Bool Lia.
From Stdlib Require Import DecimalString Permutation.
Import ListNotations.

Local Open Scope string_scope.
Local Open Scope list_scope.
Local Open Scope Z_scope.

Set Implicit Arguments.

(* ===================================================================== *)
(** ** Exceptions and results *)
(* ===================================================================== *)

(** The exception classes the program can meet.  [External] stands for an
    exception raised inside a collaborator ([requests], [PyPDF2], the
    llamafile client, the operating system); all of them, like the named
    ones, are subclasses of Python's [Exception]. *)
Inductive exn : Type :=
| IndexError
| AssertionError
| ValueError
| FileExistsError
| FileNotFoundError
| HTTPError (status : Z)
| Abort
| External (what : string).

Inductive result (A : Type) : Type :=
| Ok (a : A)
| Raise (e : exn).

Arguments Ok {A} a.
Arguments Raise {A} e.

Definition bind {A B : Type} (r : result A) (k : A -> result B) : result B :=
  match r with
  | Ok a => k a
  | Raise e => Raise e
  end.

Declare Scope result_scope.
Delimit Scope result_scope with result.
Notation "x <- r ;; k" := (bind r (fun x => k))
  (at level 100, r at next level, right associativity) : result_scope.
Notation "'assert!' b ;; k" := (if b then k else Raise AssertionError)
  (at level 100, b at next level, right associativity) : result_scope.
Local Open Scope result_scope.

Definition is_ok {A : Type} (r : result A) : bool :=
  match r with Ok _ => true | Raise _ => false end.

(** [str(e)], as it is interpolated into the log message of a skipped URL. *)
Definition exn_str (e : exn) : string :=
  match e with
  | IndexError => "list index out of range"
  | AssertionError => ""
  | ValueError => "Got a larger chunk overlap than chunk size, should be smaller."
  | FileExistsError => "File exists"
  | FileNotFoundError => "No such file or directory"
  | HTTPError _ => "HTTP error status"
  | Abort => ""
  | External what => what
  end.

(* ===================================================================== *)
(** ** Python strings and lists *)
(* ===================================================================== *)

(** A Python [str] is modelled by a [string]: its characters are the code
    points below 256, which is all the program's own logic looks at (the
    separators and white space of the splitter, substring search). *)

(** [len(s)] as a Python integer. *)
Definition len (s : string) : Z := Z.of_nat (String.length s).

(** [needle in hay] on strings: substring containment. *)
Fixpoint contains (needle hay : string) : bool :=
  String.prefix needle hay ||
  match hay with
  | EmptyString => false
  | String _ hay' => contains needle hay'
  end.

(** [s[:n]]. *)
Fixpoint take_chars (n : nat) (s : string) : string :=
  match n, s with
  | S n', String c s' => String c (take_chars n' s')
  | _, _ => EmptyString
  end.

(** [str.isspace] on the code points below 256. *)
Definition is_space (c : ascii) : bool :=
  let n := nat_of_ascii c in
  ((9 <=? n) && (n <=? 13) || (28 <=? n) && (n <=? 32) || (n =? 133) || (n =? 160))%nat.

Fixpoint lstrip (s : string) : string :=
  match s with
  | EmptyString => EmptyString
  | String c s' => if is_space c then lstrip s' else s
  end.

(** [rstrip]: a character stays when something that is not white space
    follows it, or when it is not white space itself. *)
Fixpoint rstrip (s : string) : string :=
  match s with
  | EmptyString => EmptyString
  | String c s' =>
      match rstrip s' with
      | EmptyString => if is_space c then EmptyString else String c EmptyString
      | t => String c t
      end
  end.

(** [s.strip()]. *)
Definition strip (s : string) : string := rstrip (lstrip s).

(** [xs[ix]] on a Python list: a negative index counts from the end, and
    an index outside [-len(xs) .. len(xs)-1] raises [IndexError]. *)
Definition list_get {A : Type} (xs : list A) (ix : Z) : result A :=
  let n := Z.of_nat (List.length xs) in
  let pos := if ix <? 0 then ix + n else ix in
  if (0 <=? pos) && (pos <? n)
  then match nth_error xs (Z.to_nat pos) with
       | Some x => Ok x
       | None => Raise IndexError
       end
  else Raise IndexError.

(** A list comprehension [[f(x) for x in xs]] whose body can raise. *)
Fixpoint map_result {A B : Type} (f : A -> result B) (xs : list A) : result (list B) :=
  match xs with
  | [] => Ok []
  | x :: xs' => y <- f x ;; ys <- map_result f xs' ;; Ok (y :: ys)
  end.

Definition nonempty {A : Type} (xs : list A) : bool :=
  match xs with [] => false | _ :: _ => true end.

Definition str_nonempty (s : string) : bool :=
  match s with EmptyString => false | String _ _ => true end.

(* ===================================================================== *)
(** ** The text splitter used by [chunk_text]

    [chunk_text] builds a [RecursiveCharacterTextSplitter] of the
    [langchain_text_splitters] package with [chunk_size], [chunk_overlap=40],
    [length_function=len] and [is_separator_regex=False], leaving the
    separators ("\n\n", "\n", " ", ""), [keep_separator=True] and
    [strip_whitespace=True] at their defaults.  The module follows the
    package's [TextSplitter.__init__], [_split_text_with_regex],
    [_join_docs], [_merge_splits] and [_split_text] for that configuration. *)
(* ===================================================================== *)

Module TextSplitter.

Definition nl : string := String (ascii_of_nat 10) EmptyString.

(** The default separators: paragraph break, line break, blank, and the
    empty separator that splits into single characters. *)
Definition default_separators : list string := [(nl ++ nl)%string; nl; " "; ""].

(** [re.split] on a literal, non-empty separator: the piece before the
    first match and the pieces after each match, matches taken leftmost
    and without overlap.  [skip] counts the characters of a match that are
    still to be passed over. *)
Fixpoint re_split (sep : string) (skip : nat) (s : string) : string * list string :=
  match s with
  | EmptyString => (EmptyString, [])
  | String c s' =>
      match skip with
      | S k => re_split sep k s'
      | O =>
          if String.prefix sep s
          then (EmptyString,
                let (p, ps) := re_split sep (String.length sep - 1) s' in p :: ps)
          else let (p, ps) := re_split sep 0 s' in (String c p, ps)
      end
  end.

(** [list(text)]. *)
Fixpoint chars (s : string) : list string :=
  match s with
  | EmptyString => []
  | String c s' => String c EmptyString :: chars s'
  end.

(** [_split_text_with_regex(text, separator, keep_separator=True)]: each
    separator stays at the front of the piece that follows it, and empty
    pieces are dropped. *)
Definition split_text_with_regex (text sep : string) : list string :=
  let splits :=
    if str_nonempty sep
    then let (p, ps) := re_split sep 0 text in p :: map (String.append sep) ps
    else chars text in
  filter str_nonempty splits.

(** [_join_docs]: [None] when the joined and stripped text is empty. *)
Definition join_docs (docs : list string) (separator : string) : option string :=
  let text := strip (String.concat separator docs) in
  if str_nonempty text then Some text else None.

Section Splitter.

Variables chunk_size chunk_overlap : Z.

(** The separator's length enters the running total only between two
    pieces. *)
Definition sep_cost (separator_len : Z) (more_than : nat) (current_doc : list string) : Z :=
  if (more_than <? List.length current_doc)%nat then separator_len else 0.

(** The inner [while] of [_merge_splits]: pieces are popped from the front
    of [current_doc] while the total exceeds the overlap, or while the next
    piece still does not fit and something is left. *)
Fixpoint pop_front (separator_len _len total : Z) (current_doc : list string)
  : result (Z * list string) :=
  let again :=
    (chunk_overlap <? total)
    || ((chunk_size <? total + _len + sep_cost separator_len 0 current_doc) && (0 <? total)) in
  match current_doc with
  | [] => if again then Raise IndexError else Ok (total, [])
  | d0 :: tl =>
      if again
      then pop_front separator_len _len
             (total - (len d0 + sep_cost separator_len 1 current_doc)) tl
      else Ok (total, current_doc)
  end.

Definition append_doc (docs : list string) (doc : option string) : list string :=
  match doc with
  | Some d => docs ++ [d]
  | None => docs
  end.

(** The [for] loop of [_merge_splits] over the state [(docs, current_doc,
    total)], then the last join. *)
Fixpoint merge_loop (separator : string) (docs current_doc : list string) (total : Z)
  (splits : list string) : result (list string) :=
  match splits with
  | [] => Ok (append_doc docs (join_docs current_doc separator))
  | d :: rest =>
      let separator_len := len separator in
      let _len := len d in
      st <- (if chunk_size <? total + _len + sep_cost separator_len 0 current_doc
             then if nonempty current_doc
                  then p <- pop_front separator_len _len total current_doc ;;
                       Ok (append_doc docs (join_docs current_doc separator), snd p, fst p)
                  else Ok (docs, current_doc, total)
             else Ok (docs, current_doc, total)) ;;
      let '(docs1, current1, total1) := st in
      let current2 := current1 ++ [d] in
      merge_loop separator docs1 current2
        (total1 + _len + sep_cost separator_len 1 current2) rest
  end.

Definition merge_splits (splits : list string) (separator : string) : result (list string) :=
  merge_loop separator [] [] 0 splits.

Definition flush (good_splits : list string) : result (list string) :=
  if nonempty good_splits then merge_splits good_splits "" else Ok [].

(** The [for s in splits] loop of [_split_text].  [deeper] is the recursive
    call on the remaining separators, absent when there are none left. *)
Fixpoint split_loop (deeper : option (string -> result (list string)))
  (good_splits splits : list string) : result (list string) :=
  match splits with
  | [] => flush good_splits
  | s :: rest =>
      if len s <? chunk_size
      then split_loop deeper (good_splits ++ [s]) rest
      else
        merged <- flush good_splits ;;
        other <- match deeper with
                 | None => Ok [s]
                 | Some f => f s
                 end ;;
        final <- split_loop deeper [] rest ;;
        Ok (merged ++ other ++ final)
  end.

(** [_split_text(text, separators)]: the first separator that is empty or
    occurs in the text is used; [fallback] is [separators[-1]] of the list
    the search started from, used when no separator is found. *)
Fixpoint split_text_from (fallback : string) (separators : list string) (text : string)
  {struct separators} : result (list string) :=
  match separators with
  | [] => split_loop None [] (split_text_with_regex text fallback)
  | _s :: new_separators =>
      if negb (str_nonempty _s)
      then split_loop None [] (split_text_with_regex text _s)
      else if contains _s text
      then split_loop
             (if nonempty new_separators
              then Some (split_text_from fallback new_separators)
              else None)
             [] (split_text_with_regex text _s)
      else split_text_from fallback new_separators text
  end.

(** [RecursiveCharacterTextSplitter(...).split_text(text)]: the constructor
    refuses an overlap larger than the chunk size. *)
Definition split_text (text : string) : result (list string) :=
  if chunk_size <? chunk_overlap then Raise ValueError
  else split_text_from (last default_separators "") default_separators text.

End Splitter.

End TextSplitter.

(* ===================================================================== *)
(** ** Output, the world and the save directory *)
(* ===================================================================== *)

Inductive level : Type := INFO | WARNING | ERROR.

(** What a vector search reports beside a label: an inner product, or the
    lowest float that FAISS writes beside a missing result. *)
Inductive score : Type :=
| Score (q : Q)
| Lowest.

(** One item of what the process writes: a [print], a line of the result
    table (['%.4f - "%s"'], kept structured), a log record, a traceback,
    or the prompt that [click.prompt] shows. *)
Inductive out : Type :=
| Print (line : string)
| PrintResult (s : score) (preview : string)
| Log (lvl : level) (msg : string)
| Traceback (e : exn)
| Prompt (text : string).

Definition vec : Type := list Q.

(** [requests.Response], as far as [load_data_for_indexing] reads it. *)
Record Response : Type := {
  status_code : Z;
  text : string
}.

(** Everything the program reads and does not own: the [settings] module,
    the HTTP client, the HTML and PDF extractors, the local source
    directories, the directory hash, and [llamafile_client] (code of the
    repository that is not among the sources: [embed] returns one row, a
    fixed-dimension vector, [tokenize] a token sequence, [completion] the
    answer text). *)
Record World : Type := {
  INDEX_TEXT_CHUNK_LEN : Z;
  EMBEDDING_MODEL_MAX_LEN : Z;
  INDEX_URLS : list string;
  INDEX_LOCAL_DATA_DIRS : list string;
  INDEX_SAVE_DIR : string;
  requests_get : string -> result Response;
  html_get_text : string -> result string;
  rglob : string -> string -> list string;
  read_text : string -> result string;
  pdf_page_texts : string -> result (list string);
  dirhash : string -> result string;
  llamafile_embed : string -> result vec;
  normalize_L2 : vec -> vec;
  llamafile_tokenize : string -> result (list Z);
  llamafile_completion : string -> result string
}.

(** [faiss.IndexFlatIP]: the dimension and the stored rows, in insertion
    order. *)
Record IndexFlatIP : Type := {
  d : Z;
  xb : list vec
}.

Definition ntotal (index : IndexFlatIP) : Z := Z.of_nat (List.length (xb index)).

(** The save directory: whether it exists, and the contents of
    [last_hash.txt], [index.faiss] and [index.json] when they do. *)
Record Store : Type := {
  savedir_exists : bool;
  last_hash_txt : option string;
  index_faiss : option IndexFlatIP;
  index_json : option (list string)
}.

Definition no_store : Store :=
  {| savedir_exists := false; last_hash_txt := None;
     index_faiss := None; index_json := None |}.

(** A computation that writes output and may raise. *)
Definition M (A : Type) : Type := (list out * result A)%type.

Definition ret {A : Type} (a : A) : M A := ([], Ok a).
Definition emit (o : out) : M unit := ([o], Ok tt).
Definition lift {A : Type} (r : result A) : M A := ([], r).

Definition mbind {A B : Type} (m : M A) (k : A -> M B) : M B :=
  match m with
  | (o1, Ok a) => let (o2, r) := k a in (o1 ++ o2, r)
  | (o1, Raise e) => (o1, Raise e)
  end.

Declare Scope io_scope.
Delimit Scope io_scope with io.
Notation "x <<- m ;; k" := (mbind m (fun x => k))
  (at level 100, m at next level, right associativity) : io_scope.
Notation "m >> k" := (mbind m (fun _ => k))
  (at level 100, k at level 200, right associativity) : io_scope.

Definition str_of_nat (n : nat) : string := NilZero.string_of_uint (Nat.to_uint n).

(* ===================================================================== *)
(** ** Chunking and ingestion *)
(* ===================================================================== *)

(** [load_pdf]: the page texts, joined without a separator. *)
Definition load_pdf (w : World) (path : string) : result string :=
  pages <- pdf_page_texts w path ;;
  Ok (String.concat "" pages).

(** The chunk length [chunk_text] passes to the splitter. *)
Definition chunk_len (w : World) : Z :=
  if 0 <? INDEX_TEXT_CHUNK_LEN w
  then Z.min (INDEX_TEXT_CHUNK_LEN w) (EMBEDDING_MODEL_MAX_LEN w)
  else EMBEDDING_MODEL_MAX_LEN w.

(** [chunk_text]: the chunks it yields, in order, or the exception its
    first [next] raises. *)
Definition chunk_text (w : World) (text : string) : result (list string) :=
  TextSplitter.split_text (chunk_len w) 40 text.

(** What a generator does between two resumptions: it yields a chunk (the
    source it comes from is recorded beside it, for the statements only),
    or it writes output. *)
Inductive event : Type :=
| Yield (origin chunk : string)
| Emit (o : out).

(** A finite generator: its events in order, and the exception that ends
    it, if one does. *)
Definition gen : Type := (list event * option exn)%type.

Definition gen_seq (g1 g2 : gen) : gen :=
  match g1 with
  | (ev1, Some e) => (ev1, Some e)
  | (ev1, None) => (ev1 ++ fst g2, snd g2)
  end.

Definition raise_for_status (r : Response) : result unit :=
  if (400 <=? status_code r) && (status_code r <? 600)
  then Raise (HTTPError (status_code r))
  else Ok tt.

(** The body of the [try] for one URL. *)
Definition fetch_chunks (w : World) (url : string) : result (list string) :=
  response <- requests_get w url ;;
  _ <- raise_for_status response ;;
  text <- html_get_text w (text response) ;;
  chunk_text w text.

(** One turn of the URL loop, with its [except Exception]. *)
Definition url_events (w : World) (url : string) : list event :=
  match fetch_chunks w url with
  | Ok chunks => map (Yield url) chunks
  | Raise e =>
      [Emit (Traceback e);
       Emit (Log ERROR ("skipping " ++ url ++ ": " ++ exn_str e)%string)]
  end.

(** One file of a local directory: nothing is caught here. *)
Definition file_gen (w : World) (read : string -> result string) (path : string) : gen :=
  match (text <- read path ;; chunk_text w text) with
  | Ok chunks => (map (Yield path) chunks, None)
  | Raise e => ([], Some e)
  end.

Fixpoint files_gen (w : World) (read : string -> result string) (paths : list string) : gen :=
  match paths with
  | [] => ([], None)
  | path :: rest => gen_seq (file_gen w read path) (files_gen w read rest)
  end.

(** One local directory: the [*.txt] loop, then the [*.pdf] loop. *)
Definition dir_gen (w : World) (directory : string) : gen :=
  gen_seq (files_gen w (read_text w) (rglob w directory "*.txt"))
          (files_gen w (load_pdf w) (rglob w directory "*.pdf")).

Fixpoint dirs_gen (w : World) (directories : list string) : gen :=
  match directories with
  | [] => ([], None)
  | directory :: rest => gen_seq (dir_gen w directory) (dirs_gen w rest)
  end.

Definition urls_events (w : World) (urls : list string) : list event :=
  flat_map (url_events w) urls.

Definition load_data_for_indexing (w : World) : gen :=
  gen_seq (urls_events w (INDEX_URLS w), None)
          (dirs_gen w (INDEX_LOCAL_DATA_DIRS w)).

(** The chunks among the events, with and without their origin. *)
Fixpoint yields (evs : list event) : list (string * string) :=
  match evs with
  | [] => []
  | Yield origin chunk :: rest => (origin, chunk) :: yields rest
  | Emit _ :: rest => yields rest
  end.

Definition yielded_chunks (evs : list event) : list string := map snd (yields evs).

(* ===================================================================== *)
(** ** Embedding and the vector index *)
(* ===================================================================== *)

(** [embed]: one call of the service, then [faiss.normalize_L2]. *)
Definition embed (w : World) (text : string) : result vec :=
  embedding <- llamafile_embed w text ;;
  Ok (normalize_L2 w embedding).

Definition dim (x : vec) : Z := Z.of_nat (List.length x).

(** [index.add(x)] for one row; the wrapper asserts the dimension. *)
Definition index_add (index : IndexFlatIP) (x : vec) : result IndexFlatIP :=
  assert! (dim x =? d index) ;;
  Ok {| d := d index; xb := xb index ++ [x] |}.

(** The score of a row.  It is computed exactly here; the library rounds
    to single precision, so which of two rows of nearly equal score comes
    first is the library's to decide.  The general statements below are
    about how many entries an answer has, at which positions of the
    document list they point and where the label [-1] stands, not about
    the order among the rows found. *)
Fixpoint inner_product (x y : vec) : Q :=
  match x, y with
  | a :: x', b :: y' => a * b + inner_product x' y'
  | _, _ => 0
  end.

(** Insertion behind every entry that scores at least as much: the
    ranking is by descending score, the earlier row first among equals. *)
Fixpoint insert_ranked (s : Q) (label : Z) (ranked : list (Q * Z)) : list (Q * Z) :=
  match ranked with
  | [] => [(s, label)]
  | (s', label') :: rest =>
      if Qle_bool s s' then (s', label') :: insert_ranked s label rest
      else (s, label) :: ranked
  end.

Fixpoint rank_from (x : vec) (label : Z) (rows : list vec) (ranked : list (Q * Z))
  : list (Q * Z) :=
  match rows with
  | [] => ranked
  | row :: rest => rank_from x (label + 1) rest (insert_ranked (inner_product x row) label ranked)
  end.

(** [index.search(x, k)] for one query row: the wrapper asserts the
    dimension and [k > 0]; the answer always has [k] entries, the found
    ones first and then label [-1] beside the lowest score. *)
Definition index_search (index : IndexFlatIP) (x : vec) (k : Z)
  : result (list score * list Z) :=
  assert! (dim x =? d index) ;;
  assert! (0 <? k) ;;
  let found := firstn (Z.to_nat k) (rank_from x 0 (xb index) []) in
  let missing := (Z.to_nat k - List.length found)%nat in
  Ok (map (fun r => Score (fst r)) found ++ repeat Lowest missing,
      map snd found ++ repeat (-1) missing).

(* ===================================================================== *)
(** ** [build_index] *)
(* ===================================================================== *)

(** How a run of [build_index] ends: what it wrote, the save directory it
    leaves, and the exception that ended it, if one did. *)
Record run : Type := {
  trace : list out;
  store : Store;
  raised : option exn
}.

Definition returned (r : run) : bool :=
  match raised r with None => true | Some _ => false end.

(** The head of [build_index] up to the point where either it returns or
    the rebuild starts: [true] stands for the [return].  Both branches of
    the [for] body leave the loop, so only the first configured directory
    is ever looked at; with no directory the loop body never runs. *)
Definition reuse_check (w : World) (fs : Store) : list out * bool :=
  if savedir_exists fs then
    match last_hash_txt fs with
    | Some contents =>
        match INDEX_LOCAL_DATA_DIRS w with
        | [] => ([], false)
        | d0 :: _ =>
            if negb (contains d0 contents)
            then ([Log WARNING "index dir hash mismatch, rebuilding index"], false)
            else ([Log INFO "index already exists, skipping"], true)
        end
    | None => ([Log WARNING "index dir hash file not found, rebuilding index"], false)
    end
  else ([], false).

(** The loop [for text in load_data_for_indexing()]: the generator's output
    appears as it is resumed; a chunk is embedded, added and appended. *)
Fixpoint build_loop (w : World) (index : IndexFlatIP) (docs : list string)
  (evs : list event) : M (IndexFlatIP * list string) :=
  match evs with
  | [] => ret (index, docs)
  | Emit o :: rest => mbind (emit o) (fun _ => build_loop w index docs rest)
  | Yield _ chunk :: rest =>
      mbind (lift (embedding <- embed w chunk ;; index_add index embedding))
            (fun index' => build_loop w index' (docs ++ [chunk]) rest)
  end.

(** The loop that writes [last_hash.txt], opened with mode ["w"]: the
    hashes written so far stay in the file when [dirhash] raises. *)
Fixpoint write_hashes (w : World) (written : string) (directories : list string)
  : string * option exn :=
  match directories with
  | [] => (written, None)
  | directory :: rest =>
      match dirhash w directory with
      | Ok h => write_hashes w (written ++ h)%string rest
      | Raise e => (written, Some e)
      end
  end.

(** [build_index].  Everything up to [savedir.mkdir] is followed with its
    exceptions; behind it the three files are written, and of what can go
    wrong there only a failing [dirhash] is followed: the writing itself
    ([faiss.write_index], [json.dump], opening the files) is taken to
    succeed.  No statement below says what a run leaves behind when one of
    those writes fails. *)
Definition build_index (w : World) (fs : Store) : run :=
  let (log, skip) := reuse_check w fs in
  if skip then {| trace := log; store := fs; raised := None |}
  else
    match llamafile_embed w "Apples are red." with
    | Raise e => {| trace := log; store := fs; raised := Some e |}
    | Ok probe =>
        let index := {| d := dim probe; xb := [] |} in
        let (evs, gen_exn) := load_data_for_indexing w in
        match build_loop w index [] evs with
        | (log2, Raise e) => {| trace := log ++ log2; store := fs; raised := Some e |}
        | (log2, Ok (index', docs)) =>
            match gen_exn with
            | Some e => {| trace := log ++ log2; store := fs; raised := Some e |}
            | None =>
                (* savedir.mkdir(parents=True) *)
                if savedir_exists fs
                then {| trace := log ++ log2; store := fs; raised := Some FileExistsError |}
                else
                  let (hashes, hash_exn) :=
                    write_hashes w "" (INDEX_LOCAL_DATA_DIRS w) in
                  let fs' := {| savedir_exists := true;
                                last_hash_txt := Some hashes;
                                index_faiss := Some index';
                                index_json := Some docs |} in
                  match hash_exn with
                  | Some e => {| trace := log ++ log2; store := fs'; raised := Some e |}
                  | None =>
                      {| trace := log ++ log2 ++
                           [Log INFO ("index with " ++ str_of_nat (List.length (xb index'))
                                      ++ " entries saved to " ++ INDEX_SAVE_DIR w)%string];
                         store := fs'; raised := None |}
                  end
            end
        end
    end.

(* ===================================================================== *)
(** ** The query side *)
(* ===================================================================== *)

Definition load_index (w : World) (fs : Store) : M (IndexFlatIP * list string) :=
  if negb (savedir_exists fs) then lift (Raise FileNotFoundError)
  else
    match index_faiss fs with
    | None => lift (Raise (External "could not open index.faiss for reading"))
    | Some index =>
        mbind (emit (Log INFO ("index with " ++ str_of_nat (List.length (xb index))
                               ++ " entries loaded from " ++ INDEX_SAVE_DIR w)%string))
          (fun _ =>
             match index_json fs with
             | None => lift (Raise FileNotFoundError)
             | Some docs => ret (index, docs)
             end)
    end.

(** The rows of the result table, from position [i]: the first
    [IndexError] ends the loop with the line the handler prints; what was
    printed before stays. *)
Fixpoint pprint_rows (scores : list score) (docs : list string) (i : nat)
  (doc_indices : list Z) : M unit :=
  match doc_indices with
  | [] => ret tt
  | doc_ix :: rest =>
      match (s <- match nth_error scores i with
                  | Some s => Ok s
                  | None => Raise IndexError
                  end ;;
             doc <- list_get docs doc_ix ;;
             Ok (PrintResult s (take_chars 100 doc))) with
      | Ok row => mbind (emit row) (fun _ => pprint_rows scores docs (S i) rest)
      | Raise IndexError => emit (Print "No results found.")
      | Raise e => lift (Raise e)
      end
  end.

Definition pprint_search_results (scores : list score) (doc_indices : list Z)
  (docs : list string) : M unit :=
  mbind (emit (Print "=== Search Results ===")) (fun _ =>
  mbind (pprint_rows scores docs 0 doc_indices) (fun _ =>
  emit (Print ""))).

Definition SEP : string :=
  "--------------------------------------------------------------------------------".

Definition dquote : string := String (ascii_of_nat 34) EmptyString.

Definition quoted (s : string) : string := (dquote ++ s ++ dquote)%string.

(** [prompt_template % (context, query)]. *)
Definition prompt_template (context query : string) : string :=
  ("You are an expert Q&A system. Answer the user's query using the provided context information."
   ++ TextSplitter.nl ++ "Context information:" ++ TextSplitter.nl
   ++ context ++ TextSplitter.nl
   ++ "Query: " ++ query)%string.

(** The list comprehension of [run_query] with its handler. *)
Definition search_results_of (docs : list string) (doc_indices : list Z) : result (list string) :=
  match map_result (list_get docs) doc_indices with
  | Ok results => Ok results
  | Raise IndexError => Ok []
  | Raise e => Raise e
  end.

(** [run_query] after [click.prompt] has returned [query], first half:
    the query is echoed, embedded and searched, the result table is
    printed, and the retrieved texts are collected. *)
Definition retrieve (w : World) (k : Z) (index : IndexFlatIP) (docs : list string)
  (query : string) : M (list string) :=
  (emit (Print "=== Query ===") >>
   emit (Print query) >>
   emit (Print "") >>
   emb <<- lift (embed w query) ;;
   found <<- lift (index_search index emb k) ;;
   pprint_search_results (fst found) (snd found) docs >>
   lift (search_results_of docs (snd found)))%io.

(** Second half: the prompt is assembled and printed, its tokens are
    counted, and the completion is asked for and printed. *)
Definition answer (w : World) (search_results : list string) (query : string) : M string :=
  let prompt := prompt_template (String.concat TextSplitter.nl search_results) query in
  (emit (Print "=== Prompt ===") >>
   emit (Print (quoted prompt)) >>
   tokens <<- lift (llamafile_tokenize w prompt) ;;
   emit (Print ("(prompt_ntokens: " ++ str_of_nat (List.length tokens) ++ ")")%string) >>
   emit (Print "") >>
   emit (Print "") >>
   emit (Print "=== Answer ===") >>
   reply <<- lift (llamafile_completion w prompt) ;;
   emit (Print (quoted reply)) >>
   emit (Print "") >>
   emit (Print SEP) >>
   ret prompt)%io.

(** The whole turn.  Beside its output it reports the retrieved texts and
    the prompt it built. *)
Definition query_turn (w : World) (k : Z) (index : IndexFlatIP) (docs : list string)
  (query : string) : M (list string * string) :=
  (search_results <<- retrieve w k index docs query ;;
   prompt <<- answer w search_results query ;;
   ret (search_results, prompt))%io.

(** [click.prompt] on the values it still has to hand back, which are the
    lines typed that are not empty (on an empty line it asks again): at
    the end of the input it raises [Abort]. *)
Definition click_prompt (stdin : list string) : M (string * list string) :=
  mbind (emit (Prompt "Enter query (ctrl-d to quit):> ")) (fun _ =>
  match stdin with
  | [] => lift (Raise Abort)
  | query :: rest => ret (query, rest)
  end).

(** [run_query]: one turn; it hands back the input that is left. *)
Definition run_query (w : World) (k : Z) (index : IndexFlatIP) (docs : list string)
  (stdin : list string) : M (list string) :=
  mbind (click_prompt stdin) (fun qr =>
  mbind (query_turn w k index docs (fst qr)) (fun _ =>
  ret (snd qr))).

(** [while True: run_query(...)]: the loop has no exit of its own, so a
    session always ends in an exception, at the latest the [Abort] of the
    exhausted input. *)
Fixpoint query_loop (w : World) (k : Z) (index : IndexFlatIP) (docs : list string)
  (stdin : list string) : list out * exn :=
  match stdin with
  | [] => ([Prompt "Enter query (ctrl-d to quit):> "], Abort)
  | query :: rest =>
      match query_turn w k index docs query with
      | (o, Ok _) =>
          let (o', e) := query_loop w k index docs rest in
          (Prompt "Enter query (ctrl-d to quit):> " :: o ++ o', e)
      | (o, Raise e) => (Prompt "Enter query (ctrl-d to quit):> " :: o, e)
      end
  end.

(** The [rag] command. *)
Definition rag (w : World) (k_search_results : Z) (fs : Store) (stdin : list string)
  : list out * exn :=
  match load_index w fs with
  | (o, Raise e) => (o, e)
  | (o, Ok (index, docs)) =>
      let (o', e) := query_loop w k_search_results index docs stdin in
      (o ++ o', e)
  end.

(** What the command line selects: no subcommand, or the [rag] subcommand
    with or without its option [-k]. *)
Inductive command : Type :=
| NoCommand
| RagCommand (k_search_results : option Z).

(** The value of [--k-search-results]: [default=3]. *)
Definition k_option (k_search_results : option Z) : Z :=
  match k_search_results with
  | Some k => k
  | None => 3
  end.

(** [cli()]: the group is declared with [invoke_without_command=True] and
    its callback invokes [rag] when no subcommand is given, with the
    option at its default; otherwise click runs the subcommand.  What is
    reported is the exception that leaves [rag]. *)
Definition cli (w : World) (cmd : command) (fs : Store) (stdin : list string)
  : list out * exn :=
  match cmd with
  | NoCommand => rag w (k_option None) fs stdin
  | RagCommand k_search_results => rag w (k_option k_search_results) fs stdin
  end.

(** The script: [build_index()], then [cli()].  It reports what was
    written, the save directory it leaves and the exception that ends it. *)
Definition main (w : World) (cmd : command) (fs : Store) (stdin : list string)
  : list out * Store * exn :=
  let built := build_index w fs in
  match raised built with
  | Some e => (trace built, store built, e)
  | None =>
      let (o, e) := cli w cmd (store built) stdin in
      (trace built ++ o, store built, e)
  end.

(* ===================================================================== *)
(** ** Concrete worlds

    The toy setting of the repository: one local directory with two text
    files and a PDF, a service that answers with unit vectors (on which
    [normalize_L2] changes nothing). *)
(* ===================================================================== *)

Module Toy.

Definition hash_of_local_data : string :=
  "e3b0c44298fc1c149afbf4c8996fb92427ae41e4649b934ca495991b7852b855".

Definition toy_rglob (directory pattern : string) : list string :=
  if (directory =? "local_data")%string then
    if (pattern =? "*.txt")%string then ["local_data/doc1.txt"; "local_data/doc2.txt"]
    else if (pattern =? "*.pdf")%string then ["local_data/paper.pdf"]
    else []
  else [].

Definition toy_read_text (path : string) : result string :=
  if (path =? "local_data/doc1.txt")%string then Ok "Apples are red."
  else if (path =? "local_data/doc2.txt")%string then Ok "Bananas are yellow."
  else Raise FileNotFoundError.

Definition toy_pdf_page_texts (path : string) : result (list string) :=
  if (path =? "local_data/paper.pdf")%string then Ok ["Cherries are "; "dark red."]
  else Raise FileNotFoundError.

Definition toy_dirhash (directory : string) : result string :=
  if (directory =? "local_data")%string then Ok hash_of_local_data
  else Raise (External "not a directory").

Definition toy_embed (text : string) : result vec :=
  if (text =? "Apples are red.")%string then Ok [1%Q; 0%Q; 0%Q]
  else if (text =? "Bananas are yellow.")%string then Ok [0%Q; 1%Q; 0%Q]
  else Ok [0%Q; 0%Q; 1%Q].

Definition toy_requests_get (url : string) : result Response :=
  if (url =? "http://example.org/fruit")%string
  then Ok {| status_code := 200; text := "Dates are brown." |}
  else if (url =? "http://example.org/gone")%string
  then Ok {| status_code := 404; text := "Not Found" |}
  else Raise (External "connection refused").

Definition world : World := {|
  INDEX_TEXT_CHUNK_LEN := 128;
  EMBEDDING_MODEL_MAX_LEN := 512;
  INDEX_URLS := [];
  INDEX_LOCAL_DATA_DIRS := ["local_data"];
  INDEX_SAVE_DIR := "./index-toy";
  requests_get := toy_requests_get;
  html_get_text := fun html => Ok html;
  rglob := toy_rglob;
  read_text := toy_read_text;
  pdf_page_texts := toy_pdf_page_texts;
  dirhash := toy_dirhash;
  llamafile_embed := toy_embed;
  normalize_L2 := fun v => v;
  llamafile_tokenize := fun prompt => Ok (map (fun _ => 0) (TextSplitter.chars prompt));
  llamafile_completion := fun _ => Ok "Red."
|}.

(** The save directory after the first build in [world]. *)
Definition built : Store := store (build_index world no_store).

End Toy.

(* ===================================================================== *)
(** ** Further worlds, and the notions the statements use *)
(* ===================================================================== *)

(** What the decision is described to be: every configured directory has
    a current hash, and each of them occurs in the marker's contents. *)
Definition every_current_hash_found (w : World) (contents : string) : bool :=
  forallb (fun directory =>
             match dirhash w directory with
             | Ok h => contains h contents
             | Raise _ => false
             end)
          (INDEX_LOCAL_DATA_DIRS w).

(** The toy save directory with its marker removed. *)
Definition toy_without_marker : Store :=
  {| savedir_exists := true; last_hash_txt := None;
     index_faiss := index_faiss Toy.built; index_json := index_json Toy.built |}.

(** The output among the events of a generator. *)
Fixpoint emitted (evs : list event) : list out :=
  match evs with
  | [] => []
  | Yield _ _ :: rest => emitted rest
  | Emit o :: rest => o :: emitted rest
  end.

(** Alignment of an index and a document list: as many rows as texts, and
    the row at each position is the embedding of the text there. *)
Definition aligned (w : World) (index : IndexFlatIP) (docs : list string) : Prop :=
  ntotal index = Z.of_nat (List.length docs) /\
  forall i t, nth_error docs i = Some t ->
              exists v, nth_error (xb index) i = Some v /\ embed w t = Ok v.

Definition store_aligned (w : World) (fs : Store) : Prop :=
  forall index docs,
    index_faiss fs = Some index -> index_json fs = Some docs -> aligned w index docs.

(** A setting in which the first configured directory is called [a] and
    its contents have changed since the marker was written. *)
Definition renamed_world : World := {|
  INDEX_TEXT_CHUNK_LEN := INDEX_TEXT_CHUNK_LEN Toy.world;
  EMBEDDING_MODEL_MAX_LEN := EMBEDDING_MODEL_MAX_LEN Toy.world;
  INDEX_URLS := INDEX_URLS Toy.world;
  INDEX_LOCAL_DATA_DIRS := ["a"; "local_data"];
  INDEX_SAVE_DIR := INDEX_SAVE_DIR Toy.world;
  requests_get := requests_get Toy.world;
  html_get_text := html_get_text Toy.world;
  rglob := rglob Toy.world;
  read_text := read_text Toy.world;
  pdf_page_texts := pdf_page_texts Toy.world;
  dirhash := fun directory =>
    if (directory =? "a")%string
    then Ok "9f86d081884c7d659a2feaa0c55ad015a3bf4f1b2b0b822cd15d6c15b0f00a08"
    else dirhash Toy.world directory;
  llamafile_embed := llamafile_embed Toy.world;
  normalize_L2 := normalize_L2 Toy.world;
  llamafile_tokenize := llamafile_tokenize Toy.world;
  llamafile_completion := llamafile_completion Toy.world
|}.

(** A service whose answer to the probe text has three components and
    whose answer to any other text has two. *)
Definition drifting_embed (text : string) : result vec :=
  if (text =? "Apples are red.")%string then Ok [1%Q; 0%Q; 0%Q]
  else Ok [1%Q; 0%Q].

Definition drifting_world : World := {|
  INDEX_TEXT_CHUNK_LEN := INDEX_TEXT_CHUNK_LEN Toy.world;
  EMBEDDING_MODEL_MAX_LEN := EMBEDDING_MODEL_MAX_LEN Toy.world;
  INDEX_URLS := INDEX_URLS Toy.world;
  INDEX_LOCAL_DATA_DIRS := INDEX_LOCAL_DATA_DIRS Toy.world;
  INDEX_SAVE_DIR := INDEX_SAVE_DIR Toy.world;
  requests_get := requests_get Toy.world;
  html_get_text := html_get_text Toy.world;
  rglob := rglob Toy.world;
  read_text := read_text Toy.world;
  pdf_page_texts := pdf_page_texts Toy.world;
  dirhash := dirhash Toy.world;
  llamafile_embed := drifting_embed;
  normalize_L2 := normalize_L2 Toy.world;
  llamafile_tokenize := llamafile_tokenize Toy.world;
  llamafile_completion := llamafile_completion Toy.world
|}.

Definition is_prompt (o : out) : bool :=
  match o with Prompt _ => true | _ => false end.

(** How often [click.prompt] asked. *)
Definition prompts_shown (o : list out) : nat := List.length (filter is_prompt o).

(** A world in which the completion endpoint is down. *)
Definition completion_down_world : World := {|
  INDEX_TEXT_CHUNK_LEN := INDEX_TEXT_CHUNK_LEN Toy.world;
  EMBEDDING_MODEL_MAX_LEN := EMBEDDING_MODEL_MAX_LEN Toy.world;
  INDEX_URLS := INDEX_URLS Toy.world;
  INDEX_LOCAL_DATA_DIRS := INDEX_LOCAL_DATA_DIRS Toy.world;
  INDEX_SAVE_DIR := INDEX_SAVE_DIR Toy.world;
  requests_get := requests_get Toy.world;
  html_get_text := html_get_text Toy.world;
  rglob := rglob Toy.world;
  read_text := read_text Toy.world;
  pdf_page_texts := pdf_page_texts Toy.world;
  dirhash := dirhash Toy.world;
  llamafile_embed := llamafile_embed Toy.world;
  normalize_L2 := normalize_L2 Toy.world;
  llamafile_tokenize := llamafile_tokenize Toy.world;
  llamafile_completion := fun _ => Raise (External "connection refused")
|}.

(** The ways a URL fails: the request itself raises (a network error),
    the response carries an error status, 4xx or 5xx, which
    [raise_for_status] turns into an [HTTPError], or anything else in the
    body of the [try] raises. *)
Definition url_fails (w : World) (url : string) (e : exn) : Prop :=
  requests_get w url = Raise e \/
  (exists response, requests_get w url = Ok response /\
                    400 <= status_code response < 600 /\
                    e = HTTPError (status_code response)) \/
  fetch_chunks w url = Raise e.

(** The toy world with three URLs configured: one that answers, one that
    answers 404, one that cannot be reached. *)
Definition web_world : World := {|
  INDEX_TEXT_CHUNK_LEN := INDEX_TEXT_CHUNK_LEN Toy.world;
  EMBEDDING_MODEL_MAX_LEN := EMBEDDING_MODEL_MAX_LEN Toy.world;
  INDEX_URLS := ["http://example.org/gone"; "http://example.org/fruit";
                 "http://example.org/down"];
  INDEX_LOCAL_DATA_DIRS := INDEX_LOCAL_DATA_DIRS Toy.world;
  INDEX_SAVE_DIR := INDEX_SAVE_DIR Toy.world;
  requests_get := requests_get Toy.world;
  html_get_text := html_get_text Toy.world;
  rglob := rglob Toy.world;
  read_text := read_text Toy.world;
  pdf_page_texts := pdf_page_texts Toy.world;
  dirhash := dirhash Toy.world;
  llamafile_embed := llamafile_embed Toy.world;
  normalize_L2 := normalize_L2 Toy.world;
  llamafile_tokenize := llamafile_tokenize Toy.world;
  llamafile_completion := llamafile_completion Toy.world
|}.

(** A world whose only source is a URL that answers 300 Multiple Choices
    with a body. *)
Definition choices_world : World := {|
  INDEX_TEXT_CHUNK_LEN := INDEX_TEXT_CHUNK_LEN Toy.world;
  EMBEDDING_MODEL_MAX_LEN := EMBEDDING_MODEL_MAX_LEN Toy.world;
  INDEX_URLS := ["http://example.org/choices"];
  INDEX_LOCAL_DATA_DIRS := [];
  INDEX_SAVE_DIR := INDEX_SAVE_DIR Toy.world;
  requests_get := fun _ => Ok {| status_code := 300; text := "Elderberries are black." |};
  html_get_text := html_get_text Toy.world;
  rglob := rglob Toy.world;
  read_text := read_text Toy.world;
  pdf_page_texts := pdf_page_texts Toy.world;
  dirhash := dirhash Toy.world;
  llamafile_embed := llamafile_embed Toy.world;
  normalize_L2 := normalize_L2 Toy.world;
  llamafile_tokenize := llamafile_tokenize Toy.world;
  llamafile_completion := llamafile_completion Toy.world
|}.

(** The events of one file, when reading and chunking it raise nothing. *)
Definition file_events (w : World) (read : string -> result string) (path : string)
  : list event :=
  fst (file_gen w read path).

(** The chunks of one file beside its path, none when reading or chunking
    it raises. *)
Definition file_chunks (w : World) (read : string -> result string) (path : string)
  : list (string * string) :=
  match (text <- read path ;; chunk_text w text) with
  | Ok chunks => map (pair path) chunks
  | Raise _ => []
  end.

(** The toy world with a chunk length below the overlap. *)
Definition short_chunk_world : World := {|
  INDEX_TEXT_CHUNK_LEN := 30;
  EMBEDDING_MODEL_MAX_LEN := EMBEDDING_MODEL_MAX_LEN Toy.world;
  INDEX_URLS := INDEX_URLS Toy.world;
  INDEX_LOCAL_DATA_DIRS := INDEX_LOCAL_DATA_DIRS Toy.world;
  INDEX_SAVE_DIR := INDEX_SAVE_DIR Toy.world;
  requests_get := requests_get Toy.world;
  html_get_text := html_get_text Toy.world;
  rglob := rglob Toy.world;
  read_text := read_text Toy.world;
  pdf_page_texts := pdf_page_texts Toy.world;
  dirhash := dirhash Toy.world;
  llamafile_embed := llamafile_embed Toy.world;
  normalize_L2 := normalize_L2 Toy.world;
  llamafile_tokenize := llamafile_tokenize Toy.world;
  llamafile_completion := llamafile_completion Toy.world
|}.

(** The sum of the lengths of the pieces. *)
Fixpoint total_len (pieces : list string) : Z :=
  match pieces with
  | [] => 0
  | p :: rest => len p + total_len rest
  end.

(** [s[n:]]. *)
Fixpoint drop_chars (n : nat) (s : string) : string :=
  match n, s with
  | S n', String _ s' => drop_chars n' s'
  | _, _ => s
  end.

(** What a chunk must be: not longer than the chunk size, and not empty. *)
Definition good_chunk (chunk_size : Z) (c : string) : Prop :=
  len c <= chunk_size /\ c <> "".

(** The recursive call of the splitter, when there is one, ends with good
    chunks. *)
Definition deeper_ok (chunk_size : Z) (deeper : option (string -> result (list string)))
  (s : string) : Prop :=
  match deeper with
  | Some f => exists out, f s = Ok out /\ Forall (good_chunk chunk_size) out
  | None => False
  end.

Fixpoint replicate (n : nat) (c : ascii) : string :=
  match n with
  | O => EmptyString
  | S n' => String c (replicate n' c)
  end.

(** The last [n] characters of [c1] are the first [n] of [c2]. *)
Definition overlaps (n : nat) (c1 c2 : string) : bool :=
  (n <=? String.length c1)%nat && (n <=? String.length c2)%nat &&
  (String.substring (String.length c1 - n) n c1 =? String.substring 0 n c2)%string.

(** No character of the string is white space. *)
Fixpoint no_space (s : string) : bool :=
  match s with
  | EmptyString => true
  | String c s' => negb (is_space c) && no_space s'
  end.

(** Every chunk but the last shares its last [n] characters with the
    first [n] of the chunk behind it. *)
Fixpoint each_overlaps_next (n : nat) (chunks : list string) : Prop :=
  match chunks with
  | c1 :: rest =>
      match rest with
      | c2 :: _ => overlaps n c1 c2 = true
      | [] => True
      end /\ each_overlaps_next n rest
  | [] => True
  end.

(** A stretch of the text as the splitter cuts it: the characters it
    repeats from the end of the stretch before it, and the characters of
    the text that are new in it. *)
Definition stretch : Type := (string * string)%type.

Definition stretch_text (s : stretch) : string := (fst s ++ snd s)%string.

(** The chunks of a list of stretches: each is stripped, and those of
    which nothing is left are dropped. *)
Definition stretch_chunks (stretches : list stretch) : list string :=
  flat_map (fun s => if str_nonempty (strip (stretch_text s))
                     then [strip (stretch_text s)] else [])
           stretches.

(** The new characters of all stretches, one after the other. *)
Definition new_text (stretches : list stretch) : string :=
  String.concat "" (map snd stretches).

(** Each stretch repeats an end of the stretch before it, of at most [n]
    characters; the first one, with [prev] empty, repeats nothing. *)
Fixpoint repeats_at_most (n : Z) (prev : string) (stretches : list stretch) : Prop :=
  match stretches with
  | [] => True
  | s :: rest =>
      (exists before, prev = (before ++ fst s)%string) /\
      len (fst s) <= n /\
      repeats_at_most n (stretch_text s) rest
  end.

(** A piece of one character that is not white space. *)
Definition unit_piece (p : string) : Prop := len p = 1 /\ no_space p = true.

(** A window of one merge: the pieces kept from the window before it, and
    the pieces added behind them. *)
Definition window : Type := (list string * list string)%type.

Definition window_pieces (w : window) : list string := fst w ++ snd w.

Definition window_chunks (ws : list window) : list string :=
  flat_map (fun w => TextSplitter.append_doc []
                       (TextSplitter.join_docs (window_pieces w) ""))
           ws.

(** The pieces each window keeps are a tail of the pieces of the window
    before it, and have the property [Q]. *)
Fixpoint linked (Q : list string -> Prop) (prev : list string) (ws : list window) : Prop :=
  match ws with
  | [] => True
  | w :: rest =>
      (exists dropped, prev = dropped ++ fst w) /\
      Q (fst w) /\
      linked Q (window_pieces w) rest
  end.

(** The stretch of a window. *)
Definition stretch_of (w : window) : stretch :=
  (String.concat "" (fst w), String.concat "" (snd w)).

(** The recursive call of the splitter, when there is one, cuts its text
    into stretches that repeat at most [n] characters. *)
Definition deeper_stretches (n : Z) (deeper : option (string -> result (list string)))
  (s : string) : Prop :=
  match deeper with
  | Some f => exists stretches,
                f s = Ok (stretch_chunks stretches) /\
                new_text stretches = s /\
                repeats_at_most n "" stretches
  | None => False
  end.

(** The toy setting with a text file between the two others that cannot
    be read. *)
Definition unreadable_world : World := {|
  INDEX_TEXT_CHUNK_LEN := INDEX_TEXT_CHUNK_LEN Toy.world;
  EMBEDDING_MODEL_MAX_LEN := EMBEDDING_MODEL_MAX_LEN Toy.world;
  INDEX_URLS := ["http://example.org/fruit"];
  INDEX_LOCAL_DATA_DIRS := INDEX_LOCAL_DATA_DIRS Toy.world;
  INDEX_SAVE_DIR := INDEX_SAVE_DIR Toy.world;
  requests_get := requests_get Toy.world;
  html_get_text := html_get_text Toy.world;
  rglob := fun directory pattern =>
    if (pattern =? "*.txt")%string
    then ["local_data/doc1.txt"; "local_data/secret.txt"; "local_data/doc2.txt"]
    else rglob Toy.world directory pattern;
  read_text := fun path =>
    if (path =? "local_data/secret.txt")%string
    then Raise (External "Permission denied")
    else read_text Toy.world path;
  pdf_page_texts := pdf_page_texts Toy.world;
  dirhash := dirhash Toy.world;
  llamafile_embed := llamafile_embed Toy.world;
  normalize_L2 := normalize_L2 Toy.world;
  llamafile_tokenize := llamafile_tokenize Toy.world;
  llamafile_completion := llamafile_completion Toy.world
|}.

(** The property of a yielded chunk, with its origin, that ingestion keeps. *)
Definition chunk_fits (w : World) (oc : string * string) : Prop :=
  good_chunk (chunk_len w) (snd oc).

(** The stored rows with their inner products and their positions, the
    first of them at position [label]. *)
Fixpoint scored_rows (x : vec) (label : Z) (rows : list vec) : list (Q * Z) :=
  match rows with
  | [] => []
  | row :: rest => (inner_product x row, label) :: scored_rows x (label + 1) rest
  end.

(** The three lines with which [run_query] echoes the query. *)
Definition query_echo (query : string) : list out :=
  [Print "=== Query ==="; Print query; Print ""].

(** The events of one local directory when nothing raises in it: its
    text files in listing order, then its PDF files in listing order. *)
Definition dir_events (w : World) (directory : string) : list event :=
  flat_map (file_events w (read_text w)) (rglob w directory "*.txt")
  ++ flat_map (file_events w (load_pdf w)) (rglob w directory "*.pdf").

(** The message [build_index] logs at its end. *)
Definition saved_message (w : World) (index : IndexFlatIP) : out :=
  Log INFO ("index with " ++ str_of_nat (List.length (xb index))
            ++ " entries saved to " ++ INDEX_SAVE_DIR w)%string.

(** The message [load_index] logs. *)
Definition loaded_message (w : World) (index : IndexFlatIP) : out :=
  Log INFO ("index with " ++ str_of_nat (List.length (xb index))
            ++ " entries loaded from " ++ INDEX_SAVE_DIR w)%string.

(** The row of the result table for a score and a document. *)
Definition result_row (st : score * string) : out :=
  PrintResult (fst st) (take_chars 100 (snd st)).

(* ===================================================================== *)
(** ** Generic facts: results, output, Python lists *)
(* ===================================================================== *)

Lemma mbind_ok {A B : Type} (m : M A) (k : A -> M B) o b :
  mbind m k = (o, Ok b) ->
  exists o1 a o2, m = (o1, Ok a) /\ k a = (o2, Ok b) /\ o = o1 ++ o2.
Proof.
  unfold mbind. destruct m as [o1 [a | e]]; [| discriminate].
  destruct (k a) as [o2 r] eqn:Hk. intros H. inversion H; subst.
  exists o1, a, o2. auto.
Qed.

Lemma list_get_in_range {A : Type} (xs : list A) (i : nat) (x : A) :
  nth_error xs i = Some x -> list_get xs (Z.of_nat i) = Ok x.
Proof.
  intros H. unfold list_get.
  assert (Hi : (i < List.length xs)%nat) by (apply nth_error_Some; congruence).
  destruct (Z.of_nat i <? 0) eqn:Hneg; [apply Z.ltb_lt in Hneg; lia |].
  replace ((0 <=? Z.of_nat i) && (Z.of_nat i <? Z.of_nat (List.length xs))) with true.
  - now rewrite Nat2Z.id, H.
  - symmetry. apply andb_true_iff. split; [apply Z.leb_le | apply Z.ltb_lt]; lia.
Qed.

(** [xs[-1]] is the last element of a list that has one. *)
Lemma list_get_minus_one {A : Type} (xs : list A) (x : A) :
  list_get (xs ++ [x]) (-1) = Ok x.
Proof.
  unfold list_get. rewrite length_app. cbn [List.length].
  change (-1 <? 0) with true. cbv iota.
  replace ((0 <=? -1 + Z.of_nat (List.length xs + 1)) &&
           (-1 + Z.of_nat (List.length xs + 1) <? Z.of_nat (List.length xs + 1))) with true.
  - replace (Z.to_nat (-1 + Z.of_nat (List.length xs + 1))) with (List.length xs) by lia.
    rewrite nth_error_app2 by lia. now rewrite Nat.sub_diag.
  - symmetry. apply andb_true_iff. split; [apply Z.leb_le | apply Z.ltb_lt]; lia.
Qed.

Lemma list_get_empty {A : Type} (ix : Z) : list_get (@nil A) ix = Raise IndexError.
Proof.
  unfold list_get. cbn [List.length Z.of_nat].
  destruct (ix <? 0) eqn:Hneg.
  - replace ((0 <=? ix + 0) && (ix + 0 <? 0)) with false; [reflexivity |].
    symmetry. apply andb_false_iff. left. apply Z.leb_gt. apply Z.ltb_lt in Hneg. lia.
  - replace ((0 <=? ix) && (ix <? 0)) with false; [reflexivity |].
    symmetry. apply andb_false_iff. now right.
Qed.

(* ===================================================================== *)
(** ** The staleness decision *)
(* ===================================================================== *)

(** What the code decides: it returns early exactly when the save
    directory and the marker exist and the path of the first configured
    directory, not its hash, occurs in the marker. *)
Lemma reuse_check_skips_iff (w : World) (fs : Store) :
  snd (reuse_check w fs) = true <->
  savedir_exists fs = true /\
  exists contents d0 rest,
    last_hash_txt fs = Some contents /\
    INDEX_LOCAL_DATA_DIRS w = d0 :: rest /\
    contains d0 contents = true.
Proof.
  unfold reuse_check. split.
  - destruct (savedir_exists fs); [| discriminate].
    destruct (last_hash_txt fs) as [contents |]; [| discriminate].
    destruct (INDEX_LOCAL_DATA_DIRS w) as [| d0 rest]; [discriminate |].
    destruct (contains d0 contents) eqn:Hc; [| discriminate].
    intros _. split; [reflexivity |]. now exists contents, d0, rest.
  - intros [Hs (contents & d0 & rest & Hm & Hd & Hc)].
    now rewrite Hs, Hm, Hd, Hc.
Qed.

Lemma build_index_skip (w : World) (fs : Store) :
  snd (reuse_check w fs) = true ->
  build_index w fs = {| trace := fst (reuse_check w fs); store := fs; raised := None |}.
Proof.
  unfold build_index. destruct (reuse_check w fs) as [log skip]. cbn.
  now intros ->.
Qed.

(** A rebuild that reaches the end of the ingestion loop meets
    [savedir.mkdir(parents=True)]; on a save directory that exists this
    raises, so a run over an existing directory either returns early or
    raises, and leaves the directory as it was. *)
Lemma build_index_existing_savedir (w : World) (fs : Store) :
  savedir_exists fs = true ->
  snd (reuse_check w fs) = false ->
  raised (build_index w fs) <> None /\ store (build_index w fs) = fs.
Proof.
  intros Hs Hr. unfold build_index.
  destruct (reuse_check w fs) as [log skip]. cbn in Hr. subst skip.
  destruct (llamafile_embed w "Apples are red.") as [probe | e];
    [| split; [discriminate | reflexivity]].
  destruct (load_data_for_indexing w) as [evs gen_exn].
  destruct (build_loop w {| d := dim probe; xb := [] |} [] evs)
    as [log2 [[index' docs] | e]]; [| split; [discriminate | reflexivity]].
  destruct gen_exn; [split; [discriminate | reflexivity] |].
  rewrite Hs. split; [discriminate | reflexivity].
Qed.

(** C1: in the toy world nothing has changed since the build that wrote the
    marker, and the current hash of every configured directory is in the
    marker; yet the next run does not reuse the index: it warns about a
    hash mismatch, rebuilds, and ends in [FileExistsError].  The test
    [d not in fin.read()] looks for the directory's path, not its hash. *)
Theorem unchanged_directories_trigger_rebuild :
  last_hash_txt Toy.built = Some Toy.hash_of_local_data /\
  every_current_hash_found Toy.world Toy.hash_of_local_data = true /\
  reuse_check Toy.world Toy.built
    = ([Log WARNING "index dir hash mismatch, rebuilding index"], false) /\
  raised (build_index Toy.world Toy.built) = Some FileExistsError /\
  store (build_index Toy.world Toy.built) = Toy.built.
Proof. vm_compute. repeat split; reflexivity. Qed.

(** The converse failure: the hash of directory [a] is not in the marker,
    but its one-letter path is, so the stale index is reused. *)
Lemma changed_directory_is_reused :
  every_current_hash_found renamed_world Toy.hash_of_local_data = false /\
  reuse_check renamed_world Toy.built
    = ([Log INFO "index already exists, skipping"], true) /\
  raised (build_index renamed_world Toy.built) = None /\
  store (build_index renamed_world Toy.built) = Toy.built.
Proof. vm_compute. repeat split; reflexivity. Qed.

(** C8: when the save directory exists and [last_hash.txt] does not, the
    run warns and starts the rebuild, but it never completes: it ends in an
    exception ([FileExistsError] from [mkdir] when ingestion and embedding
    succeed), and neither the index, the documents nor the marker are
    written. *)
Theorem missing_marker_rebuild_never_completes (w : World) (fs : Store) :
  savedir_exists fs = true ->
  last_hash_txt fs = None ->
  reuse_check w fs
    = ([Log WARNING "index dir hash file not found, rebuilding index"], false) /\
  raised (build_index w fs) <> None /\
  store (build_index w fs) = fs /\
  (forall probe log2 built_pair,
     llamafile_embed w "Apples are red." = Ok probe ->
     snd (load_data_for_indexing w) = None ->
     build_loop w {| d := dim probe; xb := [] |} [] (fst (load_data_for_indexing w))
       = (log2, Ok built_pair) ->
     raised (build_index w fs) = Some FileExistsError).
Proof.
  intros Hs Hm.
  assert (Hr : reuse_check w fs
               = ([Log WARNING "index dir hash file not found, rebuilding index"], false)).
  { unfold reuse_check. now rewrite Hs, Hm. }
  split; [exact Hr |].
  destruct (build_index_existing_savedir w fs Hs) as [Hraised Hstore];
    [now rewrite Hr |].
  repeat split; try assumption.
  intros probe log2 [index' docs] Hp Hg Hl.
  unfold build_index. rewrite Hr, Hp.
  destruct (load_data_for_indexing w) as [evs gen_exn]. cbn in Hg, Hl. subst gen_exn.
  rewrite Hl, Hs. reflexivity.
Qed.

Lemma missing_marker_rebuild_never_completes_witness :
  raised (build_index Toy.world toy_without_marker) = Some FileExistsError /\
  store (build_index Toy.world toy_without_marker) = toy_without_marker.
Proof.
  destruct (missing_marker_rebuild_never_completes Toy.world toy_without_marker
              eq_refl eq_refl) as (_ & _ & Hstore & Hexn).
  split; [| exact Hstore].
  eapply (Hexn [1%Q; 0%Q; 0%Q]); vm_compute; reflexivity.
Defined.

(* ===================================================================== *)
(** ** The build loop keeps vectors and documents aligned *)
(* ===================================================================== *)

Lemma yielded_chunks_app (evs1 evs2 : list event) :
  yielded_chunks (evs1 ++ evs2) = yielded_chunks evs1 ++ yielded_chunks evs2.
Proof.
  unfold yielded_chunks. induction evs1 as [| [origin chunk | o] evs1 IH]; cbn.
  - reflexivity.
  - now rewrite IH.
  - exact IH.
Qed.

Lemma index_add_ok (index index' : IndexFlatIP) (x : vec) :
  index_add index x = Ok index' ->
  dim x = d index /\ index' = {| d := d index; xb := xb index ++ [x] |}.
Proof.
  unfold index_add. destruct (dim x =? d index) eqn:Hd; [| discriminate].
  intros H. inversion H. split; [now apply Z.eqb_eq | reflexivity].
Qed.

Lemma index_add_wrong_dim (index : IndexFlatIP) (x : vec) :
  dim x <> d index -> index_add index x = Raise AssertionError.
Proof.
  intros H. unfold index_add. apply Z.eqb_neq in H. now rewrite H.
Qed.

Section BuildLoop.

Variable w : World.

(** A build loop that comes to its end has appended the yielded chunks to
    the documents and, position by position, their embeddings to the
    index; it has printed what the generator emitted. *)
Lemma build_loop_ok (evs : list event) :
  forall index docs o index' docs',
    build_loop w index docs evs = (o, Ok (index', docs')) ->
    d index' = d index /\
    docs' = docs ++ yielded_chunks evs /\
    o = emitted evs /\
    exists vs, xb index' = xb index ++ vs /\
               Forall2 (fun t v => embed w t = Ok v /\ dim v = d index)
                       (yielded_chunks evs) vs.
Proof.
  induction evs as [| [origin chunk | x] evs IH]; intros index docs o index' docs' H.
  - cbn in H. inversion H; subst. repeat split; try now rewrite app_nil_r.
    exists []. split; [now rewrite app_nil_r | constructor].
  - cbn [build_loop] in H.
    apply mbind_ok in H. destruct H as (o1 & index1 & o2 & Hadd & Hrest & ->).
    unfold lift in Hadd. inversion Hadd as [[Ho1 Hr]]. clear Hadd.
    destruct (embed w chunk) as [v | e] eqn:Hv; [| discriminate].
    cbn in Hr. apply index_add_ok in Hr. destruct Hr as [Hdim ->].
    apply IH in Hrest. cbn [d xb] in Hrest.
    destruct Hrest as (Hd & Hdocs & Ho & vs & Hxb & Hall).
    repeat split.
    + exact Hd.
    + rewrite Hdocs, <- app_assoc. reflexivity.
    + exact Ho.
    + exists (v :: vs). split.
      * rewrite Hxb, <- app_assoc. reflexivity.
      * unfold yielded_chunks. cbn. constructor; [now split | exact Hall].
  - cbn [build_loop] in H.
    apply mbind_ok in H. destruct H as (o1 & u & o2 & Hemit & Hrest & ->).
    inversion Hemit; subst. apply IH in Hrest.
    destruct Hrest as (Hd & Hdocs & Ho & vs & Hxb & Hall).
    repeat split; try assumption.
    + cbn. now rewrite Ho.
    + exists vs. split; assumption.
Qed.

(** A chunk whose embedding has another dimension than the index stops
    the loop at [index.add], whatever came before it went in. *)
Lemma build_loop_stops_at_wrong_dim (pre : list event) :
  forall index docs origin chunk post v,
    (forall t, In t (yielded_chunks pre) ->
               exists u, embed w t = Ok u /\ dim u = d index) ->
    embed w chunk = Ok v ->
    dim v <> d index ->
    build_loop w index docs (pre ++ Yield origin chunk :: post)
      = (emitted pre, Raise AssertionError).
Proof.
  induction pre as [| [origin' chunk' | x] pre IH];
    intros index docs origin chunk post v Hpre Hv Hdim.
  - cbn. rewrite Hv. cbn. now rewrite (index_add_wrong_dim _ _ Hdim).
  - cbn [app build_loop emitted].
    destruct (Hpre chunk') as (u & Hu & Hud); [unfold yielded_chunks; cbn; now left |].
    rewrite Hu. cbn [bind]. unfold index_add. rewrite (proj2 (Z.eqb_eq _ _) Hud).
    unfold lift, mbind.
    rewrite (IH _ _ origin chunk post v); [reflexivity | | exact Hv | exact Hdim].
    intros t Ht. cbn [d]. apply Hpre. unfold yielded_chunks in *. cbn. now right.
  - cbn [app build_loop emitted]. unfold emit, mbind.
    rewrite (IH _ _ origin chunk post v); [reflexivity | | exact Hv | exact Hdim].
    intros t Ht. apply Hpre. unfold yielded_chunks in *. cbn. exact Ht.
Qed.

End BuildLoop.

Lemma Forall2_nth_error_left {A B : Type} (P : A -> B -> Prop) (xs : list A) (ys : list B) :
  Forall2 P xs ys ->
  forall i x, nth_error xs i = Some x -> exists y, nth_error ys i = Some y /\ P x y.
Proof.
  induction 1 as [| x0 y0 xs ys Hxy _ IH]; intros [| i] x Hx; cbn in *; try discriminate.
  - inversion Hx; subst. now exists y0.
  - now apply IH.
Qed.

(** C2: a run of [build_index] that ends without an exception has either
    returned early and written nothing, or has written an index and a
    document list that are aligned: [index.ntotal] equals the length of the
    list, and the row at each position is the embedding of the text at
    that position; [load_index] then hands back exactly that pair.  So a
    save directory whose artifacts are aligned stays so. *)
Theorem build_index_alignment (w : World) (fs : Store) :
  raised (build_index w fs) = None ->
  ((snd (reuse_check w fs) = true /\ store (build_index w fs) = fs) \/
   (snd (reuse_check w fs) = false /\
    exists index docs,
      index_faiss (store (build_index w fs)) = Some index /\
      index_json (store (build_index w fs)) = Some docs /\
      aligned w index docs /\
      snd (load_index w (store (build_index w fs))) = Ok (index, docs))) /\
  (store_aligned w fs -> store_aligned w (store (build_index w fs))).
Proof.
  intros Hret.
  assert (Hmain :
    (snd (reuse_check w fs) = true /\ store (build_index w fs) = fs) \/
    (snd (reuse_check w fs) = false /\
     exists index docs,
       index_faiss (store (build_index w fs)) = Some index /\
       index_json (store (build_index w fs)) = Some docs /\
       aligned w index docs /\
       snd (load_index w (store (build_index w fs))) = Ok (index, docs))).
  { destruct (snd (reuse_check w fs)) eqn:Hskip.
    - left. split; [reflexivity |]. now rewrite (build_index_skip w fs Hskip).
    - right. split; [reflexivity |].
      revert Hret. unfold build_index.
      destruct (reuse_check w fs) as [log skip]. cbn in Hskip. subst skip.
      destruct (llamafile_embed w "Apples are red.") as [probe | e]; [| discriminate].
      destruct (load_data_for_indexing w) as [evs gen_exn].
      destruct (build_loop w {| d := dim probe; xb := [] |} [] evs)
        as [log2 [[index' docs] | e]] eqn:Hloop; [| discriminate].
      destruct gen_exn; [discriminate |].
      destruct (savedir_exists fs); [discriminate |].
      destruct (write_hashes w "" (INDEX_LOCAL_DATA_DIRS w)) as [hashes [e |]];
        [discriminate |].
      intros _. cbn [store index_faiss index_json].
      exists index', docs. split; [reflexivity |]. split; [reflexivity |].
      apply build_loop_ok in Hloop. cbn [d xb] in Hloop.
      destruct Hloop as (_ & Hdocs & _ & vs & Hxb & Hall).
      cbn [app] in Hdocs, Hxb. subst docs. split.
      + split.
        * unfold ntotal. rewrite Hxb. f_equal. symmetry. exact (Forall2_length Hall).
        * intros i t Ht. rewrite Hxb.
          destruct (Forall2_nth_error_left Hall i Ht) as (v & Hv & He & _).
          now exists v.
      + unfold load_index. cbn. reflexivity. }
  split; [exact Hmain |].
  intros Hinv. destruct Hmain as [[_ ->] | (_ & index & docs & Hi & Hj & Ha & _)].
  - exact Hinv.
  - intros index0 docs0 Hi0 Hj0. congruence.
Qed.

Lemma build_index_alignment_witness :
  exists index docs,
    index_faiss Toy.built = Some index /\
    index_json Toy.built = Some docs /\
    aligned Toy.world index docs.
Proof.
  destruct (build_index_alignment Toy.world no_store eq_refl)
    as [[[Hskip _] | (_ & index & docs & Hi & Hj & Ha & _)] _].
  - discriminate Hskip.
  - exists index, docs. auto.
Defined.

(* ===================================================================== *)
(** ** Dimension drift *)
(* ===================================================================== *)

(** [embed] has no check of its own: whatever row the service returns
    comes back normalized. *)
Lemma embed_no_dimension_check (w : World) (text : string) (raw : vec) :
  llamafile_embed w text = Ok raw -> embed w text = Ok (normalize_L2 w raw).
Proof. intros H. unfold embed. now rewrite H. Qed.

(** C5, as the claim states it, fails: the dimension established by the
    probe is 3, the service answers the next text with 2 components, and
    [embed] returns that vector instead of failing. *)
Lemma embed_returns_drifted_vector :
  (ans <- llamafile_embed drifting_world "Apples are red." ;; Ok (dim ans)) = Ok 3 /\
  embed drifting_world "Bananas are yellow." = Ok [1%Q; 0%Q] /\
  dim [1%Q; 0%Q] <> 3.
Proof. repeat split. discriminate. Qed.

(** C5, amended: [embed] does not compare dimensions; it returns the
    normalized vector the service produced.  The drift is caught one step
    later, during a build: [index.add] refuses a row whose dimension is not
    the one the probe established, so the build ends in [AssertionError] at
    the first such chunk and writes nothing. *)
Theorem dimension_drift_stops_build_at_add (w : World) (fs : Store)
  (probe raw : vec) (pre post : list event) (origin chunk : string) :
  snd (reuse_check w fs) = false ->
  llamafile_embed w "Apples are red." = Ok probe ->
  fst (load_data_for_indexing w) = pre ++ Yield origin chunk :: post ->
  (forall t, In t (yielded_chunks pre) ->
             exists u, embed w t = Ok u /\ dim u = dim probe) ->
  llamafile_embed w chunk = Ok raw ->
  dim (normalize_L2 w raw) <> dim probe ->
  embed w chunk = Ok (normalize_L2 w raw) /\
  index_add {| d := dim probe; xb := [] |} (normalize_L2 w raw) = Raise AssertionError /\
  raised (build_index w fs) = Some AssertionError /\
  store (build_index w fs) = fs.
Proof.
  intros Hskip Hprobe Hevs Hpre Hraw Hdim.
  pose proof (embed_no_dimension_check w chunk Hraw) as Hembed.
  split; [exact Hembed |].
  split; [now apply index_add_wrong_dim |].
  unfold build_index.
  destruct (reuse_check w fs) as [log skip]. cbn in Hskip. subst skip.
  rewrite Hprobe.
  destruct (load_data_for_indexing w) as [evs gen_exn]. cbn in Hevs. subst evs.
  rewrite (build_loop_stops_at_wrong_dim w pre {| d := dim probe; xb := [] |} []
             origin chunk post Hpre Hembed Hdim).
  split; reflexivity.
Qed.

Lemma dimension_drift_stops_build_at_add_witness :
  raised (build_index drifting_world no_store) = Some AssertionError /\
  store (build_index drifting_world no_store) = no_store.
Proof.
  destruct (@dimension_drift_stops_build_at_add drifting_world no_store
              [1%Q; 0%Q; 0%Q] [1%Q; 0%Q]
              [Yield "local_data/doc1.txt" "Apples are red."]
              [Yield "local_data/paper.pdf" "Cherries are dark red."]
              "local_data/doc2.txt" "Bananas are yellow.")
    as (_ & _ & Hraised & Hstore).
  - reflexivity.
  - reflexivity.
  - vm_compute. reflexivity.
  - intros t [<- | []]. exists [1%Q; 0%Q; 0%Q]. split; reflexivity.
  - reflexivity.
  - vm_compute. discriminate.
  - split; assumption.
Defined.

(* ===================================================================== *)
(** ** The query loop *)
(* ===================================================================== *)

(** The loop body is [run_query]: the recursion of [query_loop] is the
    [while True] around it. *)
Lemma query_loop_unfold (w : World) (k : Z) (index : IndexFlatIP) (docs : list string)
  (stdin : list string) :
  query_loop w k index docs stdin =
  match run_query w k index docs stdin with
  | (o, Ok rest) => let (o', e) := query_loop w k index docs rest in (o ++ o', e)
  | (o, Raise e) => (o, e)
  end.
Proof.
  destruct stdin as [| query rest]; [reflexivity |].
  cbn [query_loop]. unfold run_query, click_prompt.
  cbn [mbind emit ret fst snd app].
  destruct (query_turn w k index docs query) as [o [r | e]].
  - cbn. rewrite app_nil_r.
    destruct (query_loop w k index docs rest) as [o' e]. reflexivity.
  - reflexivity.
Qed.

(** C6, as the claim states it, fails: with two queries waiting and the
    completion call of the first one failing, the session ends with that
    exception; [click.prompt] has asked once, and the second query is
    never echoed. *)
Lemma failed_completion_ends_session :
  let session := rag completion_down_world 3 Toy.built
                     ["What color are apples?"; "What color are bananas?"] in
  snd session = External "connection refused" /\
  prompts_shown (fst session) = 1%nat /\
  existsb (fun o => match o with
                    | Print line => (line =? "What color are bananas?")%string
                    | _ => false
                    end) (fst session) = false.
Proof. vm_compute. repeat split. Qed.

(** C6, amended: an exception raised in a query turn is not handled
    anywhere in the loop: it leaves [run_query] and the [while], so it ends
    the session with that exception, and the input behind the failing
    query is never read. *)
Theorem failed_turn_ends_session (w : World) (k : Z) (index : IndexFlatIP)
  (docs : list string) (pre : list string) (query : string) (rest : list string)
  (o : list out) (e : exn) :
  (forall q, In q pre -> is_ok (snd (query_turn w k index docs q)) = true) ->
  query_turn w k index docs query = (o, Raise e) ->
  snd (query_loop w k index docs (pre ++ query :: rest)) = e /\
  query_loop w k index docs (pre ++ query :: rest)
    = query_loop w k index docs (pre ++ [query]).
Proof.
  intros Hpre Hq. induction pre as [| q pre IH].
  - cbn [app query_loop]. rewrite Hq. split; reflexivity.
  - assert (Hok : is_ok (snd (query_turn w k index docs q)) = true)
      by (apply Hpre; now left).
    destruct IH as [IHe IHeq]; [intros q' Hq'; apply Hpre; now right |].
    cbn [app query_loop].
    destruct (query_turn w k index docs q) as [oq [r | eq]]; [| discriminate Hok].
    rewrite IHeq.
    destruct (query_loop w k index docs (pre ++ [query])) as [o' e'] eqn:Hl.
    rewrite IHeq in IHe. cbn [snd] in *. split; [exact IHe | reflexivity].
Qed.

Lemma failed_turn_ends_session_witness :
  snd (query_loop completion_down_world 3 {| d := 3; xb := [] |} []
         ["What color are apples?"; "What color are bananas?"])
  = External "connection refused".
Proof.
  apply (@failed_turn_ends_session completion_down_world 3 {| d := 3; xb := [] |} []
           [] "What color are apples?" ["What color are bananas?"]
           (fst (query_turn completion_down_world 3 {| d := 3; xb := [] |} []
                   "What color are apples?"))
           (External "connection refused")).
  - intros q [].
  - vm_compute. reflexivity.
Defined.

(* ===================================================================== *)
(** ** Search results and what [run_query] makes of them *)
(* ===================================================================== *)

Lemma list_get_raises_index_error {A : Type} (xs : list A) (ix : Z) (e : exn) :
  list_get xs ix = Raise e -> e = IndexError.
Proof.
  unfold list_get.
  destruct ((0 <=? (if ix <? 0 then ix + Z.of_nat (List.length xs) else ix)) &&
            ((if ix <? 0 then ix + Z.of_nat (List.length xs) else ix)
               <? Z.of_nat (List.length xs))).
  - destruct (nth_error xs _); [discriminate | congruence].
  - congruence.
Qed.

Lemma insert_ranked_length (s : Q) (label : Z) (ranked : list (Q * Z)) :
  List.length (insert_ranked s label ranked) = S (List.length ranked).
Proof.
  induction ranked as [| [s' label'] ranked IH]; cbn; [reflexivity |].
  destruct (Qle_bool s s'); cbn; [now rewrite IH | reflexivity].
Qed.

Lemma insert_ranked_labels (P : Z -> Prop) (s : Q) (label : Z) (ranked : list (Q * Z)) :
  P label -> Forall (fun r => P (snd r)) ranked ->
  Forall (fun r => P (snd r)) (insert_ranked s label ranked).
Proof.
  intros Hl. induction 1 as [| [s' label'] ranked Hr Hrest IH]; cbn.
  - now repeat constructor.
  - destruct (Qle_bool s s'); repeat constructor; assumption.
Qed.

Lemma rank_from_length (x : vec) (rows : list vec) :
  forall label ranked,
    List.length (rank_from x label rows ranked)
    = (List.length ranked + List.length rows)%nat.
Proof.
  induction rows as [| row rows IH]; intros label ranked; cbn [rank_from List.length].
  - lia.
  - rewrite IH, insert_ranked_length. lia.
Qed.

(** Every label of the ranking is the position of a stored row. *)
Lemma rank_from_labels (x : vec) (rows : list vec) :
  forall first label ranked,
    first <= label ->
    Forall (fun r => first <= snd r < label) ranked ->
    Forall (fun r => first <= snd r < label + Z.of_nat (List.length rows))
           (rank_from x label rows ranked).
Proof.
  induction rows as [| row rows IH]; intros first label ranked Hle Hall;
    cbn [rank_from List.length].
  - rewrite Z.add_0_r. exact Hall.
  - replace (label + Z.of_nat (S (List.length rows)))
      with ((label + 1) + Z.of_nat (List.length rows)) by lia.
    apply IH; [lia |].
    apply (insert_ranked_labels (fun l => first <= l < label + 1)); [lia |].
    eapply Forall_impl; [| exact Hall]. cbn. intros r Hr. lia.
Qed.

Lemma map_result_app {A B : Type} (f : A -> result B) (xs ys : list A) (xs' ys' : list B) :
  map_result f xs = Ok xs' -> map_result f ys = Ok ys' ->
  map_result f (xs ++ ys) = Ok (xs' ++ ys').
Proof.
  revert xs'. induction xs as [| x xs IH]; intros xs' Hx Hy; cbn in *.
  - inversion Hx. exact Hy.
  - destruct (f x) as [y | e]; [| discriminate]. cbn in *.
    destruct (map_result f xs) as [zs | e]; [| discriminate]. cbn in *.
    inversion Hx; subst. now rewrite (IH zs eq_refl Hy).
Qed.

Lemma map_result_length {A B : Type} (f : A -> result B) (xs : list A) (ys : list B) :
  map_result f xs = Ok ys -> List.length ys = List.length xs.
Proof.
  revert ys. induction xs as [| x xs IH]; intros ys H; cbn in *.
  - now inversion H.
  - destruct (f x) as [y | e]; [| discriminate]. cbn in *.
    destruct (map_result f xs) as [zs | e]; [| discriminate]. cbn in *.
    inversion H; subst. cbn. now rewrite (IH zs eq_refl).
Qed.

Lemma map_result_repeat {A B : Type} (f : A -> result B) (x : A) (y : B) (n : nat) :
  f x = Ok y -> map_result f (repeat x n) = Ok (repeat y n).
Proof.
  intros H. induction n as [| n IH]; cbn; [reflexivity |]. now rewrite H, IH.
Qed.

(** Labels that are positions of the list are all found. *)
Lemma map_result_in_range {A : Type} (xs : list A) (labels : list Z) :
  Forall (fun l => 0 <= l < Z.of_nat (List.length xs)) labels ->
  exists ys, map_result (list_get xs) labels = Ok ys.
Proof.
  induction 1 as [| l labels Hl _ [ys IH]]; cbn.
  - now exists [].
  - destruct (nth_error xs (Z.to_nat l)) as [x |] eqn:Hx.
    + apply list_get_in_range in Hx. rewrite Z2Nat.id in Hx by lia.
      rewrite Hx, IH. cbn. now exists (x :: ys).
    + apply nth_error_None in Hx. lia.
Qed.

(** The table printer never lets an exception out: the only one its body
    can raise is the [IndexError] it handles. *)
Lemma pprint_rows_returns (scores : list score) (docs : list string) (doc_indices : list Z) :
  forall i, snd (pprint_rows scores docs i doc_indices) = Ok tt.
Proof.
  induction doc_indices as [| doc_ix rest IH]; intros i; cbn [pprint_rows].
  - reflexivity.
  - destruct (nth_error scores i) as [s |]; cbn [bind]; [| reflexivity].
    destruct (list_get docs doc_ix) as [doc | e] eqn:Hg; cbn [bind].
    + unfold emit, mbind. specialize (IH (S i)).
      destruct (pprint_rows scores docs (S i) rest) as [o r]. exact IH.
    + apply list_get_raises_index_error in Hg. subst e. reflexivity.
Qed.

Lemma pprint_search_results_returns (scores : list score) (doc_indices : list Z)
  (docs : list string) :
  snd (pprint_search_results scores doc_indices docs) = Ok tt.
Proof.
  unfold pprint_search_results, emit, mbind.
  pose proof (pprint_rows_returns scores docs doc_indices 0) as H.
  destruct (pprint_rows scores docs 0 doc_indices) as [o r]. cbn in H. now subst r.
Qed.

(** [retrieve] once the embedding and the search have returned. *)
Lemma retrieve_after_search (w : World) (k : Z) (index : IndexFlatIP) (docs : list string)
  (query : string) (emb : vec) (scores : list score) (doc_indices : list Z) :
  embed w query = Ok emb ->
  index_search index emb k = Ok (scores, doc_indices) ->
  retrieve w k index docs query
  = ([Print "=== Query ==="; Print query; Print ""]
       ++ fst (pprint_search_results scores doc_indices docs),
     search_results_of docs doc_indices).
Proof.
  intros He Hs. unfold retrieve. rewrite He.
  cbn [emit lift mbind app]. rewrite Hs. cbn [fst snd].
  pose proof (pprint_search_results_returns scores doc_indices docs) as Hp.
  destruct (pprint_search_results scores doc_indices docs) as [o r].
  cbn in Hp. subst r. cbn. now rewrite app_nil_r.
Qed.

(** C3: on an index with as many rows as documents, at least one, a
    query that asks for more results than there are rows does not get at
    most that many: FAISS pads the labels with [-1], [docs[-1]] is the last
    document, and the retrieved list has [k] entries, the ranked documents
    followed by the last document once for every missing result. *)
Theorem over_request_repeats_last_document (w : World) (k : Z) (index : IndexFlatIP)
  (docs : list string) (last_doc query : string) (emb : vec) :
  List.length (xb index) = List.length (docs ++ [last_doc]) ->
  Z.of_nat (List.length (docs ++ [last_doc])) < k ->
  embed w query = Ok emb ->
  dim emb = d index ->
  exists ranked,
    snd (retrieve w k index (docs ++ [last_doc]) query)
    = Ok (ranked ++ repeat last_doc (Z.to_nat k - List.length (docs ++ [last_doc]))) /\
    List.length ranked = List.length (docs ++ [last_doc]) /\
    Z.of_nat (List.length (docs ++ [last_doc]))
    < Z.of_nat (List.length
                  (ranked ++ repeat last_doc (Z.to_nat k - List.length (docs ++ [last_doc])))).
Proof.
  intros Hrows Hk Hemb Hdim.
  set (all := docs ++ [last_doc]) in *.
  set (ranking := rank_from emb 0 (xb index) []).
  assert (Hlen : List.length ranking = List.length all).
  { unfold ranking. rewrite rank_from_length. cbn. exact Hrows. }
  assert (Hfirst : firstn (Z.to_nat k) ranking = ranking).
  { apply firstn_all2. lia. }
  assert (Hsearch : index_search index emb k
                    = Ok (map (fun r => Score (fst r)) ranking
                            ++ repeat Lowest (Z.to_nat k - List.length all),
                          map snd ranking
                            ++ repeat (-1) (Z.to_nat k - List.length all))).
  { unfold index_search. rewrite (proj2 (Z.eqb_eq _ _) Hdim).
    replace (0 <? k) with true by (symmetry; apply Z.ltb_lt; lia).
    fold ranking. rewrite Hfirst, Hlen. reflexivity. }
  assert (Hlabels : Forall (fun l => 0 <= l < Z.of_nat (List.length all)) (map snd ranking)).
  { apply Forall_map. rewrite <- Hrows.
    apply (@rank_from_labels emb (xb index) 0 0 []); [lia | constructor]. }
  destruct (map_result_in_range all Hlabels) as [ranked Hranked].
  exists ranked.
  assert (Hall : map_result (list_get all)
                   (map snd ranking ++ repeat (-1) (Z.to_nat k - List.length all))
                 = Ok (ranked ++ repeat last_doc (Z.to_nat k - List.length all))).
  { apply map_result_app; [exact Hranked |].
    apply map_result_repeat. unfold all. now apply list_get_minus_one. }
  assert (Hranked_len : List.length ranked = List.length all).
  { rewrite (map_result_length _ _ Hranked), length_map. exact Hlen. }
  split; [| split; [exact Hranked_len |]].
  - rewrite (retrieve_after_search w k index all query Hemb Hsearch). cbn [snd].
    unfold search_results_of. now rewrite Hall.
  - rewrite length_app, repeat_length, Hranked_len. lia.
Qed.

Lemma over_request_repeats_last_document_witness :
  exists ranked,
    snd (retrieve Toy.world 5 {| d := 3; xb := [[1%Q; 0%Q; 0%Q]; [0%Q; 1%Q; 0%Q]] |}
           (["Apples are red."] ++ ["Bananas are yellow."]) "Apples are red.")
    = Ok (ranked ++ repeat "Bananas are yellow." 3) /\
    List.length ranked = 2%nat.
Proof.
  destruct (@over_request_repeats_last_document Toy.world 5
              {| d := 3; xb := [[1%Q; 0%Q; 0%Q]; [0%Q; 1%Q; 0%Q]] |}
              ["Apples are red."] "Bananas are yellow." "Apples are red."
              [1%Q; 0%Q; 0%Q])
    as (ranked & Hres & Hlen & _).
  - reflexivity.
  - cbn. lia.
  - reflexivity.
  - reflexivity.
  - exists ranked. split; [exact Hres | exact Hlen].
Defined.

(** The search on an index without rows: [k] placeholders. *)
Lemma index_search_empty (index : IndexFlatIP) (emb : vec) (k : Z) :
  xb index = [] -> dim emb = d index -> 0 < k ->
  index_search index emb k
  = Ok (Lowest :: repeat Lowest (Z.to_nat k - 1), -1 :: repeat (-1) (Z.to_nat k - 1)).
Proof.
  intros Hxb Hdim Hk. unfold index_search.
  rewrite (proj2 (Z.eqb_eq _ _) Hdim), (proj2 (Z.ltb_lt _ _) Hk), Hxb.
  cbn [rank_from]. rewrite firstn_nil. cbn [map List.length app].
  rewrite Nat.sub_0_r.
  destruct (Z.to_nat k) as [| n] eqn:Hn; [lia |].
  replace (S n - 1)%nat with n by lia. reflexivity.
Qed.

(** With no context the template leaves nothing between the line
    "Context information:" and the line "Query: ...". *)
Lemma prompt_template_empty_context (query : string) :
  prompt_template "" query
  = ("You are an expert Q&A system. Answer the user's query using the provided context information."
     ++ TextSplitter.nl ++ "Context information:" ++ TextSplitter.nl
     ++ TextSplitter.nl ++ "Query: " ++ query)%string.
Proof. reflexivity. Qed.

(** C4: a query turn against an index without rows and the empty document
    list.  When the query has been embedded and searched ([k] positive, the
    embedding of the index's dimension), the [IndexError] of [docs[-1]] is
    handled in both places: the table shows the one line "No results
    found.", the retrieved list is empty, and the prompt that is printed
    (between double quotes) and sent is the instruction line, the line
    "Context information:", an empty line where the context would stand,
    and the line "Query: " with the query.  The only exceptions the
    retrieval lets out are those of the embedding call and of the search
    itself. *)
Theorem empty_index_query_turn (w : World) (k : Z) (index : IndexFlatIP) (query : string) :
  xb index = [] ->
  (forall emb,
     embed w query = Ok emb -> dim emb = d index -> 0 < k ->
     retrieve w k index [] query
     = ([Print "=== Query ==="; Print query; Print "";
         Print "=== Search Results ==="; Print "No results found."; Print ""],
        Ok []) /\
     exists rest outcome,
       query_turn w k index [] query
       = ([Print "=== Query ==="; Print query; Print "";
           Print "=== Search Results ==="; Print "No results found."; Print "";
           Print "=== Prompt ===";
           Print (dquote
                  ++ "You are an expert Q&A system. Answer the user's query using the provided context information."
                  ++ TextSplitter.nl ++ "Context information:" ++ TextSplitter.nl
                  ++ TextSplitter.nl ++ "Query: " ++ query ++ dquote)%string] ++ rest,
          outcome) /\
       (forall results prompt,
          outcome = Ok (results, prompt) ->
          results = [] /\
          prompt
          = ("You are an expert Q&A system. Answer the user's query using the provided context information."
             ++ TextSplitter.nl ++ "Context information:" ++ TextSplitter.nl
             ++ TextSplitter.nl ++ "Query: " ++ query)%string /\
          exists reply, llamafile_completion w prompt = Ok reply)) /\
  (forall o e,
     retrieve w k index [] query = (o, Raise e) ->
     embed w query = Raise e \/
     exists emb, embed w query = Ok emb /\ index_search index emb k = Raise e).
Proof.
  intros Hxb. split.
  - intros emb Hemb Hdim Hk.
    pose proof (index_search_empty index emb Hxb Hdim Hk) as Hs.
    assert (Hr : retrieve w k index [] query
                 = ([Print "=== Query ==="; Print query; Print "";
                     Print "=== Search Results ==="; Print "No results found."; Print ""],
                    Ok [])).
    { rewrite (retrieve_after_search w k index [] query Hemb Hs).
      unfold search_results_of, pprint_search_results.
      cbn [pprint_rows nth_error bind map_result].
      rewrite list_get_empty. reflexivity. }
    split; [exact Hr |].
    unfold query_turn. rewrite Hr. unfold answer.
    cbn [String.concat mbind emit lift ret app fst snd].
    rewrite <- (prompt_template_empty_context query).
    destruct (llamafile_tokenize w (prompt_template "" query)) as [tokens | e].
    + destruct (llamafile_completion w (prompt_template "" query)) as [reply | e] eqn:Hc.
      * eexists. eexists. split; [cbn; reflexivity |].
        intros results prompt H. inversion H. subst.
        split; [reflexivity |]. split; [reflexivity |].
        exists reply. exact Hc.
      * eexists. eexists. split; [cbn; reflexivity |]. discriminate.
    + eexists. eexists. split; [cbn; reflexivity |]. discriminate.
  - intros o e H. unfold retrieve in H.
    destruct (embed w query) as [emb | e1] eqn:Hemb.
    + right. exists emb. split; [reflexivity |].
      cbn [emit lift mbind app] in H.
      destruct (index_search index emb k) as [[scores doc_indices] | e2] eqn:Hs.
      * exfalso. cbn [fst snd] in H.
        pose proof (pprint_search_results_returns scores doc_indices []) as Hp.
        destruct (pprint_search_results scores doc_indices []) as [o1 r1].
        cbn in Hp. subst r1.
        unfold search_results_of in H.
        destruct (map_result (list_get []) doc_indices) as [ys | e3] eqn:Hm.
        -- cbn in H. discriminate.
        -- assert (e3 = IndexError).
           { clear H. revert e3 Hm. induction doc_indices as [| l ls IH]; intros e3 Hm.
             - discriminate.
             - cbn in Hm. rewrite list_get_empty in Hm. cbn in Hm. congruence. }
           subst e3. cbn in H. discriminate.
      * cbn in H. congruence.
    + left. cbn in H. congruence.
Qed.

Lemma empty_index_query_turn_witness :
  exists rest,
    query_turn Toy.world 3 {| d := 3; xb := [] |} [] "What color are apples?"
    = ([Print "=== Query ==="; Print "What color are apples?"; Print "";
        Print "=== Search Results ==="; Print "No results found."; Print "";
        Print "=== Prompt ===";
        Print (dquote
               ++ "You are an expert Q&A system. Answer the user's query using the provided context information."
               ++ TextSplitter.nl ++ "Context information:" ++ TextSplitter.nl
               ++ TextSplitter.nl ++ "Query: What color are apples?" ++ dquote)%string]
       ++ rest,
       Ok ([],
           ("You are an expert Q&A system. Answer the user's query using the provided context information."
            ++ TextSplitter.nl ++ "Context information:" ++ TextSplitter.nl
            ++ TextSplitter.nl ++ "Query: What color are apples?")%string)).
Proof.
  destruct (@empty_index_query_turn Toy.world 3 {| d := 3; xb := [] |}
              "What color are apples?" eq_refl) as [Hturn _].
  destruct (Hturn [0%Q; 0%Q; 1%Q]) as [_ [rest [outcome [Heq Hout]]]].
  - reflexivity.
  - reflexivity.
  - lia.
  - exists rest. rewrite Heq. f_equal.
    assert (Ho : snd (query_turn Toy.world 3 {| d := 3; xb := [] |} []
                        "What color are apples?") = outcome)
      by (rewrite Heq; reflexivity).
    vm_compute in Ho. subst outcome. vm_compute. reflexivity.
Defined.

(* ===================================================================== *)
(** ** Ingestion: failing URLs, and the order inside a directory *)
(* ===================================================================== *)

Lemma yields_app (evs1 evs2 : list event) :
  yields (evs1 ++ evs2) = yields evs1 ++ yields evs2.
Proof.
  induction evs1 as [| [origin chunk | o] evs1 IH]; cbn;
    [reflexivity | now rewrite IH | exact IH].
Qed.

Lemma urls_events_app (w : World) (urls1 urls2 : list string) :
  urls_events w (urls1 ++ urls2) = urls_events w urls1 ++ urls_events w urls2.
Proof. unfold urls_events. apply flat_map_app. Qed.

Lemma raise_for_status_error_status (response : Response) :
  400 <= status_code response < 600 ->
  raise_for_status response = Raise (HTTPError (status_code response)).
Proof.
  intros H. unfold raise_for_status.
  replace ((400 <=? status_code response) && (status_code response <? 600)) with true;
    [reflexivity |].
  symmetry. apply andb_true_iff. split; [apply Z.leb_le | apply Z.ltb_lt]; lia.
Qed.

(** Every other status passes [raise_for_status]. *)
Lemma raise_for_status_other_status (response : Response) :
  status_code response < 400 \/ 600 <= status_code response ->
  raise_for_status response = Ok tt.
Proof.
  intros H. unfold raise_for_status.
  replace ((400 <=? status_code response) && (status_code response <? 600)) with false;
    [reflexivity |].
  symmetry. apply andb_false_iff.
  destruct H as [H | H]; [left; apply Z.leb_gt | right; apply Z.ltb_ge]; lia.
Qed.

Lemma url_fails_fetch_chunks (w : World) (url : string) (e : exn) :
  url_fails w url e -> fetch_chunks w url = Raise e.
Proof.
  unfold url_fails, fetch_chunks. intros [H | [(response & Hr & Hs & ->) | H]].
  - now rewrite H.
  - rewrite Hr. cbn [bind]. now rewrite (raise_for_status_error_status _ Hs).
  - exact H.
Qed.

(** C9, as the claim states it, fails for a status that is neither 2xx
    nor an error status: the URL answers 300, [raise_for_status] lets the
    response pass, and its text is chunked and yielded; nothing is logged
    and nothing is skipped. *)
Lemma status_300_is_ingested :
  requests_get choices_world "http://example.org/choices"
    = Ok {| status_code := 300; text := "Elderberries are black." |} /\
  load_data_for_indexing choices_world
    = ([Yield "http://example.org/choices" "Elderberries are black."], None).
Proof. vm_compute. split; reflexivity. Qed.

(** C9, amended: a configured URL whose fetch fails with a network error
    or with an error status (4xx or 5xx), or whose processing raises any
    error, is logged and skipped, and nothing else is lost: the generator
    goes on with the URLs behind it and with the local directories, it
    yields exactly the chunks it would yield without that URL, and the
    failure is not the exception that ends it. *)
Theorem failing_url_is_skipped (w : World) (before after : list string)
  (url : string) (e : exn) :
  INDEX_URLS w = before ++ url :: after ->
  url_fails w url e ->
  fst (load_data_for_indexing w)
  = urls_events w before
      ++ [Emit (Traceback e);
          Emit (Log ERROR ("skipping " ++ url ++ ": " ++ exn_str e)%string)]
      ++ urls_events w after
      ++ fst (dirs_gen w (INDEX_LOCAL_DATA_DIRS w)) /\
  yielded_chunks (fst (load_data_for_indexing w))
  = yielded_chunks (urls_events w (before ++ after))
      ++ yielded_chunks (fst (dirs_gen w (INDEX_LOCAL_DATA_DIRS w))) /\
  snd (load_data_for_indexing w) = snd (dirs_gen w (INDEX_LOCAL_DATA_DIRS w)).
Proof.
  intros Hurls Hfail. apply url_fails_fetch_chunks in Hfail.
  assert (Hev : fst (load_data_for_indexing w)
                = urls_events w before
                    ++ [Emit (Traceback e);
                        Emit (Log ERROR ("skipping " ++ url ++ ": " ++ exn_str e)%string)]
                    ++ urls_events w after
                    ++ fst (dirs_gen w (INDEX_LOCAL_DATA_DIRS w))).
  { unfold load_data_for_indexing, gen_seq. cbn [fst].
    rewrite Hurls, urls_events_app.
    change (urls_events w (url :: after))
      with (url_events w url ++ urls_events w after).
    unfold url_events at 1. rewrite Hfail.
    rewrite <- !app_assoc. reflexivity. }
  split; [exact Hev |]. split.
  - rewrite Hev, urls_events_app. rewrite !yielded_chunks_app.
    cbn [yielded_chunks yields map app]. rewrite <- app_assoc. reflexivity.
  - reflexivity.
Qed.

Lemma failing_url_is_skipped_witness :
  yielded_chunks (fst (load_data_for_indexing web_world))
  = ["Dates are brown."; "Apples are red."; "Bananas are yellow.";
     "Cherries are dark red."] /\
  snd (load_data_for_indexing web_world) = None.
Proof.
  destruct (@failing_url_is_skipped web_world []
              ["http://example.org/fruit"; "http://example.org/down"]
              "http://example.org/gone" (HTTPError 404))
    as (_ & Hchunks & Hend).
  - reflexivity.
  - right. left. exists {| status_code := 404; text := "Not Found" |}.
    cbn. repeat split; lia.
  - split; [rewrite Hchunks | rewrite Hend]; vm_compute; reflexivity.
Defined.

Lemma file_gen_origin (w : World) (read : string -> result string) (path : string) :
  Forall (fun oc => fst oc = path) (yields (fst (file_gen w read path))).
Proof.
  unfold file_gen.
  destruct (text <- read path ;; chunk_text w text) as [chunks | e]; cbn [fst].
  - induction chunks as [| c chunks IH]; cbn; constructor; [reflexivity | exact IH].
  - constructor.
Qed.

Lemma files_gen_complete (w : World) (read : string -> result string) (paths : list string) :
  snd (files_gen w read paths) = None ->
  fst (files_gen w read paths) = flat_map (file_events w read) paths.
Proof.
  induction paths as [| path rest IH]; cbn [files_gen flat_map]; [reflexivity |].
  unfold gen_seq, file_events at 1.
  destruct (file_gen w read path) as [ev1 [e |]]; cbn [fst snd]; [discriminate |].
  intros H. now rewrite (IH H).
Qed.

Lemma yields_file_events (w : World) (read : string -> result string) (path : string) :
  yields (file_events w read path) = file_chunks w read path.
Proof.
  unfold file_events, file_chunks, file_gen.
  destruct (text <- read path ;; chunk_text w text) as [chunks | e]; cbn [fst];
    [| reflexivity].
  induction chunks as [| c chunks IH]; cbn; [reflexivity | now rewrite IH].
Qed.

Lemma yields_files (w : World) (read : string -> result string) (paths : list string) :
  yields (flat_map (file_events w read) paths) = flat_map (file_chunks w read) paths.
Proof.
  induction paths as [| path rest IH]; cbn [flat_map]; [reflexivity |].
  now rewrite yields_app, yields_file_events, IH.
Qed.

(** What a generator has produced is a front part of what it produces
    when nothing raises, and all of it when nothing raised. *)
Lemma gen_seq_rest (g1 g2 : gen) (full1 full2 : list event) :
  (exists rest, full1 = fst g1 ++ rest /\ (snd g1 = None -> rest = [])) ->
  (exists rest, full2 = fst g2 ++ rest /\ (snd g2 = None -> rest = [])) ->
  exists rest,
    full1 ++ full2 = fst (gen_seq g1 g2) ++ rest /\
    (snd (gen_seq g1 g2) = None -> rest = []).
Proof.
  intros (r1 & -> & H1) (r2 & -> & H2). unfold gen_seq.
  destruct g1 as [ev1 [e |]]; cbn [fst snd] in *.
  - exists (r1 ++ fst g2 ++ r2). split; [now rewrite <- app_assoc | discriminate].
  - rewrite (H1 eq_refl), app_nil_r. exists r2.
    split; [now rewrite <- app_assoc | exact H2].
Qed.

Lemma files_gen_rest (w : World) (read : string -> result string) (paths : list string) :
  exists rest,
    flat_map (file_events w read) paths = fst (files_gen w read paths) ++ rest /\
    (snd (files_gen w read paths) = None -> rest = []).
Proof.
  induction paths as [| path paths IH]; cbn [files_gen flat_map].
  - exists []. split; reflexivity.
  - apply gen_seq_rest; [| exact IH].
    exists []. unfold file_events. rewrite app_nil_r. split; reflexivity.
Qed.

Lemma dirs_gen_rest (w : World) (directories : list string) :
  exists rest,
    flat_map (dir_events w) directories = fst (dirs_gen w directories) ++ rest /\
    (snd (dirs_gen w directories) = None -> rest = []).
Proof.
  induction directories as [| directory directories IH]; cbn [dirs_gen flat_map].
  - exists []. split; reflexivity.
  - apply gen_seq_rest; [| exact IH].
    unfold dir_events, dir_gen. apply gen_seq_rest; apply files_gen_rest.
Qed.

(** C10: the chunks [load_data_for_indexing] yields, each beside the
    source it comes from, are a front part of this list, and all of it when
    the generator ends without exception: the chunks of the URLs, then for
    every directory of [INDEX_LOCAL_DATA_DIRS] in configured order the
    chunks of all its [*.txt] files in listing order followed by the chunks
    of all its [*.pdf] files in listing order.  So within a directory no
    chunk of a PDF file comes before a chunk of a text file. *)
Theorem txt_chunks_before_pdf_chunks (w : World) :
  exists rest,
    yields (urls_events w (INDEX_URLS w))
    ++ flat_map
         (fun directory =>
            flat_map (file_chunks w (read_text w)) (rglob w directory "*.txt")
            ++ flat_map (file_chunks w (load_pdf w)) (rglob w directory "*.pdf"))
         (INDEX_LOCAL_DATA_DIRS w)
    = yields (fst (load_data_for_indexing w)) ++ rest /\
    (snd (load_data_for_indexing w) = None -> rest = []).
Proof.
  assert (Hev : exists rest,
            urls_events w (INDEX_URLS w)
            ++ flat_map (dir_events w) (INDEX_LOCAL_DATA_DIRS w)
            = fst (load_data_for_indexing w) ++ rest /\
            (snd (load_data_for_indexing w) = None -> rest = [])).
  { unfold load_data_for_indexing. apply gen_seq_rest; [| apply dirs_gen_rest].
    exists []. cbn [fst snd]. rewrite app_nil_r. split; reflexivity. }
  destruct Hev as (rest & Heq & Hnone).
  exists (yields rest). split.
  - rewrite <- yields_app, <- Heq, yields_app. f_equal. clear Heq Hnone.
    induction (INDEX_LOCAL_DATA_DIRS w) as [| directory directories IH];
      cbn [flat_map]; [reflexivity |].
    rewrite yields_app, <- IH. f_equal.
    unfold dir_events. now rewrite yields_app, !yields_files.
  - intros H. now rewrite (Hnone H).
Qed.

Lemma txt_chunks_before_pdf_chunks_witness :
  yields (fst (load_data_for_indexing Toy.world))
  = [("local_data/doc1.txt", "Apples are red.");
     ("local_data/doc2.txt", "Bananas are yellow.");
     ("local_data/paper.pdf", "Cherries are dark red.")].
Proof.
  destruct (txt_chunks_before_pdf_chunks Toy.world) as (rest & Heq & Hnone).
  rewrite (Hnone eq_refl), app_nil_r in Heq.
  rewrite <- Heq. vm_compute. reflexivity.
Defined.

(* ===================================================================== *)
(** ** The chunker *)
(* ===================================================================== *)

Lemma append_empty_r (s : string) : (s ++ "")%string = s.
Proof. induction s as [| c s IH]; cbn; [reflexivity | now rewrite IH]. Qed.

Lemma append_assoc (s1 s2 s3 : string) :
  ((s1 ++ s2) ++ s3)%string = (s1 ++ (s2 ++ s3))%string.
Proof. induction s1 as [| c s1 IH]; cbn; [reflexivity | now rewrite IH]. Qed.

Lemma len_append (s1 s2 : string) : len (s1 ++ s2) = len s1 + len s2.
Proof.
  unfold len. induction s1 as [| c s1 IH]; cbn [String.append String.length].
  - reflexivity.
  - rewrite !Nat2Z.inj_succ, IH. lia.
Qed.

Lemma len_nonneg (s : string) : 0 <= len s.
Proof. unfold len. lia. Qed.

Lemma str_nonempty_true (s : string) : str_nonempty s = true <-> s <> "".
Proof. destruct s; cbn; split; congruence. Qed.

Lemma lstrip_len (s : string) : len (lstrip s) <= len s.
Proof.
  unfold len. induction s as [| c s IH]; cbn [lstrip]; [lia |].
  destruct (is_space c); cbn [String.length]; lia.
Qed.

Lemma rstrip_len (s : string) : len (rstrip s) <= len s.
Proof.
  unfold len. induction s as [| c s IH]; cbn [rstrip]; [lia |].
  destruct (rstrip s) as [| c' t].
  - destruct (is_space c); cbn [String.length] in *; lia.
  - cbn [String.length] in *. lia.
Qed.

Lemma strip_len (s : string) : len (strip s) <= len s.
Proof.
  unfold strip. pose proof (rstrip_len (lstrip s)). pose proof (lstrip_len s). lia.
Qed.

Lemma total_len_app (xs ys : list string) :
  total_len (xs ++ ys) = total_len xs + total_len ys.
Proof. induction xs as [| x xs IH]; cbn [app total_len]; [lia | rewrite IH; lia]. Qed.

Lemma total_len_nonneg (xs : list string) : 0 <= total_len xs.
Proof.
  induction xs as [| x xs IH]; cbn [total_len]; [lia |].
  pose proof (len_nonneg x). lia.
Qed.

Lemma total_len_in (xs : list string) (x : string) : In x xs -> len x <= total_len xs.
Proof.
  induction xs as [| y xs IH]; cbn [In total_len]; [tauto |].
  intros [-> | H].
  - pose proof (total_len_nonneg xs). lia.
  - specialize (IH H). pose proof (len_nonneg y). lia.
Qed.

Lemma concat_empty_cons (x : string) (xs : list string) :
  String.concat "" (x :: xs) = (x ++ String.concat "" xs)%string.
Proof.
  destruct xs as [| y ys]; cbn [String.concat String.append].
  - now rewrite append_empty_r.
  - reflexivity.
Qed.

Lemma len_concat_empty (xs : list string) : len (String.concat "" xs) = total_len xs.
Proof.
  induction xs as [| x xs IH]; [reflexivity |].
  rewrite concat_empty_cons, len_append, IH. reflexivity.
Qed.

Lemma concat_empty_filter (xs : list string) :
  String.concat "" (filter str_nonempty xs) = String.concat "" xs.
Proof.
  induction xs as [| x xs IH]; [reflexivity |].
  cbn [filter]. destruct x as [| c x]; cbn [str_nonempty].
  - rewrite concat_empty_cons. exact IH.
  - now rewrite !concat_empty_cons, IH.
Qed.

Lemma filter_nonempty_all (xs : list string) :
  Forall (fun s => s <> "") (filter str_nonempty xs).
Proof.
  apply Forall_forall. intros s Hs. apply filter_In in Hs.
  now apply str_nonempty_true.
Qed.

Module SplitterFacts.

Import TextSplitter.

(** *** Splitting loses no character *)

Lemma drop_chars_length (n : nat) (s : string) :
  (String.length (drop_chars n s) <= String.length s)%nat.
Proof.
  revert s. induction n as [| n IH]; intros [| c s]; cbn; try lia.
  specialize (IH s). lia.
Qed.

Lemma prefix_drop (a s : string) :
  String.prefix a s = true -> s = (a ++ drop_chars (String.length a) s)%string.
Proof.
  revert s. induction a as [| c a IH]; intros s H; cbn.
  - now destruct s.
  - destruct s as [| c' s]; cbn in H; [discriminate |].
    destruct (Ascii.ascii_dec c c') as [-> | Hne]; [| discriminate].
    cbn. f_equal. now apply IH.
Qed.

Lemma re_split_skip (sep : string) (k : nat) (s : string) :
  re_split sep k s = re_split sep 0 (drop_chars k s).
Proof.
  revert s. induction k as [| k IH]; intros s.
  - now destruct s.
  - destruct s as [| c s]; [reflexivity |]. cbn [re_split drop_chars]. apply IH.
Qed.

(** The pieces, each separator put back in front of the piece behind
    it, spell the text. *)
Lemma re_split_glue (sep : string) :
  sep <> "" ->
  forall n s, (String.length s <= n)%nat ->
    (fst (re_split sep 0 s)
       ++ String.concat "" (map (String.append sep) (snd (re_split sep 0 s))))%string = s.
Proof.
  intros Hsep. induction n as [| n IH]; intros s Hn.
  - destruct s; [reflexivity | cbn in Hn; lia].
  - destruct s as [| c s]; [reflexivity |]. cbn [re_split].
    destruct (String.prefix sep (String c s)) eqn:Hp.
    + rewrite re_split_skip.
      pose proof (prefix_drop _ _ Hp) as Hs.
      destruct sep as [| c0 sep0]; [congruence |].
      change (String.length (String c0 sep0)) with (S (String.length sep0)) in *.
      change (S (String.length sep0) - 1)%nat with (String.length sep0 - 0)%nat.
      rewrite Nat.sub_0_r. cbn [drop_chars] in Hs.
      assert (Hlen : (String.length (drop_chars (String.length sep0) s) <= n)%nat).
      { pose proof (drop_chars_length (String.length sep0) s). cbn in Hn. lia. }
      specialize (IH _ Hlen).
      destruct (re_split (String c0 sep0) 0 (drop_chars (String.length sep0) s))
        as [p ps].
      cbn [fst snd map] in *. rewrite concat_empty_cons.
      change (String.append "" ?x) with x.
      rewrite append_assoc, IH. symmetry. exact Hs.
    + assert (Hlen : (String.length s <= n)%nat) by (cbn in Hn; lia).
      specialize (IH _ Hlen).
      destruct (re_split sep 0 s) as [p ps]. cbn [fst snd String.append] in *.
      now rewrite IH.
Qed.

Lemma concat_chars (s : string) : String.concat "" (chars s) = s.
Proof.
  induction s as [| c s IH]; [reflexivity |].
  cbn [chars]. rewrite concat_empty_cons, IH. reflexivity.
Qed.

Lemma split_text_with_regex_concat (text sep : string) :
  String.concat "" (split_text_with_regex text sep) = text.
Proof.
  unfold split_text_with_regex. rewrite concat_empty_filter.
  destruct (str_nonempty sep) eqn:Hsep.
  - apply str_nonempty_true in Hsep.
    pose proof (@re_split_glue sep Hsep (String.length text) text (le_n _)) as H.
    destruct (re_split sep 0 text) as [p ps]. cbn [fst snd] in H.
    now rewrite concat_empty_cons.
  - apply concat_chars.
Qed.

Lemma split_text_with_regex_len (text sep s : string) :
  In s (split_text_with_regex text sep) -> len s <= len text.
Proof.
  intros H. apply total_len_in in H.
  now rewrite <- len_concat_empty, split_text_with_regex_concat in H.
Qed.

Lemma chars_len (text s : string) : In s (chars text) -> len s = 1.
Proof.
  induction text as [| c text IH]; cbn [chars In]; [tauto |].
  intros [<- | H]; [reflexivity | now apply IH].
Qed.

End SplitterFacts.

Module MergeFacts.

Import TextSplitter SplitterFacts.

Section Sizes.

Variables chunk_size chunk_overlap : Z.
Hypothesis overlap_nonneg : 0 <= chunk_overlap.
Hypothesis overlap_fits : chunk_overlap <= chunk_size.

Lemma sep_cost_empty (n : nat) (current_doc : list string) :
  sep_cost (len "") n current_doc = 0.
Proof. unfold sep_cost. now destruct (n <? List.length current_doc)%nat. Qed.

(** The inner loop of the merge, when the running total is the length of
    the pieces held: it ends, what it keeps is a tail of what it was given,
    of at most [chunk_overlap] characters, and the next piece fits behind
    it unless nothing is kept. *)
Lemma pop_front_spec (_len : Z) (current_doc : list string) :
  forall total,
    total = total_len current_doc ->
    exists total' kept dropped,
      pop_front chunk_size chunk_overlap (len "") _len total current_doc
        = Ok (total', kept) /\
      current_doc = dropped ++ kept /\
      total' = total_len kept /\
      total' <= chunk_overlap /\
      (total' + _len <= chunk_size \/ total' = 0).
Proof.
  induction current_doc as [| d0 tl IH]; intros total Htotal.
  - cbn [pop_front total_len] in *. subst total.
    rewrite sep_cost_empty.
    replace (chunk_overlap <? 0) with false by (symmetry; apply Z.ltb_ge; lia).
    rewrite andb_false_r. cbn [orb].
    exists 0, [], []. repeat split; try reflexivity; lia.
  - cbn [pop_front]. rewrite !sep_cost_empty, Z.add_0_r.
    destruct ((chunk_overlap <? total) || ((chunk_size <? total + _len) && (0 <? total)))
      eqn:Hagain.
    + replace (total - (len d0 + 0)) with (total - len d0) by lia.
      destruct (IH (total - len d0)) as (total' & kept & dropped & Hp & Hd & Ht & Ho & Hf).
      { cbn [total_len] in Htotal. lia. }
      exists total', kept, (d0 :: dropped). rewrite Hp, Hd. repeat split; assumption.
    + apply orb_false_iff in Hagain. destruct Hagain as [Ho Hf].
      apply Z.ltb_ge in Ho. apply andb_false_iff in Hf.
      exists total, (d0 :: tl), []. repeat split; try assumption; try reflexivity.
      destruct Hf as [Hf | Hf]; apply Z.ltb_ge in Hf; [now left |].
      right. pose proof (total_len_nonneg (d0 :: tl)). lia.
Qed.

Lemma join_docs_good (docs current_doc : list string) :
  total_len current_doc <= chunk_size ->
  Forall (good_chunk chunk_size) docs ->
  Forall (good_chunk chunk_size) (append_doc docs (join_docs current_doc "")).
Proof.
  intros Hfit Hdocs. unfold join_docs.
  destruct (str_nonempty (strip (String.concat "" current_doc))) eqn:Hne;
    cbn [append_doc]; [| exact Hdocs].
  apply Forall_app. split; [exact Hdocs |]. constructor; [| constructor].
  split; [| now apply str_nonempty_true].
  pose proof (strip_len (String.concat "" current_doc)) as Hs.
  rewrite len_concat_empty in Hs. lia.
Qed.

(** The merge of pieces that each fit the chunk size ends, and every
    chunk it closes is good. *)
Lemma merge_loop_spec (splits : list string) :
  forall docs current_doc total,
    total = total_len current_doc ->
    total <= chunk_size ->
    Forall (fun s => len s <= chunk_size) splits ->
    Forall (good_chunk chunk_size) docs ->
    exists out,
      merge_loop chunk_size chunk_overlap "" docs current_doc total splits = Ok out /\
      Forall (good_chunk chunk_size) out.
Proof.
  induction splits as [| s rest IH]; intros docs current_doc total Ht Hfit Hsplits Hdocs.
  - cbn [merge_loop]. eexists. split; [reflexivity |].
    apply join_docs_good; [lia | exact Hdocs].
  - inversion Hsplits as [| ? ? Hs Hrest]; subst.
    cbn [merge_loop]. rewrite !sep_cost_empty, !Z.add_0_r.
    destruct (chunk_size <? total_len current_doc + len s) eqn:Hover.
    + destruct (nonempty current_doc) eqn:Hne.
      * destruct (pop_front_spec (len s) current_doc eq_refl)
          as (total' & kept & dropped & Hp & Hd & Ht' & Ho & Hf).
        rewrite Hp. cbn [bind fst snd].
        apply IH.
        -- rewrite sep_cost_empty, total_len_app. cbn [total_len]. lia.
        -- rewrite sep_cost_empty. destruct Hf as [Hf | Hf]; lia.
        -- exact Hrest.
        -- apply join_docs_good; assumption.
      * cbn [bind]. destruct current_doc; [| discriminate]. cbn [total_len app] in *.
        apply IH; [rewrite sep_cost_empty; cbn [total_len]; lia
                  | rewrite sep_cost_empty; lia | exact Hrest | exact Hdocs].
    + cbn [bind]. apply Z.ltb_ge in Hover.
      apply IH; [rewrite sep_cost_empty, total_len_app; cbn [total_len]; lia
                | rewrite sep_cost_empty; lia | exact Hrest | exact Hdocs].
Qed.

(** Pieces that fit one chunk together come out as one chunk. *)
Lemma merge_loop_fits (splits : list string) :
  forall docs current_doc total,
    total = total_len current_doc ->
    total + total_len splits <= chunk_size ->
    merge_loop chunk_size chunk_overlap "" docs current_doc total splits
    = Ok (append_doc docs (join_docs (current_doc ++ splits) "")).
Proof.
  induction splits as [| s rest IH]; intros docs current_doc total Ht Hfit.
  - cbn [merge_loop]. now rewrite app_nil_r.
  - cbn [merge_loop]. rewrite !sep_cost_empty, !Z.add_0_r.
    cbn [total_len] in Hfit. pose proof (total_len_nonneg rest).
    replace (chunk_size <? total + len s) with false by (symmetry; apply Z.ltb_ge; lia).
    cbn [bind]. rewrite sep_cost_empty, IH.
    + now rewrite <- app_assoc.
    + rewrite total_len_app. cbn [total_len]. lia.
    + lia.
Qed.

Lemma flush_spec (good_splits : list string) :
  Forall (fun s => len s <= chunk_size) good_splits ->
  exists out, flush chunk_size chunk_overlap good_splits = Ok out /\ Forall (good_chunk chunk_size) out.
Proof.
  intros H. unfold flush, merge_splits.
  destruct (nonempty good_splits).
  - apply merge_loop_spec; [reflexivity | lia | exact H | constructor].
  - exists []. split; [reflexivity | constructor].
Qed.

Lemma flush_fits (splits : list string) :
  total_len splits <= chunk_size ->
  flush chunk_size chunk_overlap splits = Ok (append_doc [] (join_docs splits "")).
Proof.
  intros H. unfold flush, merge_splits.
  destruct splits as [| s rest]; [reflexivity |].
  cbn [nonempty]. now rewrite merge_loop_fits.
Qed.

Section Loop.

Variable deeper : option (string -> result (list string)).

Lemma split_loop_spec (splits : list string) :
  forall good_splits,
    Forall (fun s => len s <= chunk_size) good_splits ->
    Forall (fun s => len s < chunk_size \/ deeper_ok chunk_size deeper s) splits ->
    exists out,
      split_loop chunk_size chunk_overlap deeper good_splits splits = Ok out /\
      Forall (good_chunk chunk_size) out.
Proof.
  induction splits as [| s rest IH]; intros good_splits Hgood Hsplits.
  - cbn [split_loop]. now apply flush_spec.
  - inversion Hsplits as [| ? ? Hs Hrest]; subst. cbn [split_loop].
    destruct (len s <? chunk_size) eqn:Hlt.
    + apply IH; [| exact Hrest].
      apply Forall_app. split; [exact Hgood |].
      constructor; [| constructor]. apply Z.ltb_lt in Hlt. lia.
    + apply Z.ltb_ge in Hlt. destruct Hs as [Hs | Hs]; [lia |].
      destruct (flush_spec Hgood) as (merged & Hm & Hmg). rewrite Hm. cbn [bind].
      unfold deeper_ok in Hs. destruct deeper as [f |]; [| contradiction].
      destruct Hs as (other & Hf & Hog). rewrite Hf. cbn [bind].
      destruct (IH [] (Forall_nil _) Hrest) as (final & Hl & Hfg). rewrite Hl. cbn [bind].
      eexists. split; [reflexivity |].
      apply Forall_app. split; [exact Hmg |]. apply Forall_app. now split.
Qed.

Lemma split_loop_all_good (splits : list string) :
  forall good_splits,
    Forall (fun s => len s < chunk_size) splits ->
    split_loop chunk_size chunk_overlap deeper good_splits splits
    = flush chunk_size chunk_overlap (good_splits ++ splits).
Proof.
  induction splits as [| s rest IH]; intros good_splits H.
  - cbn [split_loop]. now rewrite app_nil_r.
  - inversion H as [| ? ? Hs Hrest]; subst. cbn [split_loop].
    rewrite (proj2 (Z.ltb_lt _ _) Hs), IH by exact Hrest.
    now rewrite <- app_assoc.
Qed.

End Loop.

Hypothesis size_above_one : 1 < chunk_size.

(** With the empty separator among the separators, the recursion always
    ends, and with good chunks only. *)
Lemma split_text_from_spec (fallback : string) (separators : list string) :
  In "" separators ->
  forall text,
    exists out,
      split_text_from chunk_size chunk_overlap fallback separators text = Ok out /\
      Forall (good_chunk chunk_size) out.
Proof.
  induction separators as [| _s new_separators IH]; intros Hin text; [contradiction |].
  cbn [split_text_from].
  destruct (str_nonempty _s) eqn:Hs; cbn [negb].
  - assert (Hin' : In "" new_separators).
    { destruct Hin as [Heq | Hin]; [subst _s; discriminate | exact Hin]. }
    destruct (contains _s text); [| now apply IH].
    destruct new_separators as [| s1 rest1]; [contradiction |]. cbn [nonempty].
    apply split_loop_spec; [constructor |].
    apply Forall_forall. intros s _. right. cbn. now apply IH.
  - destruct _s; [| discriminate].
    apply split_loop_spec; [constructor |].
    apply Forall_forall. intros s Hs'. left.
    unfold split_text_with_regex in Hs'. cbn [str_nonempty] in Hs'.
    apply filter_In in Hs'. destruct Hs' as [Hs' _].
    apply chars_len in Hs'. lia.
Qed.

(** A text shorter than the chunk size comes out as its stripped self,
    or as nothing when only white space is in it. *)
Lemma split_text_from_short (fallback : string) (separators : list string) :
  In "" separators ->
  forall text,
    len text < chunk_size ->
    split_text_from chunk_size chunk_overlap fallback separators text
    = Ok (if str_nonempty (strip text) then [strip text] else []).
Proof.
  assert (Hflush : forall deeper text sep,
             len text < chunk_size ->
             split_loop chunk_size chunk_overlap deeper [] (split_text_with_regex text sep)
             = Ok (if str_nonempty (strip text) then [strip text] else [])).
  { intros deeper text sep Hshort.
    rewrite split_loop_all_good.
    - cbn [app]. rewrite flush_fits.
      + unfold join_docs. rewrite split_text_with_regex_concat.
        now destruct (str_nonempty (strip text)).
      + rewrite <- len_concat_empty, split_text_with_regex_concat. lia.
    - apply Forall_forall. intros s Hs.
      apply split_text_with_regex_len in Hs. lia. }
  induction separators as [| _s new_separators IH]; intros Hin text Hshort; [contradiction |].
  cbn [split_text_from].
  destruct (str_nonempty _s) eqn:Hs; cbn [negb].
  - assert (Hin' : In "" new_separators).
    { destruct Hin as [Heq | Hin]; [subst _s; discriminate | exact Hin]. }
    destruct (contains _s text); [now apply Hflush | now apply IH].
  - now apply Hflush.
Qed.

End Sizes.

End MergeFacts.

Module OverlapFacts.

Import TextSplitter SplitterFacts MergeFacts.

Lemma concat_empty_app (xs ys : list string) :
  String.concat "" (xs ++ ys) = (String.concat "" xs ++ String.concat "" ys)%string.
Proof.
  induction xs as [| x xs IH]; [reflexivity |].
  cbn [app]. now rewrite !concat_empty_cons, IH, append_assoc.
Qed.

Lemma append_doc_app (docs : list string) (doc : option string) :
  append_doc docs doc = docs ++ append_doc [] doc.
Proof. destruct doc; cbn; [reflexivity | now rewrite app_nil_r]. Qed.

Lemma window_chunks_cons (w : window) (ws : list window) :
  window_chunks (w :: ws)
  = append_doc [] (join_docs (window_pieces w) "") ++ window_chunks ws.
Proof. reflexivity. Qed.

Section Windows.

Variables chunk_size chunk_overlap : Z.
Hypothesis overlap_nonneg : 0 <= chunk_overlap.

Variable P : string -> Prop.
Variable Q : list string -> Prop.

Hypothesis keep_Q :
  forall current_doc d total' kept dropped,
    Forall P current_doc -> P d -> current_doc <> [] ->
    total_len current_doc <= chunk_size ->
    chunk_size < total_len current_doc + len d ->
    pop_front chunk_size chunk_overlap (len "") (len d) (total_len current_doc) current_doc
    = Ok (total', kept) ->
    current_doc = dropped ++ kept ->
    Q kept.

(** The merge of pieces that each fit the chunk size cuts them into
    windows: the window in the making takes some more pieces, every later
    window starts with pieces kept from the one before it, and the pieces
    added to the windows are the pieces given, in order. *)
Lemma merge_loop_windows (splits : list string) :
  forall docs kept0 new0 total,
    total = total_len (kept0 ++ new0) ->
    total <= chunk_size ->
    Forall P (kept0 ++ new0) ->
    Forall (fun s => len s <= chunk_size /\ P s) splits ->
    exists extra rest,
      merge_loop chunk_size chunk_overlap "" docs (kept0 ++ new0) total splits
      = Ok (docs ++ window_chunks ((kept0, new0 ++ extra) :: rest)) /\
      extra ++ flat_map snd rest = splits /\
      linked Q (kept0 ++ new0 ++ extra) rest /\
      Forall (fun w => Forall P (window_pieces w)) ((kept0, new0 ++ extra) :: rest) /\
      Forall (fun w => snd w <> []) rest /\
      (splits <> [] -> kept0 ++ new0 ++ extra <> []).
Proof.
  induction splits as [| s rest IH]; intros docs kept0 new0 total Ht Hfit HP Hsplits.
  - cbn [merge_loop]. exists [], []. rewrite !app_nil_r.
    split; [rewrite window_chunks_cons; cbn [window_chunks flat_map];
            rewrite app_nil_r; f_equal; apply append_doc_app |].
    split; [reflexivity |]. split; [exact I |].
    split; [constructor; [exact HP | constructor] |].
    split; [constructor | intros H; now elim H].
  - inversion Hsplits as [| ? ? [Hs HPs] Hrest]; subst.
    assert (Hstay :
              (exists extra ws,
                merge_loop chunk_size chunk_overlap "" docs ((kept0 ++ new0) ++ [s])
                  (total_len (kept0 ++ new0) + len s
                   + sep_cost (len "") 1 ((kept0 ++ new0) ++ [s])) rest
                = Ok (docs ++ window_chunks ((kept0, new0 ++ extra) :: ws)) /\
                extra ++ flat_map snd ws = s :: rest /\
                linked Q (kept0 ++ new0 ++ extra) ws /\
                Forall (fun w => Forall P (window_pieces w)) ((kept0, new0 ++ extra) :: ws) /\
                Forall (fun w => snd w <> []) ws /\
                (s :: rest <> [] -> kept0 ++ new0 ++ extra <> []))
              \/ chunk_size < total_len (kept0 ++ new0) + len s).
    { destruct (Z_lt_le_dec chunk_size (total_len (kept0 ++ new0) + len s)) as [Hlt | Hle];
        [now right | left].
      rewrite <- (app_assoc kept0 new0 [s]).
      destruct (IH docs kept0 (new0 ++ [s])
                  (total_len (kept0 ++ new0) + len s
                   + sep_cost (len "") 1 (kept0 ++ new0 ++ [s])))
        as (extra & ws & Hm & Hnew & Hl & HPw & Hsnd & _).
      - rewrite sep_cost_empty, !total_len_app. cbn [total_len]. lia.
      - rewrite sep_cost_empty. lia.
      - rewrite app_assoc. apply Forall_app. split; [exact HP |].
        constructor; [exact HPs | constructor].
      - exact Hrest.
      - exists (s :: extra), ws.
        replace (new0 ++ s :: extra) with ((new0 ++ [s]) ++ extra)
          by now rewrite <- app_assoc.
        split; [exact Hm |]. split; [cbn [app]; now rewrite Hnew |].
        split; [exact Hl |]. split; [exact HPw |]. split; [exact Hsnd |].
        intros _ H. rewrite <- app_assoc in H. cbn [app] in H.
        rewrite app_assoc in H. now destruct (kept0 ++ new0). }
    cbn [merge_loop]. rewrite !sep_cost_empty, !Z.add_0_r.
    destruct (chunk_size <? total_len (kept0 ++ new0) + len s) eqn:Hover.
    + destruct (nonempty (kept0 ++ new0)) eqn:Hne.
      * apply Z.ltb_lt in Hover.
        destruct (@pop_front_spec chunk_size chunk_overlap overlap_nonneg (len s)
                    (kept0 ++ new0) _ eq_refl)
          as (total' & kept & dropped & Hp & Hd & Ht' & Ho & Hf).
        rewrite Hp. cbn [bind fst snd].
        assert (HQ : Q kept).
        { apply (@keep_Q (kept0 ++ new0) s total' kept dropped); try assumption.
          intros H. rewrite H in Hne. discriminate. }
        assert (HPk : Forall P kept).
        { rewrite Hd in HP. apply Forall_app in HP. tauto. }
        destruct (IH (append_doc docs (join_docs (kept0 ++ new0) "")) kept [s]
                    (total' + len s + sep_cost (len "") 1 (kept ++ [s])))
          as (extra & ws & Hm & Hnew & Hl & HPw & Hsnd & _).
        -- rewrite sep_cost_empty, total_len_app. cbn [total_len]. lia.
        -- rewrite sep_cost_empty. destruct Hf; lia.
        -- apply Forall_app. split; [exact HPk |]. constructor; [exact HPs | constructor].
        -- exact Hrest.
        -- exists [], ((kept, [s] ++ extra) :: ws). rewrite !app_nil_r, Hm.
           split.
           { rewrite append_doc_app, <- app_assoc. f_equal. }
           split; [cbn [flat_map snd app] in *; now rewrite Hnew |].
           split.
           { cbn [linked fst]. split; [now exists dropped |]. split; [exact HQ |].
             unfold window_pieces. cbn [fst snd]. 
             exact Hl. }
           split; [constructor; [exact HP | exact HPw] |].
           split; [constructor; [cbn [snd app]; discriminate | exact Hsnd] |].
           intros _ H. rewrite H in Hne. discriminate.
      * cbn [bind]. destruct Hstay as [Hstay | Hlt]; [exact Hstay |].
        destruct (kept0 ++ new0) eqn:Hcur; [| discriminate].
        cbn [total_len] in *. lia.
    + cbn [bind]. apply Z.ltb_ge in Hover.
      destruct Hstay as [Hstay | Hlt]; [exact Hstay | lia].
Qed.

End Windows.


Section Stretches.

Variables chunk_size chunk_overlap : Z.
Hypothesis overlap_nonneg : 0 <= chunk_overlap.
Hypothesis overlap_fits : chunk_overlap <= chunk_size.

Lemma stretch_chunks_of_windows (ws : list window) :
  stretch_chunks (map stretch_of ws) = window_chunks ws.
Proof.
  induction ws as [| w ws IH]; [reflexivity |].
  rewrite window_chunks_cons, <- IH. cbn [map stretch_chunks flat_map].
  f_equal. unfold join_docs, window_pieces, stretch_text, stretch_of. cbn [fst snd].
  rewrite concat_empty_app.
  now destruct (str_nonempty (strip (String.concat "" (fst w) ++ String.concat "" (snd w)))).
Qed.

Lemma new_text_of_windows (ws : list window) :
  new_text (map stretch_of ws) = String.concat "" (flat_map snd ws).
Proof.
  unfold new_text. induction ws as [| w ws IH]; [reflexivity |].
  cbn [map flat_map stretch_of snd].
  now rewrite concat_empty_cons, concat_empty_app, IH.
Qed.

Lemma repeats_of_linked (ws : list window) :
  forall prev,
    linked (fun kept => total_len kept <= chunk_overlap) prev ws ->
    repeats_at_most chunk_overlap (String.concat "" prev) (map stretch_of ws).
Proof.
  induction ws as [| w ws IH]; intros prev H; [exact I |].
  destruct H as [(dropped & Hd) [HQ Hl]]. cbn [map repeats_at_most].
  split; [| split].
  - exists (String.concat "" dropped). subst prev.
    unfold stretch_of. cbn [fst]. apply concat_empty_app.
  - unfold stretch_of. cbn [fst]. now rewrite len_concat_empty.
  - replace (stretch_text (stretch_of w)) with (String.concat "" (window_pieces w)).
    + now apply IH.
    + unfold stretch_text, stretch_of, window_pieces. cbn [fst snd].
      apply concat_empty_app.
Qed.

Lemma repeats_at_most_app (n : Z) (s1 : list stretch) :
  forall prev s2,
    repeats_at_most n prev s1 -> repeats_at_most n "" s2 ->
    repeats_at_most n prev (s1 ++ s2).
Proof.
  induction s1 as [| s s1 IH]; intros prev s2 H1 H2.
  - destruct s2 as [| [o f] s2]; [exact I |].
    cbn [app repeats_at_most fst] in *.
    destruct H2 as [(before & Hb) [Hlen Hrest]].
    assert (o = "") by (destruct before; [exact (eq_sym Hb) | discriminate]).
    subst o. split; [| split; assumption].
    exists prev. now rewrite append_empty_r.
  - destruct H1 as [Hb [Hlen Hrest]]. cbn [app repeats_at_most].
    split; [exact Hb |]. split; [exact Hlen |]. now apply IH.
Qed.

Lemma new_text_app (s1 s2 : list stretch) :
  new_text (s1 ++ s2) = (new_text s1 ++ new_text s2)%string.
Proof. unfold new_text. now rewrite map_app, concat_empty_app. Qed.

Lemma stretch_chunks_app (s1 s2 : list stretch) :
  stretch_chunks (s1 ++ s2) = stretch_chunks s1 ++ stretch_chunks s2.
Proof. apply flat_map_app. Qed.

(** One merge cuts the text of its pieces into stretches. *)
Lemma flush_stretches (good_splits : list string) :
  Forall (fun s => len s <= chunk_size) good_splits ->
  exists stretches,
    flush chunk_size chunk_overlap good_splits = Ok (stretch_chunks stretches) /\
    new_text stretches = String.concat "" good_splits /\
    repeats_at_most chunk_overlap "" stretches.
Proof.
  intros Hgood. unfold flush, merge_splits.
  destruct (nonempty good_splits) eqn:Hne.
  - destruct (@merge_loop_windows chunk_size chunk_overlap overlap_nonneg
                (fun _ => True) (fun kept => total_len kept <= chunk_overlap))
      with (splits := good_splits) (docs := @nil string)
           (kept0 := @nil string) (new0 := @nil string) (total := 0)
      as (extra & ws & Hm & Hnew & Hl & _).
    + intros current_doc d total' kept dropped _ _ _ _ _ Hp _.
      destruct (@pop_front_spec chunk_size chunk_overlap overlap_nonneg (len d)
                  current_doc _ eq_refl)
        as (t & k & dr & Hp' & _ & Ht & Ho & _).
      rewrite Hp' in Hp. inversion Hp; subst. exact Ho.
    + reflexivity.
    + lia.
    + constructor.
    + eapply Forall_impl; [| exact Hgood]. cbn. auto.
    + cbn [app] in *. exists (map stretch_of (([], extra) :: ws)).
      split; [now rewrite stretch_chunks_of_windows |].
      split; [rewrite new_text_of_windows; cbn [flat_map snd]; now rewrite Hnew |].
      cbn [map repeats_at_most]. split; [now exists "" |].
      split; [cbn; exact overlap_nonneg |].
      now apply repeats_of_linked in Hl.
  - destruct good_splits; [| discriminate]. exists []. repeat split.
Qed.

Section Loop.

Variable deeper : option (string -> result (list string)).

Lemma split_loop_stretches (splits : list string) :
  forall good_splits,
    Forall (fun s => len s <= chunk_size) good_splits ->
    Forall (fun s => len s < chunk_size \/ deeper_stretches chunk_overlap deeper s) splits ->
    exists stretches,
      split_loop chunk_size chunk_overlap deeper good_splits splits
      = Ok (stretch_chunks stretches) /\
      new_text stretches
      = (String.concat "" good_splits ++ String.concat "" splits)%string /\
      repeats_at_most chunk_overlap "" stretches.
Proof.
  induction splits as [| s rest IH]; intros good_splits Hgood Hsplits.
  - cbn [split_loop]. destruct (flush_stretches Hgood) as (st & Hf & Hn & Hr).
    exists st. split; [exact Hf |]. split; [| exact Hr].
    cbn. now rewrite append_empty_r.
  - inversion Hsplits as [| ? ? Hs Hrest]; subst. cbn [split_loop].
    destruct (len s <? chunk_size) eqn:Hlt.
    + destruct (IH (good_splits ++ [s])) as (st & Hf & Hn & Hr); [| exact Hrest |].
      * apply Forall_app. split; [exact Hgood |].
        constructor; [| constructor]. apply Z.ltb_lt in Hlt. lia.
      * exists st. split; [exact Hf |]. split; [| exact Hr].
        rewrite Hn, concat_empty_app, !concat_empty_cons, append_assoc.
        f_equal. cbn [String.concat]. now rewrite append_empty_r.
    + apply Z.ltb_ge in Hlt. destruct Hs as [Hs | Hs]; [lia |].
      destruct (flush_stretches Hgood) as (st1 & Hf1 & Hn1 & Hr1).
      rewrite Hf1. cbn [bind].
      unfold deeper_stretches in Hs. destruct deeper as [f |]; [| contradiction].
      destruct Hs as (st2 & Hf2 & Hn2 & Hr2). rewrite Hf2. cbn [bind].
      destruct (IH [] (Forall_nil _) Hrest) as (st3 & Hf3 & Hn3 & Hr3).
      rewrite Hf3. cbn [bind].
      exists (st1 ++ st2 ++ st3).
      split; [now rewrite !stretch_chunks_app |].
      split.
      * rewrite !new_text_app, Hn1, Hn2, Hn3, concat_empty_cons. reflexivity.
      * apply repeats_at_most_app; [exact Hr1 |].
        apply repeats_at_most_app; assumption.
Qed.

End Loop.

Hypothesis size_above_one : 1 < chunk_size.

(** With the empty separator among the separators, the splitter cuts
    every text into stretches: their new characters are the text, and each
    repeats at most [chunk_overlap] characters from the end of the one
    before it. *)
Lemma split_text_from_stretches (fallback : string) (separators : list string) :
  In "" separators ->
  forall text,
    exists stretches,
      split_text_from chunk_size chunk_overlap fallback separators text
      = Ok (stretch_chunks stretches) /\
      new_text stretches = text /\
      repeats_at_most chunk_overlap "" stretches.
Proof.
  induction separators as [| _s new_separators IH]; intros Hin text; [contradiction |].
  cbn [split_text_from].
  destruct (str_nonempty _s) eqn:Hs; cbn [negb].
  - assert (Hin' : In "" new_separators).
    { destruct Hin as [Heq | Hin]; [subst _s; discriminate | exact Hin]. }
    destruct (contains _s text); [| now apply IH].
    destruct new_separators as [| s1 rest1]; [contradiction |]. cbn [nonempty].
    destruct (@split_loop_stretches
                (Some (split_text_from chunk_size chunk_overlap fallback (s1 :: rest1)))
                (split_text_with_regex text _s) [])
      as (st & Hf & Hn & Hr).
    + constructor.
    + apply Forall_forall. intros s _. right. cbn. now apply IH.
    + exists st. split; [exact Hf |]. split; [| exact Hr].
      rewrite Hn. cbn [String.concat String.append].
      apply split_text_with_regex_concat.
  - destruct _s; [| discriminate].
    destruct (@split_loop_stretches None (split_text_with_regex text "") [])
      as (st & Hf & Hn & Hr).
    + constructor.
    + apply Forall_forall. intros s Hs'. left.
      unfold split_text_with_regex in Hs'. cbn [str_nonempty] in Hs'.
      apply filter_In in Hs'. destruct Hs' as [Hs' _].
      apply chars_len in Hs'. lia.
    + exists st. split; [exact Hf |]. split; [| exact Hr].
      rewrite Hn. cbn [String.concat String.append].
      apply split_text_with_regex_concat.
Qed.

End Stretches.

(** *** Texts without white space *)

Lemma lstrip_no_space (s : string) : no_space s = true -> lstrip s = s.
Proof.
  destruct s as [| c s]; [reflexivity |]. cbn [no_space lstrip].
  now destruct (is_space c).
Qed.

Lemma rstrip_no_space (s : string) : no_space s = true -> rstrip s = s.
Proof.
  induction s as [| c s IH]; [reflexivity |]. cbn [no_space rstrip].
  destruct (is_space c); [discriminate |]. cbn [negb andb]. intros H.
  rewrite (IH H). now destruct s.
Qed.

Lemma strip_no_space (s : string) : no_space s = true -> strip s = s.
Proof.
  intros H. unfold strip. rewrite (lstrip_no_space _ H). now apply rstrip_no_space.
Qed.

Lemma no_space_append (s1 s2 : string) :
  no_space s1 = true -> no_space s2 = true -> no_space (s1 ++ s2) = true.
Proof.
  induction s1 as [| c s1 IH]; [auto |]. cbn [no_space String.append].
  destruct (is_space c); [discriminate |]. cbn [negb andb]. exact IH.
Qed.

Lemma contains_space_false (c : ascii) (rest text : string) :
  is_space c = true -> no_space text = true -> contains (String c rest) text = false.
Proof.
  intros Hc. induction text as [| c' text IH]; [reflexivity |].
  cbn [no_space contains String.prefix]. intros H.
  apply andb_true_iff in H. destruct H as [Hc' Ht].
  destruct (ascii_dec c c') as [-> | _].
  - rewrite Hc in Hc'. discriminate.
  - cbn [orb]. now apply IH.
Qed.

Lemma chars_units (text : string) :
  no_space text = true -> Forall unit_piece (chars text).
Proof.
  induction text as [| c text IH]; [constructor |]. cbn [no_space chars]. intros H.
  apply andb_true_iff in H. destruct H as [Hc Ht].
  constructor; [| now apply IH].
  split; [reflexivity |]. cbn [no_space]. now rewrite Hc.
Qed.

Lemma filter_chars (text : string) : filter str_nonempty (chars text) = chars text.
Proof. induction text as [| c text IH]; [reflexivity |]. cbn. now rewrite IH. Qed.

Lemma concat_units (pieces : list string) :
  Forall unit_piece pieces -> no_space (String.concat "" pieces) = true.
Proof.
  induction 1 as [| p pieces [_ Hp] _ IH]; [reflexivity |].
  rewrite concat_empty_cons. now apply no_space_append.
Qed.

Lemma join_docs_units (pieces : list string) :
  Forall unit_piece pieces -> pieces <> [] ->
  join_docs pieces "" = Some (String.concat "" pieces).
Proof.
  intros Hu Hne. unfold join_docs. rewrite (strip_no_space _ (concat_units Hu)).
  destruct pieces as [| p pieces]; [now elim Hne |].
  rewrite concat_empty_cons. inversion Hu as [| ? ? [Hlen _] _]; subst.
  destruct p; [discriminate | reflexivity].
Qed.

Lemma window_chunks_units (ws : list window) :
  Forall (fun w => Forall unit_piece (window_pieces w)) ws ->
  Forall (fun w => window_pieces w <> []) ws ->
  window_chunks ws = map (fun w => String.concat "" (window_pieces w)) ws.
Proof.
  induction ws as [| w ws IH]; intros Hu Hne; [reflexivity |].
  inversion Hu; inversion Hne; subst.
  rewrite window_chunks_cons, IH by assumption.
  rewrite join_docs_units by assumption. reflexivity.
Qed.

Lemma substring_front (o f : string) :
  String.substring 0 (String.length o) (o ++ f) = o.
Proof. induction o as [| c o IH]; cbn; [now destruct f | now rewrite IH]. Qed.

Lemma substring_behind (u s : string) (m : nat) :
  String.substring (String.length u) m (u ++ s) = String.substring 0 m s.
Proof. induction u as [| c u IH]; [reflexivity | exact IH]. Qed.

Lemma length_append (s1 s2 : string) :
  String.length (s1 ++ s2) = (String.length s1 + String.length s2)%nat.
Proof. induction s1 as [| c s1 IH]; cbn; [reflexivity | now rewrite IH]. Qed.

(** Two strings of which the first ends with what the second begins with. *)
Lemma overlaps_intro (u o f : string) :
  overlaps (String.length o) (u ++ o) (o ++ f) = true.
Proof.
  unfold overlaps. rewrite !length_append.
  replace (String.length u + String.length o - String.length o)%nat
    with (String.length u) by lia.
  rewrite substring_behind, substring_front.
  replace (String.substring 0 (String.length o) o) with o
    by (rewrite <- (append_empty_r o) at 3; now rewrite substring_front).
  rewrite String.eqb_refl, andb_true_r. apply andb_true_iff. split; apply Nat.leb_le; lia.
Qed.

Lemma linked_overlaps (n : nat) (ws : list window) :
  forall prev,
    linked (fun kept => total_len kept = Z.of_nat n) prev ws ->
    each_overlaps_next n
      (String.concat "" prev :: map (fun w => String.concat "" (window_pieces w)) ws).
Proof.
  induction ws as [| w ws IH]; intros prev H; [now split |].
  destruct H as [(dropped & Hd) [HQ Hl]].
  cbn [map]. split; [| now apply IH].
  subst prev. unfold window_pieces. rewrite !concat_empty_app.
  assert (Hn : n = String.length (String.concat "" (fst w))).
  { rewrite <- len_concat_empty in HQ. unfold len in HQ. lia. }
  rewrite Hn. apply overlaps_intro.
Qed.

Section Units.

Variables chunk_size chunk_overlap : Z.
Hypothesis overlap_nonneg : 0 <= chunk_overlap.
Hypothesis overlap_below : chunk_overlap < chunk_size.

(** When every piece is one character, the inner loop of the merge
    keeps exactly [chunk_overlap] of them. *)
Lemma pop_front_units (current_doc : list string) :
  forall total,
    Forall unit_piece current_doc ->
    total = total_len current_doc ->
    chunk_overlap <= total ->
    exists kept dropped,
      pop_front chunk_size chunk_overlap (len "") 1 total current_doc
      = Ok (chunk_overlap, kept) /\
      current_doc = dropped ++ kept /\
      total_len kept = chunk_overlap.
Proof.
  induction current_doc as [| d0 tl IH]; intros total Hu Ht Ho.
  - cbn [pop_front total_len] in *. subst total. rewrite sep_cost_empty.
    replace (chunk_overlap <? 0) with false by (symmetry; apply Z.ltb_ge; lia).
    rewrite andb_false_r. cbn [orb].
    exists [], []. replace chunk_overlap with 0 by lia. repeat split.
  - inversion Hu as [| ? ? [Hd0 _] Htl]; subst. cbn [total_len] in *.
    cbn [pop_front]. rewrite !sep_cost_empty, Z.add_0_r.
    destruct (Z.eq_dec chunk_overlap (len d0 + total_len tl)) as [Heq | Hneq].
    + replace (chunk_overlap <? len d0 + total_len tl) with false
        by (symmetry; apply Z.ltb_ge; lia).
      replace (chunk_size <? len d0 + total_len tl + 1) with false
        by (symmetry; apply Z.ltb_ge; lia).
      cbn [orb andb]. exists (d0 :: tl), []. rewrite <- Heq.
      repeat split. cbn [total_len]. lia.
    + replace (chunk_overlap <? len d0 + total_len tl) with true
        by (symmetry; apply Z.ltb_lt; lia).
      cbn [orb].
      destruct (IH (len d0 + total_len tl - (len d0 + 0))) as (kept & dropped & Hp & Hd & Hk);
        [exact Htl | lia | lia |].
      exists kept, (d0 :: dropped). rewrite Hp, Hd. repeat split. exact Hk.
Qed.

(** The merge of the characters of a text without white space: every
    chunk but the last ends with the [chunk_overlap] characters the next
    one starts with. *)
Lemma merge_units (n : nat) (text : string) :
  chunk_overlap = Z.of_nat n ->
  no_space text = true ->
  exists chunks,
    flush chunk_size chunk_overlap (chars text) = Ok chunks /\
    each_overlaps_next n chunks.
Proof.
  intros Hn Hns. unfold flush, merge_splits.
  destruct (nonempty (chars text)) eqn:Hne; [| exists []; now split].
  destruct (@merge_loop_windows chunk_size chunk_overlap overlap_nonneg
              unit_piece (fun kept => total_len kept = Z.of_nat n))
    with (splits := chars text) (docs := @nil string)
         (kept0 := @nil string) (new0 := @nil string) (total := 0)
    as (extra & ws & Hm & Hnew & Hl & HPw & Hsnd & Hfirst).
  - intros current_doc d total' kept dropped Hu [Hd _] _ Hfit Hover Hp _.
    rewrite Hd in *.
    destruct (@pop_front_units current_doc (total_len current_doc) Hu eq_refl)
      as (kept' & dropped' & Hp' & _ & Hk); [lia |].
    rewrite Hp' in Hp. inversion Hp; subst. now rewrite Hk.
  - reflexivity.
  - lia.
  - constructor.
  - eapply Forall_impl; [| exact (chars_units _ Hns)].
    intros p Hp. split; [destruct Hp as [Hp _]; lia | exact Hp].
  - cbn [app] in *. exists (window_chunks (([], extra) :: ws)).
    split; [exact Hm |].
    rewrite window_chunks_units.
    + cbn [map]. unfold window_pieces at 1. cbn [fst snd app].
      now apply linked_overlaps.
    + exact HPw.
    + constructor.
      * unfold window_pieces. cbn [fst snd app]. apply Hfirst.
        intros H. rewrite H in Hne. discriminate.
      * eapply Forall_impl; [| exact Hsnd]. intros w Hw H.
        unfold window_pieces in H. apply app_eq_nil in H.
        destruct H as [_ H]. exact (Hw H).
Qed.

End Units.

(** When none of the separators that are not empty occurs in the text,
    the splitter goes straight to the last resort and cuts the text into
    its characters. *)
Lemma split_text_from_absent (chunk_size chunk_overlap : Z) (fallback text : string)
  (separators : list string) :
  In "" separators ->
  (forall sep, In sep separators -> sep = "" \/ contains sep text = false) ->
  split_text_from chunk_size chunk_overlap fallback separators text
  = split_loop chunk_size chunk_overlap None [] (split_text_with_regex text "").
Proof.
  induction separators as [| _s new_separators IH]; intros Hin Habs; [contradiction |].
  cbn [split_text_from].
  destruct (str_nonempty _s) eqn:Hs; cbn [negb].
  - destruct (Habs _s (or_introl eq_refl)) as [-> | ->]; [discriminate |].
    apply IH.
    + destruct Hin as [Heq | Hin]; [subst _s; discriminate | exact Hin].
    + intros sep Hsep. apply Habs. now right.
  - destruct _s; [reflexivity | discriminate].
Qed.

End OverlapFacts.

Lemma chunk_len_effective (w : World) :
  chunk_len w
  = if (0 <? INDEX_TEXT_CHUNK_LEN w) && (INDEX_TEXT_CHUNK_LEN w <? EMBEDDING_MODEL_MAX_LEN w)
    then INDEX_TEXT_CHUNK_LEN w
    else EMBEDDING_MODEL_MAX_LEN w.
Proof.
  unfold chunk_len. destruct (0 <? INDEX_TEXT_CHUNK_LEN w); cbn [andb]; [| reflexivity].
  destruct (INDEX_TEXT_CHUNK_LEN w <? EMBEDDING_MODEL_MAX_LEN w) eqn:H.
  - apply Z.ltb_lt in H. lia.
  - apply Z.ltb_ge in H. lia.
Qed.

(** C7, as the claim states it, fails in three ways.  With the limit at
    128: the empty text is shorter than the limit and yields no chunk at
    all; and a hundred [a], a blank and a hundred [b] yield two
    consecutive chunks that share nothing, so they do not overlap by 40
    characters.  With the limit at 30, below the overlap, a three-letter
    text yields no chunk either: the splitter's constructor raises. *)
Lemma chunk_text_breaks_contract :
  chunk_len Toy.world = 128 /\
  chunk_text Toy.world "" = Ok [] /\
  chunk_text Toy.world (replicate 100 "a" ++ " " ++ replicate 100 "b")%string
    = Ok [replicate 100 "a"; replicate 100 "b"] /\
  overlaps 40 (replicate 100 "a") (replicate 100 "b") = false /\
  chunk_len short_chunk_world = 30 /\
  chunk_text short_chunk_world "abc" = Raise ValueError.
Proof. vm_compute. repeat split; reflexivity. Qed.

(** [chunk_text] cuts every text into stretches that repeat at most 40
    characters. *)
Lemma chunk_text_stretches (w : World) (text : string) :
  40 <= chunk_len w ->
  exists stretches,
    chunk_text w text = Ok (stretch_chunks stretches) /\
    new_text stretches = text /\
    repeats_at_most 40 "" stretches.
Proof.
  intros H. unfold chunk_text, TextSplitter.split_text.
  replace (chunk_len w <? 40) with false by (symmetry; apply Z.ltb_ge; lia).
  apply OverlapFacts.split_text_from_stretches; [lia | lia | lia |].
  cbn. right. right. right. now left.
Qed.

(** A text without white space is cut into its characters and merged in
    one go, so that every chunk starts with the last 40 characters of the
    chunk before it. *)
Lemma chunk_text_no_space (w : World) (text : string) :
  40 < chunk_len w ->
  no_space text = true ->
  exists chunks,
    chunk_text w text = Ok chunks /\ each_overlaps_next 40 chunks.
Proof.
  intros H Hns. unfold chunk_text, TextSplitter.split_text.
  replace (chunk_len w <? 40) with false by (symmetry; apply Z.ltb_ge; lia).
  rewrite OverlapFacts.split_text_from_absent.
  - unfold TextSplitter.split_text_with_regex. cbn [str_nonempty].
    rewrite OverlapFacts.filter_chars, MergeFacts.split_loop_all_good.
    + cbn [app]. apply OverlapFacts.merge_units; [lia | lia | reflexivity | exact Hns].
    + apply Forall_forall. intros s Hs. apply SplitterFacts.chars_len in Hs. lia.
  - cbn. right. right. right. now left.
  - intros sep Hsep. cbn in Hsep.
    destruct Hsep as [<- | [<- | [<- | [<- | []]]]]; [right | right | right | now left];
      apply OverlapFacts.contains_space_false; (reflexivity || exact Hns).
Qed.

(** C7, amended.  The effective limit [L] is the configured chunk length
    if that is positive and below the model's maximum, and the model's
    maximum otherwise.  When [L] is below 40 the splitter refuses the
    configuration and [chunk_text] raises for every text.  Otherwise
    [chunk_text] returns; every chunk has at most [L] characters and none
    is empty; a text shorter than [L] yields exactly one chunk, the text
    without its surrounding white space, unless it is empty or all white
    space, when it yields none.  The chunks come from cutting the text
    into consecutive stretches: the new characters of the stretches, one
    after the other, are the text; each stretch begins with an end of the
    stretch before it, of at most 40 characters and possibly of none; and
    the chunks are the stretches without their surrounding white space,
    those left empty dropped.  So consecutive chunks repeat at most 40
    characters of the text, not always 40.  They do overlap by exactly 40
    when [L] is above 40 and the text has no white space: then the last 40
    characters of every chunk are the first 40 of the next. *)
Theorem chunk_text_contract (w : World) (text : string) :
  chunk_len w
  = (if (0 <? INDEX_TEXT_CHUNK_LEN w) && (INDEX_TEXT_CHUNK_LEN w <? EMBEDDING_MODEL_MAX_LEN w)
     then INDEX_TEXT_CHUNK_LEN w
     else EMBEDDING_MODEL_MAX_LEN w) /\
  (chunk_len w < 40 -> chunk_text w text = Raise ValueError) /\
  (40 <= chunk_len w ->
   exists chunks stretches,
     chunk_text w text = Ok chunks /\
     Forall (fun c => len c <= chunk_len w /\ c <> "") chunks /\
     (len text < chunk_len w ->
      chunks = if str_nonempty (strip text) then [strip text] else []) /\
     chunks = stretch_chunks stretches /\
     new_text stretches = text /\
     repeats_at_most 40 "" stretches /\
     (40 < chunk_len w -> no_space text = true -> each_overlaps_next 40 chunks)).
Proof.
  split; [apply chunk_len_effective |]. split.
  - intros H. unfold chunk_text, TextSplitter.split_text.
    now rewrite (proj2 (Z.ltb_lt _ _) H).
  - intros H.
    destruct (chunk_text_stretches w text H) as (stretches & Hst & Hnew & Hrep).
    exists (stretch_chunks stretches), stretches.
    split; [exact Hst |].
    assert (Hin : In "" TextSplitter.default_separators)
      by (cbn; right; right; right; now left).
    assert (Hfrom : TextSplitter.split_text_from (chunk_len w) 40
                      (last TextSplitter.default_separators "")
                      TextSplitter.default_separators text
                    = Ok (stretch_chunks stretches)).
    { unfold chunk_text, TextSplitter.split_text in Hst.
      replace (chunk_len w <? 40) with false in Hst by (symmetry; apply Z.ltb_ge; lia).
      exact Hst. }
    split; [| split; [| split; [reflexivity | split; [exact Hnew | split; [exact Hrep |]]]]].
    + destruct (@MergeFacts.split_text_from_spec (chunk_len w) 40
                  ltac:(lia) ltac:(lia) ltac:(lia)
                  (last TextSplitter.default_separators "")
                  TextSplitter.default_separators Hin text)
        as (chunks & Hc & Hgood).
      rewrite Hfrom in Hc. inversion Hc; subst chunks. exact Hgood.
    + intros Hshort.
      rewrite (@MergeFacts.split_text_from_short (chunk_len w) 40
                 (last TextSplitter.default_separators "")
                 TextSplitter.default_separators Hin text Hshort) in Hfrom.
      now inversion Hfrom.
    + intros Hlong Hns.
      destruct (chunk_text_no_space w text Hlong Hns) as (chunks & Hc & Hov).
      rewrite Hst in Hc. inversion Hc; subst chunks. exact Hov.
Qed.

Lemma chunk_text_contract_witness :
  chunk_text Toy.world (replicate 150 "a" ++ replicate 150 "b")%string
  = Ok [replicate 128 "a";
        (replicate 62 "a" ++ replicate 66 "b")%string;
        replicate 124 "b"] /\
  overlaps 40 (replicate 128 "a") (replicate 62 "a" ++ replicate 66 "b")%string = true /\
  overlaps 40 (replicate 62 "a" ++ replicate 66 "b")%string (replicate 124 "b") = true.
Proof.
  destruct (chunk_text_contract Toy.world (replicate 150 "a" ++ replicate 150 "b")%string)
    as (_ & _ & H).
  destruct H as (chunks & stretches & Hc & _ & _ & _ & _ & _ & Hov);
    [vm_compute; discriminate |].
  assert (Hchunks : chunks = [replicate 128 "a";
                              (replicate 62 "a" ++ replicate 66 "b")%string;
                              replicate 124 "b"]).
  { assert (He : Ok chunks
                 = chunk_text Toy.world (replicate 150 "a" ++ replicate 150 "b")%string)
      by (symmetry; exact Hc).
    vm_compute in He. inversion He. vm_compute. reflexivity. }
  split; [rewrite Hc, Hchunks; reflexivity |].
  rewrite Hchunks in Hov.
  destruct Hov as [H1 [H2 _]]; [vm_compute; reflexivity | vm_compute; reflexivity |].
  split; [exact H1 | exact H2].
Defined.

(* ===================================================================== *)
(** ** Further properties: the build *)
(* ===================================================================== *)

Lemma reuse_check_no_savedir (w : World) (fs : Store) :
  savedir_exists fs = false -> reuse_check w fs = ([], false).
Proof. intros H. unfold reuse_check. now rewrite H. Qed.

(** What a run on a save directory that does not exist yet has done when
    it ends without exception. *)
Lemma build_index_fresh_inv (w : World) (fs : Store) :
  savedir_exists fs = false ->
  raised (build_index w fs) = None ->
  exists probe index docs marker log2,
    llamafile_embed w "Apples are red." = Ok probe /\
    snd (load_data_for_indexing w) = None /\
    build_loop w {| d := dim probe; xb := [] |} [] (fst (load_data_for_indexing w))
      = (log2, Ok (index, docs)) /\
    write_hashes w "" (INDEX_LOCAL_DATA_DIRS w) = (marker, None) /\
    build_index w fs
    = {| trace := log2 ++ [saved_message w index];
         store := {| savedir_exists := true; last_hash_txt := Some marker;
                     index_faiss := Some index; index_json := Some docs |};
         raised := None |}.
Proof.
  intros Hs. unfold build_index. rewrite (reuse_check_no_savedir w fs Hs).
  destruct (llamafile_embed w "Apples are red.") as [probe | e]; [| discriminate].
  destruct (load_data_for_indexing w) as [evs gen_exn].
  destruct (build_loop w {| d := dim probe; xb := [] |} [] evs)
    as [log2 [[index docs] | e]] eqn:Hloop; [| discriminate].
  destruct gen_exn; [discriminate |]. rewrite Hs.
  destruct (write_hashes w "" (INDEX_LOCAL_DATA_DIRS w)) as [marker [e |]] eqn:Hw;
    [discriminate |].
  intros _. exists probe, index, docs, marker, log2. cbn [fst snd].
  repeat split; try reflexivity. exact Hloop.
Qed.

Lemma Forall2_right {A B : Type} (P : B -> Prop) (R : A -> B -> Prop)
  (xs : list A) (ys : list B) :
  (forall x y, R x y -> P y) -> Forall2 R xs ys -> Forall P ys.
Proof.
  intros H. induction 1 as [| x y xs ys Hxy _ IH]; constructor; [eapply H; eauto | exact IH].
Qed.

(** X1: the first build into a save directory that does not exist yet,
    when it ends without exception, has stored exactly the chunks the
    generator yielded, in the order they were yielded, and one row for
    each; the index has the dimension of the probe embedding and so has
    every row in it; the run printed what the generator emitted and then
    the one line that counts the entries. *)
Theorem fresh_build_stores_yielded_chunks (w : World) (fs : Store) :
  savedir_exists fs = false ->
  raised (build_index w fs) = None ->
  exists probe index,
    llamafile_embed w "Apples are red." = Ok probe /\
    savedir_exists (store (build_index w fs)) = true /\
    index_faiss (store (build_index w fs)) = Some index /\
    index_json (store (build_index w fs))
      = Some (yielded_chunks (fst (load_data_for_indexing w))) /\
    d index = dim probe /\
    List.length (xb index) = List.length (yielded_chunks (fst (load_data_for_indexing w))) /\
    Forall (fun v => dim v = dim probe) (xb index) /\
    trace (build_index w fs)
      = emitted (fst (load_data_for_indexing w)) ++ [saved_message w index].
Proof.
  intros Hs Hret.
  destruct (build_index_fresh_inv w fs Hs Hret)
    as (probe & index & docs & marker & log2 & Hp & _ & Hloop & _ & ->).
  apply build_loop_ok in Hloop. cbn [d xb app] in Hloop.
  destruct Hloop as (Hd & -> & -> & vs & Hxb & Hall).
  exists probe, index. cbn [store trace savedir_exists index_faiss index_json].
  repeat split; try reflexivity; try assumption.
  - rewrite Hxb. symmetry. exact (Forall2_length Hall).
  - rewrite Hxb. eapply Forall2_right; [| exact Hall]. cbn. intros t v [_ H]. exact H.
Qed.

Lemma fresh_build_stores_yielded_chunks_witness :
  index_json (store (build_index Toy.world no_store))
  = Some (yielded_chunks (fst (load_data_for_indexing Toy.world))).
Proof.
  destruct (@fresh_build_stores_yielded_chunks Toy.world no_store eq_refl eq_refl)
    as (probe & index & _ & _ & _ & Hj & _).
  exact Hj.
Defined.

(** The marker loop: it ends without exception exactly when every
    directory has a hash, and then it has appended the hashes in order. *)
Lemma write_hashes_done (w : World) (directories : list string) :
  forall written marker,
    write_hashes w written directories = (marker, None) ->
    exists hashes,
      map_result (dirhash w) directories = Ok hashes /\
      marker = (written ++ String.concat "" hashes)%string.
Proof.
  induction directories as [| directory rest IH]; intros written marker H;
    cbn [write_hashes map_result] in *.
  - inversion H. exists []. split; [reflexivity |]. cbn. now rewrite append_empty_r.
  - destruct (dirhash w directory) as [h | e]; [| discriminate]. cbn [bind].
    apply IH in H. destruct H as (hashes & Hm & ->). rewrite Hm. cbn [bind].
    exists (h :: hashes). split; [reflexivity |].
    now rewrite concat_empty_cons, append_assoc.
Qed.

(** X2: [build_index] touches the save directory only after the whole
    ingestion has gone through.  Whenever a run has changed anything
    there, the directory did not exist before, the probe was embedded, the
    generator ended without exception, and every chunk it yielded was
    embedded with the dimension of the probe.  So one failing source or one
    failing embedding leaves nothing behind, however many chunks were
    ingested before it. *)
Theorem build_writes_only_after_full_ingestion (w : World) (fs : Store) :
  store (build_index w fs) <> fs ->
  savedir_exists fs = false /\
  snd (load_data_for_indexing w) = None /\
  exists probe,
    llamafile_embed w "Apples are red." = Ok probe /\
    Forall (fun chunk => exists v, embed w chunk = Ok v /\ dim v = dim probe)
           (yielded_chunks (fst (load_data_for_indexing w))).
Proof.
  unfold build_index.
  destruct (reuse_check w fs) as [log skip]. destruct skip; [intros H; now elim H |].
  destruct (llamafile_embed w "Apples are red.") as [probe | e0];
    [| intros H; now elim H].
  destruct (load_data_for_indexing w) as [evs gen_exn]. cbn [fst snd].
  destruct (build_loop w {| d := dim probe; xb := [] |} [] evs)
    as [log2 [[index docs] | e0]] eqn:Hloop; [| intros H; now elim H].
  destruct gen_exn; [intros H; now elim H |].
  destruct (savedir_exists fs) eqn:Hs; [intros H; now elim H |].
  intros _. split; [reflexivity |]. split; [reflexivity |].
  exists probe. split; [reflexivity |].
  apply build_loop_ok in Hloop. cbn [d xb app] in Hloop.
  destruct Hloop as (_ & _ & _ & vs & _ & Hall).
  clear - Hall. induction Hall as [| t v ts vs Htv _ IH]; constructor; [| exact IH].
  now exists v.
Qed.

Lemma build_writes_only_after_full_ingestion_witness :
  savedir_exists no_store = false /\
  snd (load_data_for_indexing Toy.world) = None /\
  exists probe,
    llamafile_embed Toy.world "Apples are red." = Ok probe /\
    Forall (fun chunk => exists v, embed Toy.world chunk = Ok v /\ dim v = dim probe)
           (yielded_chunks (fst (load_data_for_indexing Toy.world))).
Proof.
  apply (@build_writes_only_after_full_ingestion Toy.world no_store).
  vm_compute. discriminate.
Defined.

(** X3: over a save directory that exists, [build_index] writes nothing,
    whatever happens; and it ends without exception exactly when the
    marker file exists and the path of the first configured directory
    occurs in it.  In particular, with a marker that does not contain that
    path, or without any configured directory, every run raises. *)
Theorem existing_savedir_succeeds_only_by_skipping (w : World) (fs : Store) :
  savedir_exists fs = true ->
  store (build_index w fs) = fs /\
  (raised (build_index w fs) = None <->
   exists contents d0 rest,
     last_hash_txt fs = Some contents /\
     INDEX_LOCAL_DATA_DIRS w = d0 :: rest /\
     contains d0 contents = true).
Proof.
  intros Hs. destruct (snd (reuse_check w fs)) eqn:Hskip.
  - rewrite (build_index_skip w fs Hskip). cbn [store raised].
    split; [reflexivity |]. split; [intros _ | reflexivity].
    apply reuse_check_skips_iff in Hskip. tauto.
  - destruct (build_index_existing_savedir w fs Hs Hskip) as [Hraised Hstore].
    split; [exact Hstore |]. split; [intros H; contradiction |].
    intros Hcond. exfalso.
    assert (Htrue : snd (reuse_check w fs) = true)
      by (apply reuse_check_skips_iff; split; assumption).
    congruence.
Qed.

Lemma existing_savedir_succeeds_only_by_skipping_witness :
  store (build_index renamed_world Toy.built) = Toy.built /\
  raised (build_index renamed_world Toy.built) = None.
Proof.
  destruct (@existing_savedir_succeeds_only_by_skipping renamed_world Toy.built eq_refl)
    as [Hstore Hiff].
  split; [exact Hstore |]. apply Hiff.
  exists Toy.hash_of_local_data, "a", ["local_data"]. repeat split.
Defined.

Lemma prefix_append (a b : string) : String.prefix a (a ++ b) = true.
Proof.
  induction a as [| c a IH]; cbn; [now destruct b |].
  destruct (Ascii.ascii_dec c c); [exact IH | contradiction].
Qed.

Lemma contains_prefix (a s : string) : String.prefix a s = true -> contains a s = true.
Proof. intros H. destruct s; cbn [contains]; now rewrite H. Qed.

Lemma contains_behind (a p s : string) :
  contains a s = true -> contains a (p ++ s) = true.
Proof.
  intros H. induction p as [| c p IH]; [exact H |].
  change (String c p ++ s)%string with (String c (p ++ s)).
  cbn [contains]. rewrite IH. apply orb_true_r.
Qed.

Lemma contains_in_concat (h : string) (hashes : list string) :
  In h hashes -> contains h (String.concat "" hashes) = true.
Proof.
  induction hashes as [| h0 hashes IH]; intros Hin; [contradiction |].
  rewrite concat_empty_cons. destruct Hin as [-> | Hin].
  - apply contains_prefix, prefix_append.
  - apply contains_behind. now apply IH.
Qed.

Lemma map_result_In {A B : Type} (f : A -> result B) (xs : list A) (ys : list B) (x : A) :
  map_result f xs = Ok ys -> In x xs -> exists y, f x = Ok y /\ In y ys.
Proof.
  revert ys. induction xs as [| x0 xs IH]; intros ys H Hin; [contradiction |].
  cbn in H. destruct (f x0) as [y0 | e] eqn:Hf; [| discriminate]. cbn in H.
  destruct (map_result f xs) as [zs | e]; [| discriminate]. cbn in H.
  inversion H; subst. destruct Hin as [-> | Hin].
  - exists y0. split; [exact Hf | now left].
  - destruct (IH zs eq_refl Hin) as (y & Hy & Hiny). exists y. split; [exact Hy | now right].
Qed.

(** X4: the marker written by a first build that ends without exception
    is the hashes of the configured directories, in configured order and
    with nothing between them; so the current hash of every configured
    directory can be found in it. *)
Theorem fresh_build_marker_holds_every_hash (w : World) (fs : Store) :
  savedir_exists fs = false ->
  raised (build_index w fs) = None ->
  exists hashes,
    map_result (dirhash w) (INDEX_LOCAL_DATA_DIRS w) = Ok hashes /\
    last_hash_txt (store (build_index w fs)) = Some (String.concat "" hashes) /\
    every_current_hash_found w (String.concat "" hashes) = true.
Proof.
  intros Hs Hret.
  destruct (build_index_fresh_inv w fs Hs Hret)
    as (probe & index & docs & marker & log2 & _ & _ & _ & Hw & ->).
  apply write_hashes_done in Hw. destruct Hw as (hashes & Hm & ->).
  exists hashes. cbn [store last_hash_txt String.append].
  split; [exact Hm |]. split; [reflexivity |].
  unfold every_current_hash_found. apply forallb_forall. intros directory Hin.
  destruct (map_result_In _ _ directory Hm Hin) as (h & Hh & Hinh).
  rewrite Hh. now apply contains_in_concat.
Qed.

Lemma fresh_build_marker_holds_every_hash_witness :
  exists hashes,
    last_hash_txt (store (build_index Toy.world no_store)) = Some (String.concat "" hashes) /\
    every_current_hash_found Toy.world (String.concat "" hashes) = true.
Proof.
  destruct (@fresh_build_marker_holds_every_hash Toy.world no_store eq_refl eq_refl)
    as (hashes & _ & Hm & Hf).
  exists hashes. split; assumption.
Defined.

(* ===================================================================== *)
(** ** Further properties: ingestion *)
(* ===================================================================== *)

Lemma chunk_len_at_most_model_max (w : World) : chunk_len w <= EMBEDDING_MODEL_MAX_LEN w.
Proof. unfold chunk_len. destruct (0 <? INDEX_TEXT_CHUNK_LEN w); lia. Qed.

(** What [chunk_text] returns, when it returns. *)
Lemma chunk_text_ok (w : World) (text : string) (chunks : list string) :
  chunk_text w text = Ok chunks ->
  40 <= chunk_len w /\ Forall (good_chunk (chunk_len w)) chunks.
Proof.
  unfold chunk_text, TextSplitter.split_text.
  destruct (chunk_len w <? 40) eqn:Hlt; [discriminate |].
  apply Z.ltb_ge in Hlt. intros H. split; [exact Hlt |].
  assert (Hin : In "" TextSplitter.default_separators)
    by (cbn; right; right; right; now left).
  destruct (@MergeFacts.split_text_from_spec (chunk_len w) 40
              ltac:(lia) ltac:(lia) ltac:(lia)
              (last TextSplitter.default_separators "")
              TextSplitter.default_separators Hin text)
    as (chunks' & Hc & Hgood).
  congruence.
Qed.

Lemma yields_of_chunks (origin : string) (chunks : list string) :
  yields (map (Yield origin) chunks) = map (pair origin) chunks.
Proof. induction chunks as [| c chunks IH]; cbn; [reflexivity | now rewrite IH]. Qed.

Section YieldedChunks.

Variable w : World.

Lemma fits_chunks (origin : string) (text : string) :
  forall chunks, chunk_text w text = Ok chunks ->
                 Forall (chunk_fits w) (yields (map (Yield origin) chunks)).
Proof.
  intros chunks H. apply chunk_text_ok in H. destruct H as [_ H].
  rewrite yields_of_chunks. apply Forall_map. exact H.
Qed.

Lemma fits_url_events (url : string) : Forall (chunk_fits w) (yields (url_events w url)).
Proof.
  unfold url_events. destruct (fetch_chunks w url) as [chunks | e] eqn:Hf; [| constructor].
  unfold fetch_chunks in Hf.
  destruct (requests_get w url) as [response | e]; [| discriminate]. cbn [bind] in Hf.
  destruct (raise_for_status response); [| discriminate]. cbn [bind] in Hf.
  destruct (html_get_text w (text response)) as [t | e]; [| discriminate]. cbn [bind] in Hf.
  exact (fits_chunks url t Hf).
Qed.

Lemma fits_file_gen (read : string -> result string) (path : string) :
  Forall (chunk_fits w) (yields (fst (file_gen w read path))).
Proof.
  unfold file_gen. destruct (read path) as [t | e]; cbn [bind]; [| constructor].
  destruct (chunk_text w t) as [chunks | e] eqn:Hc; cbn [fst]; [| constructor].
  exact (fits_chunks path t Hc).
Qed.

Lemma fits_gen_seq (g1 g2 : gen) :
  Forall (chunk_fits w) (yields (fst g1)) -> Forall (chunk_fits w) (yields (fst g2)) ->
  Forall (chunk_fits w) (yields (fst (gen_seq g1 g2))).
Proof.
  intros H1 H2. unfold gen_seq. destruct g1 as [ev1 [e |]]; cbn [fst] in *; [exact H1 |].
  rewrite yields_app. apply Forall_app. now split.
Qed.

Lemma fits_files_gen (read : string -> result string) (paths : list string) :
  Forall (chunk_fits w) (yields (fst (files_gen w read paths))).
Proof.
  induction paths as [| path rest IH]; cbn [files_gen]; [constructor |].
  apply fits_gen_seq; [apply fits_file_gen | exact IH].
Qed.

Lemma fits_dirs_gen (directories : list string) :
  Forall (chunk_fits w) (yields (fst (dirs_gen w directories))).
Proof.
  induction directories as [| directory rest IH]; cbn [dirs_gen]; [constructor |].
  apply fits_gen_seq; [| exact IH].
  unfold dir_gen. apply fits_gen_seq; apply fits_files_gen.
Qed.

Lemma fits_load_data : Forall (chunk_fits w) (yields (fst (load_data_for_indexing w))).
Proof.
  unfold load_data_for_indexing. apply fits_gen_seq; [| apply fits_dirs_gen].
  cbn [fst]. unfold urls_events.
  induction (INDEX_URLS w) as [| url rest IH]; cbn [flat_map]; [constructor |].
  rewrite yields_app. apply Forall_app. split; [apply fits_url_events | exact IH].
Qed.

End YieldedChunks.

(** X5: whatever the sources hold, every chunk that
    [load_data_for_indexing] yields is not empty and has at most as many
    characters as the chunk length in force, which never exceeds
    [EMBEDDING_MODEL_MAX_LEN]; so has every document of a first build
    that ended without exception. *)
Theorem yielded_chunks_fit_the_model (w : World) :
  (forall origin chunk,
     In (origin, chunk) (yields (fst (load_data_for_indexing w))) ->
     chunk <> "" /\ len chunk <= chunk_len w /\
     chunk_len w <= EMBEDDING_MODEL_MAX_LEN w) /\
  (forall fs docs,
     savedir_exists fs = false ->
     raised (build_index w fs) = None ->
     index_json (store (build_index w fs)) = Some docs ->
     Forall (fun doc => doc <> "" /\ len doc <= EMBEDDING_MODEL_MAX_LEN w) docs).
Proof.
  pose proof (fits_load_data w) as Hall.
  pose proof (chunk_len_at_most_model_max w) as Hmax.
  split.
  - intros origin chunk Hin.
    apply (proj1 (Forall_forall _ _) Hall) in Hin. destruct Hin as [Hlen Hne].
    cbn [snd] in *. auto.
  - intros fs docs Hs Hret Hj.
    destruct (build_index_fresh_inv w fs Hs Hret)
      as (probe & index & docs' & marker & log2 & _ & _ & Hloop & _ & Hb).
    rewrite Hb in Hj. cbn [store index_json] in Hj. inversion Hj; subst docs'.
    apply build_loop_ok in Hloop. destruct Hloop as (_ & -> & _).
    cbn [app]. unfold yielded_chunks. apply Forall_map.
    eapply Forall_impl; [| exact Hall]. cbn. intros oc [Hlen Hne]. split; [exact Hne | lia].
Qed.

Lemma yielded_chunks_fit_the_model_witness :
  "Apples are red." <> "" /\ len "Apples are red." <= chunk_len Toy.world /\
  chunk_len Toy.world <= EMBEDDING_MODEL_MAX_LEN Toy.world.
Proof.
  apply (proj1 (yielded_chunks_fit_the_model Toy.world) "local_data/doc1.txt").
  vm_compute. now left.
Defined.

Lemma gen_seq_assoc (g1 g2 g3 : gen) :
  gen_seq (gen_seq g1 g2) g3 = gen_seq g1 (gen_seq g2 g3).
Proof.
  destruct g1 as [ev1 [e1 |]]; [reflexivity |].
  destruct g2 as [ev2 [e2 |]]; [reflexivity |].
  destruct g3 as [ev3 x3]. cbn. now rewrite app_assoc.
Qed.

Lemma files_gen_app (w : World) (read : string -> result string) (before after : list string) :
  files_gen w read (before ++ after)
  = gen_seq (files_gen w read before) (files_gen w read after).
Proof.
  induction before as [| path before IH]; cbn [app files_gen].
  - now destruct (files_gen w read after).
  - now rewrite IH, gen_seq_assoc.
Qed.

Lemma dirs_gen_app (w : World) (before after : list string) :
  dirs_gen w (before ++ after) = gen_seq (dirs_gen w before) (dirs_gen w after).
Proof.
  induction before as [| directory before IH]; cbn [app dirs_gen].
  - now destruct (dirs_gen w after).
  - now rewrite IH, gen_seq_assoc.
Qed.

(** X6: an exception while a local text file is read is not handled.
    The generator ends with it: it has yielded what the URLs, the
    directories before and the text files before gave, and nothing of the
    files and directories behind.  A build that consumes it raises and
    leaves the save directory as it was; it raises that very exception
    when every chunk before could be embedded and added. *)
Theorem unreadable_text_file_ends_ingestion (w : World)
  (dirs_before dirs_after before after : list string) (directory path : string) (e : exn) :
  INDEX_LOCAL_DATA_DIRS w = dirs_before ++ directory :: dirs_after ->
  snd (dirs_gen w dirs_before) = None ->
  rglob w directory "*.txt" = before ++ path :: after ->
  snd (files_gen w (read_text w) before) = None ->
  read_text w path = Raise e ->
  load_data_for_indexing w
  = (urls_events w (INDEX_URLS w)
       ++ fst (dirs_gen w dirs_before)
       ++ fst (files_gen w (read_text w) before),
     Some e) /\
  (forall fs,
     snd (reuse_check w fs) = false ->
     raised (build_index w fs) <> None /\
     store (build_index w fs) = fs /\
     (forall probe log2 built_pair,
        llamafile_embed w "Apples are red." = Ok probe ->
        build_loop w {| d := dim probe; xb := [] |} []
          (urls_events w (INDEX_URLS w)
             ++ fst (dirs_gen w dirs_before)
             ++ fst (files_gen w (read_text w) before))
        = (log2, Ok built_pair) ->
        raised (build_index w fs) = Some e)).
Proof.
  intros Hdirs Hdb Hglob Hfb Hread.
  assert (Hgen : load_data_for_indexing w
                 = (urls_events w (INDEX_URLS w)
                      ++ fst (dirs_gen w dirs_before)
                      ++ fst (files_gen w (read_text w) before),
                    Some e)).
  { unfold load_data_for_indexing. rewrite Hdirs, dirs_gen_app.
    cbn [dirs_gen]. unfold dir_gen. rewrite Hglob, files_gen_app.
    cbn [files_gen]. unfold file_gen at 1. rewrite Hread. cbn [bind].
    destruct (dirs_gen w dirs_before) as [evd xd]. cbn [snd] in Hdb. subst xd.
    destruct (files_gen w (read_text w) before) as [evf xf]. cbn [snd] in Hfb. subst xf.
    cbn [gen_seq fst snd]. now rewrite !app_nil_r. }
  split; [exact Hgen |].
  intros fs Hskip. unfold build_index.
  destruct (reuse_check w fs) as [log skip]. cbn in Hskip. subst skip.
  rewrite Hgen.
  destruct (llamafile_embed w "Apples are red.") as [probe | e0].
  - destruct (build_loop w {| d := dim probe; xb := [] |} []
                (urls_events w (INDEX_URLS w)
                   ++ fst (dirs_gen w dirs_before)
                   ++ fst (files_gen w (read_text w) before)))
      as [log2 [[index docs] | e0]] eqn:Hloop.
    + cbn [raised store]. split; [discriminate |]. split; [reflexivity |].
      intros probe' log2' pair' Hp _. reflexivity.
    + cbn [raised store]. split; [discriminate |]. split; [reflexivity |].
      intros probe' log2' pair' Hp Hl. inversion Hp; subst probe'. congruence.
  - cbn [raised store]. split; [discriminate |]. split; [reflexivity |].
    intros probe' log2' pair' Hp. discriminate.
Qed.

Lemma unreadable_text_file_ends_ingestion_witness :
  load_data_for_indexing unreadable_world
  = ([Yield "http://example.org/fruit" "Dates are brown.";
      Yield "local_data/doc1.txt" "Apples are red."],
     Some (External "Permission denied")) /\
  raised (build_index unreadable_world no_store) = Some (External "Permission denied").
Proof.
  destruct (@unreadable_text_file_ends_ingestion unreadable_world
              [] [] ["local_data/doc1.txt"] ["local_data/doc2.txt"]
              "local_data" "local_data/secret.txt" (External "Permission denied"))
    as [Hgen Hbuild]; try reflexivity.
  split; [rewrite Hgen; vm_compute; reflexivity |].
  destruct (Hbuild no_store eq_refl) as (_ & _ & Hexn).
  eapply (Hexn [1%Q; 0%Q; 0%Q]); vm_compute; reflexivity.
Defined.

(** A text shorter than the chunk length in force is one chunk, or none. *)
Lemma chunk_text_short (w : World) (text : string) :
  40 <= chunk_len w ->
  len text < chunk_len w ->
  chunk_text w text = Ok (if str_nonempty (strip text) then [strip text] else []).
Proof.
  intros HL Hshort. unfold chunk_text, TextSplitter.split_text.
  replace (chunk_len w <? 40) with false by (symmetry; apply Z.ltb_ge; lia).
  apply MergeFacts.split_text_from_short; [| exact Hshort].
  cbn. right. right. right. now left.
Qed.

Lemma concat_all_empty (pages : list string) :
  Forall (fun page => page = "") pages -> String.concat "" pages = "".
Proof.
  induction 1 as [| page pages -> _ IH]; [reflexivity |].
  now rewrite concat_empty_cons, IH.
Qed.

(** X7: a PDF whose pages together are shorter than the chunk length in
    force becomes at most one chunk: the page texts joined in page order
    with nothing between them, without the white space around the whole.
    A PDF without pages, or with empty pages only, adds nothing and raises
    nothing. *)
Theorem short_pdf_is_one_chunk (w : World) (path : string) (pages : list string) :
  40 <= chunk_len w ->
  pdf_page_texts w path = Ok pages ->
  (len (String.concat "" pages) < chunk_len w ->
   file_gen w (load_pdf w) path
   = (if str_nonempty (strip (String.concat "" pages))
      then [Yield path (strip (String.concat "" pages))]
      else [],
      None)) /\
  (Forall (fun page => page = "") pages ->
   file_gen w (load_pdf w) path = ([], None)).
Proof.
  intros HL Hpages.
  assert (Hshort : len (String.concat "" pages) < chunk_len w ->
                   file_gen w (load_pdf w) path
                   = (if str_nonempty (strip (String.concat "" pages))
                      then [Yield path (strip (String.concat "" pages))]
                      else [],
                      None)).
  { intros Hlen. unfold file_gen, load_pdf. rewrite Hpages. cbn [bind].
    rewrite (chunk_text_short w _ HL Hlen).
    now destruct (str_nonempty (strip (String.concat "" pages))). }
  split; [exact Hshort |].
  intros Hempty. apply concat_all_empty in Hempty.
  rewrite Hshort; rewrite Hempty; [reflexivity | cbn; lia].
Qed.

Lemma short_pdf_is_one_chunk_witness :
  file_gen Toy.world (load_pdf Toy.world) "local_data/paper.pdf"
  = ([Yield "local_data/paper.pdf" "Cherries are dark red."], None).
Proof.
  destruct (@short_pdf_is_one_chunk Toy.world "local_data/paper.pdf"
              ["Cherries are "; "dark red."]) as [Hshort _].
  - vm_compute. discriminate.
  - reflexivity.
  - rewrite Hshort; [reflexivity | vm_compute; reflexivity].
Defined.

(* ===================================================================== *)
(** ** Further properties: the result table and the retrieval *)
(* ===================================================================== *)

Lemma skipn_cons_nth {A : Type} (xs : list A) :
  forall i x tl, skipn i xs = x :: tl -> nth_error xs i = Some x /\ skipn (S i) xs = tl.
Proof.
  induction xs as [| x0 xs IH]; intros [| i] x tl H; cbn in *; try discriminate.
  - inversion H. split; reflexivity.
  - apply IH in H. exact H.
Qed.

Lemma take_chars_length (n : nat) (s : string) : (String.length (take_chars n s) <= n)%nat.
Proof.
  revert s. induction n as [| n IH]; intros [| c s]; cbn; try lia.
  specialize (IH s). lia.
Qed.

Lemma map_result_app_raise {A B : Type} (f : A -> result B) (good rest : list A)
  (bad : A) (ys : list B) (e : exn) :
  map_result f good = Ok ys -> f bad = Raise e ->
  map_result f (good ++ bad :: rest) = Raise e.
Proof.
  revert ys. induction good as [| x good IH]; intros ys Hg Hb; cbn in *.
  - now rewrite Hb.
  - destruct (f x) as [y | e']; [| discriminate]. cbn in *.
    destruct (map_result f good) as [zs | e']; [| discriminate].
    now rewrite (IH zs eq_refl Hb).
Qed.

Lemma map_result_list_get_raises {A : Type} (xs : list A) (labels : list Z) (e : exn) :
  map_result (list_get xs) labels = Raise e -> e = IndexError.
Proof.
  induction labels as [| l labels IH]; cbn; [discriminate |].
  destruct (list_get xs l) as [x | e'] eqn:Hg; cbn.
  - destruct (map_result (list_get xs) labels) as [ys | e'']; cbn; [discriminate |].
    intros H. inversion H; subst. now apply IH.
  - intros H. inversion H; subst. now apply list_get_raises_index_error in Hg.
Qed.

(** The rows for labels that are all found. *)
Lemma pprint_rows_found (scores : list score) (docs : list string) (doc_indices : list Z) :
  forall texts i,
    map_result (list_get docs) doc_indices = Ok texts ->
    (List.length doc_indices <= List.length (skipn i scores))%nat ->
    pprint_rows scores docs i doc_indices
    = (map result_row (combine (skipn i scores) texts), Ok tt).
Proof.
  induction doc_indices as [| doc_ix rest IH]; intros texts i Hm Hlen.
  - cbn in Hm. inversion Hm. now rewrite combine_nil.
  - cbn [map_result] in Hm.
    destruct (list_get docs doc_ix) as [doc |] eqn:Hg; [| discriminate]. cbn [bind] in Hm.
    destruct (map_result (list_get docs) rest) as [ts |] eqn:Hr; [| discriminate].
    cbn [bind] in Hm. inversion Hm; subst texts.
    destruct (skipn i scores) as [| s tl] eqn:Hskip; [cbn in Hlen; lia |].
    apply skipn_cons_nth in Hskip. destruct Hskip as [Hnth Htl].
    cbn [pprint_rows]. rewrite Hnth, Hg. cbn [bind].
    rewrite (IH ts (S i) eq_refl); [rewrite Htl; reflexivity |].
    rewrite Htl. cbn in Hlen. lia.
Qed.

(** The rows up to the first label that is not found. *)
Lemma pprint_rows_stops (scores : list score) (docs : list string) (good : list Z) :
  forall texts i bad rest e,
    map_result (list_get docs) good = Ok texts ->
    (List.length good <= List.length (skipn i scores))%nat ->
    list_get docs bad = Raise e ->
    pprint_rows scores docs i (good ++ bad :: rest)
    = (map result_row (combine (skipn i scores) texts) ++ [Print "No results found."],
       Ok tt).
Proof.
  induction good as [| doc_ix good IH]; intros texts i bad rest e Hm Hlen Hbad.
  - cbn in Hm. inversion Hm. rewrite combine_nil. cbn [app map pprint_rows].
    apply list_get_raises_index_error in Hbad as He. subst e.
    destruct (nth_error scores i); cbn [bind]; [now rewrite Hbad | reflexivity].
  - cbn [map_result] in Hm.
    destruct (list_get docs doc_ix) as [doc |] eqn:Hg; [| discriminate]. cbn [bind] in Hm.
    destruct (map_result (list_get docs) good) as [ts |] eqn:Hr; [| discriminate].
    cbn [bind] in Hm. inversion Hm; subst texts.
    destruct (skipn i scores) as [| s tl] eqn:Hskip; [cbn in Hlen; lia |].
    apply skipn_cons_nth in Hskip. destruct Hskip as [Hnth Htl].
    cbn [app pprint_rows]. rewrite Hnth, Hg. cbn [bind].
    rewrite (IH ts (S i) bad rest e eq_refl); [rewrite Htl; reflexivity | | exact Hbad].
    rewrite Htl. cbn in Hlen. lia.
Qed.

(** X8: when every label of a search result is a position of the
    document list (counted from either end), the table has one row for
    each label, in order: its score and the first hundred characters of
    its document; "No results found." is not printed, and the texts that
    go into the prompt are the documents of exactly those rows. *)
Theorem result_table_lists_every_found_document (scores : list score)
  (doc_indices : list Z) (docs texts : list string) :
  map_result (list_get docs) doc_indices = Ok texts ->
  (List.length doc_indices <= List.length scores)%nat ->
  pprint_search_results scores doc_indices docs
  = (Print "=== Search Results ==="
       :: map result_row (combine scores texts) ++ [Print ""],
     Ok tt) /\
  search_results_of docs doc_indices = Ok texts /\
  List.length (map result_row (combine scores texts)) = List.length doc_indices /\
  (forall s preview,
     In (PrintResult s preview) (map result_row (combine scores texts)) ->
     (String.length preview <= 100)%nat).
Proof.
  intros Hm Hlen.
  assert (Htexts : List.length texts = List.length doc_indices)
    by exact (map_result_length _ _ Hm).
  split; [| split; [| split]].
  - unfold pprint_search_results.
    rewrite (pprint_rows_found scores docs doc_indices 0 Hm); [reflexivity |].
    cbn [skipn]. exact Hlen.
  - unfold search_results_of. now rewrite Hm.
  - rewrite length_map, length_combine. lia.
  - intros s preview Hin. apply in_map_iff in Hin.
    destruct Hin as ([s' t] & Hrow & _). unfold result_row in Hrow. cbn [fst snd] in Hrow.
    assert (Hp : take_chars 100 t = preview) by congruence.
    rewrite <- Hp. apply take_chars_length.
Qed.

Lemma result_table_lists_every_found_document_witness :
  pprint_search_results [Score 1; Lowest] [0; -1] ["Apples are red."; "Bananas are yellow."]
  = ([Print "=== Search Results ===";
      PrintResult (Score 1) "Apples are red.";
      PrintResult Lowest "Bananas are yellow.";
      Print ""],
     Ok tt).
Proof.
  destruct (@result_table_lists_every_found_document [Score 1; Lowest] [0; -1]
              ["Apples are red."; "Bananas are yellow."]
              ["Apples are red."; "Bananas are yellow."]) as [Htable _].
  - reflexivity.
  - cbn. lia.
  - exact Htable.
Defined.

(** X9: when some label of a search result is not a position of the
    document list, the table shows the rows of the labels before the first
    such label and then "No results found."; the rows behind it are not
    printed.  The texts for the prompt are then none at all, also not the
    documents that the table has just listed. *)
Theorem first_missing_document_empties_the_context (scores : list score)
  (good rest : list Z) (bad : Z) (docs texts : list string) (e : exn) :
  map_result (list_get docs) good = Ok texts ->
  (List.length good <= List.length scores)%nat ->
  list_get docs bad = Raise e ->
  pprint_search_results scores (good ++ bad :: rest) docs
  = (Print "=== Search Results ==="
       :: map result_row (combine scores texts)
       ++ [Print "No results found."; Print ""],
     Ok tt) /\
  search_results_of docs (good ++ bad :: rest) = Ok [].
Proof.
  intros Hm Hlen Hbad. split.
  - unfold pprint_search_results.
    rewrite (@pprint_rows_stops scores docs good texts 0 bad rest e Hm Hlen Hbad).
    cbn [emit mbind app]. now rewrite <- app_assoc.
  - unfold search_results_of.
    rewrite (@map_result_app_raise _ _ (list_get docs) good rest bad texts e Hm Hbad).
    apply list_get_raises_index_error in Hbad. now subst e.
Qed.

Lemma first_missing_document_empties_the_context_witness :
  pprint_search_results [Score 1; Score 0] [0; 1] ["Apples are red."]
  = ([Print "=== Search Results ===";
      PrintResult (Score 1) "Apples are red.";
      Print "No results found.";
      Print ""],
     Ok tt) /\
  search_results_of ["Apples are red."] [0; 1] = Ok [].
Proof.
  apply (@first_missing_document_empties_the_context [Score 1; Score 0] [0] [] 1
           ["Apples are red."] ["Apples are red."] IndexError).
  - reflexivity.
  - cbn. lia.
  - reflexivity.
Defined.

Lemma search_results_of_returns (docs : list string) (doc_indices : list Z) :
  is_ok (search_results_of docs doc_indices) = true.
Proof.
  unfold search_results_of.
  destruct (map_result (list_get docs) doc_indices) as [ys | e] eqn:Hm; [reflexivity |].
  apply map_result_list_get_raises in Hm. now subst e.
Qed.

(** X10: what decides whether the retrieval of a query turn returns.  An
    exception of the embedding call leaves it as it is; an embedding of
    another dimension than the index, or a [k] that is not positive, ends
    it in the [AssertionError] of [index.search]; in both cases only the
    query has been echoed.  In every other case it returns: indexing the
    document list never makes it raise, whatever the index and the list
    hold. *)
Theorem retrieve_outcome (w : World) (k : Z) (index : IndexFlatIP) (docs : list string)
  (query : string) :
  match embed w query with
  | Raise e => retrieve w k index docs query = (query_echo query, Raise e)
  | Ok emb =>
      if (dim emb =? d index) && (0 <? k)
      then is_ok (snd (retrieve w k index docs query)) = true
      else retrieve w k index docs query = (query_echo query, Raise AssertionError)
  end.
Proof.
  destruct (embed w query) as [emb | e] eqn:Hemb.
  - destruct (index_search index emb k) as [[scores doc_indices] | e] eqn:Hs.
    + replace ((dim emb =? d index) && (0 <? k)) with true.
      * rewrite (retrieve_after_search w k index docs query Hemb Hs). cbn [snd].
        apply search_results_of_returns.
      * unfold index_search in Hs. destruct (dim emb =? d index); [| discriminate].
        destruct (0 <? k); [reflexivity | discriminate].
    + assert (He : e = AssertionError /\ (dim emb =? d index) && (0 <? k) = false).
      { unfold index_search in Hs. destruct (dim emb =? d index); cbn [andb].
        - destruct (0 <? k); [discriminate |]. inversion Hs. auto.
        - inversion Hs. auto. }
      destruct He as [-> ->].
      unfold retrieve. rewrite Hemb. cbn [emit lift mbind app]. rewrite Hs. reflexivity.
  - unfold retrieve. rewrite Hemb. reflexivity.
Qed.

(** *** The ranking *)

Lemma insert_ranked_perm (s : Q) (label : Z) (ranked : list (Q * Z)) :
  Permutation (insert_ranked s label ranked) ((s, label) :: ranked).
Proof.
  induction ranked as [| [s' label'] ranked IH]; cbn [insert_ranked]; [reflexivity |].
  destruct (Qle_bool s s'); [| reflexivity].
  rewrite IH. apply perm_swap.
Qed.

Lemma rank_from_perm (x : vec) (rows : list vec) :
  forall label ranked,
    Permutation (rank_from x label rows ranked) (ranked ++ scored_rows x label rows).
Proof.
  induction rows as [| row rows IH]; intros label ranked; cbn [rank_from scored_rows].
  - now rewrite app_nil_r.
  - rewrite IH, insert_ranked_perm. cbn [app]. apply Permutation_middle.
Qed.

Lemma scored_rows_In (x : vec) (rows : list vec) :
  forall label r,
    In r (scored_rows x label rows) <->
    exists i row, nth_error rows i = Some row /\
                  r = (inner_product x row, label + Z.of_nat i).
Proof.
  induction rows as [| row0 rows IH]; intros label r; cbn [scored_rows In].
  - split; [contradiction |]. intros ([| i] & row & H & _); discriminate.
  - rewrite IH. split.
    + intros [<- | (i & row & Hn & ->)].
      * exists 0%nat, row0. split; [reflexivity |]. now rewrite Z.add_0_r.
      * exists (S i), row. split; [exact Hn |]. f_equal. lia.
    + intros ([| i] & row & Hn & ->); cbn in Hn.
      * inversion Hn; subst. left. now rewrite Z.add_0_r.
      * right. exists i, row. split; [exact Hn |]. f_equal. lia.
Qed.

Lemma scored_rows_labels_nodup (x : vec) (rows : list vec) :
  forall label, NoDup (map snd (scored_rows x label rows)).
Proof.
  induction rows as [| row rows IH]; intros label; cbn [scored_rows map snd];
    constructor; [| apply IH].
  intros Hin. apply in_map_iff in Hin. destruct Hin as ([q l] & Hl & Hin).
  cbn in Hl. subst l. apply scored_rows_In in Hin.
  destruct Hin as (i & row' & _ & Heq). inversion Heq. lia.
Qed.

Lemma in_firstn {A : Type} (n : nat) (xs : list A) (x : A) : In x (firstn n xs) -> In x xs.
Proof. intros H. rewrite <- (firstn_skipn n xs). apply in_or_app. now left. Qed.

Lemma map_result_in_range_nth {A : Type} (xs : list A) (labels : list Z) :
  Forall (fun l => 0 <= l < Z.of_nat (List.length xs)) labels ->
  exists ys, map_result (list_get xs) labels = Ok ys /\
             Forall2 (fun l y => nth_error xs (Z.to_nat l) = Some y) labels ys.
Proof.
  induction 1 as [| l labels Hl _ (ys & IH & IH2)]; cbn [map_result].
  - exists []. split; [reflexivity | constructor].
  - destruct (nth_error xs (Z.to_nat l)) as [x |] eqn:Hx.
    + pose proof (list_get_in_range _ _ Hx) as Hg. rewrite Z2Nat.id in Hg by lia.
      rewrite Hg, IH. cbn [bind]. exists (x :: ys). split; [reflexivity |].
      constructor; assumption.
    + apply nth_error_None in Hx. lia.
Qed.

(** X11: a query turn that asks for no more results than there are
    entries, on an index with as many rows as there are documents.  The
    retrieval returns exactly [k] texts, the documents at [k] different
    positions of the list; the table has exactly one row for each of them,
    with its score, and never shows "No results found.".  Which [k]
    positions these are, in which order and with which scores is the
    search's own business and is not stated here. *)
Theorem retrieve_returns_k_documents (w : World) (k : Z) (index : IndexFlatIP)
  (docs : list string) (query : string) (emb : vec) :
  List.length (xb index) = List.length docs ->
  0 < k <= Z.of_nat (List.length docs) ->
  embed w query = Ok emb ->
  dim emb = d index ->
  exists (scores : list score) (positions : list Z) (results : list string),
    List.length scores = Z.to_nat k /\
    List.length positions = Z.to_nat k /\
    List.length results = Z.to_nat k /\
    retrieve w k index docs query
    = (query_echo query
         ++ Print "=== Search Results ==="
         :: map result_row (combine scores results)
         ++ [Print ""],
       Ok results) /\
    Forall2 (fun position text => 0 <= position /\
                                  nth_error docs (Z.to_nat position) = Some text)
            positions results /\
    NoDup positions.
Proof.
  intros Hrows Hk Hemb Hdim.
  set (ranking := rank_from emb 0 (xb index) []).
  set (found := firstn (Z.to_nat k) ranking).
  pose proof (rank_from_perm emb (xb index) 0 []) as Hperm. fold ranking in Hperm.
  cbn [app] in Hperm.
  assert (Hrlen : List.length ranking = List.length docs).
  { unfold ranking. rewrite rank_from_length. cbn. exact Hrows. }
  assert (Hflen : List.length found = Z.to_nat k).
  { unfold found. rewrite length_firstn. lia. }
  assert (Hsub : forall r, In r found -> In r (scored_rows emb 0 (xb index))).
  { intros r Hr. apply (Permutation_in _ Hperm). unfold found in Hr.
    now apply in_firstn in Hr. }
  assert (Hsearch : index_search index emb k
                    = Ok (map (fun r => Score (fst r)) found, map snd found)).
  { unfold index_search. rewrite (proj2 (Z.eqb_eq _ _) Hdim).
    replace (0 <? k) with true by (symmetry; apply Z.ltb_lt; lia).
    fold ranking. fold found. rewrite Hflen, Nat.sub_diag. cbn [repeat].
    now rewrite !app_nil_r. }
  assert (Hrange : Forall (fun l => 0 <= l < Z.of_nat (List.length docs)) (map snd found)).
  { apply Forall_map, Forall_forall. intros r Hr. apply Hsub, scored_rows_In in Hr.
    destruct Hr as (i & row & Hn & ->). cbn [snd].
    assert ((i < List.length (xb index))%nat) by (apply nth_error_Some; congruence).
    lia. }
  destruct (map_result_in_range_nth docs Hrange) as (results & Hres & Hnth).
  assert (Hreslen : List.length results = Z.to_nat k).
  { rewrite (map_result_length _ _ Hres), length_map. exact Hflen. }
  exists (map (fun r => Score (fst r)) found), (map snd found), results.
  split; [now rewrite length_map |]. split; [now rewrite length_map |].
  split; [exact Hreslen |]. split; [| split].
  - rewrite (retrieve_after_search w k index docs query Hemb Hsearch).
    unfold search_results_of. rewrite Hres. unfold pprint_search_results.
    rewrite (pprint_rows_found _ docs (map snd found) 0 Hres).
    + reflexivity.
    + cbn [skipn]. rewrite !length_map. lia.
  - clear - Hrange Hnth. induction Hnth as [| l text ls texts Hl _ IH]; constructor.
    + inversion Hrange; subst. split; [lia | exact Hl].
    + inversion Hrange; subst. now apply IH.
  - apply (NoDup_app_remove_r _ (map snd (skipn (Z.to_nat k) ranking))).
    unfold found. rewrite <- map_app, firstn_skipn.
    apply (Permutation_NoDup (Permutation_map snd (Permutation_sym Hperm))).
    apply scored_rows_labels_nodup.
Qed.

Lemma retrieve_returns_k_documents_witness :
  exists results,
    snd (retrieve Toy.world 2
           {| d := 3; xb := [[1%Q; 0%Q; 0%Q]; [0%Q; 1%Q; 0%Q]; [0%Q; 0%Q; 1%Q]] |}
           ["Apples are red."; "Bananas are yellow."; "Cherries are dark red."]
           "Bananas are yellow.")
    = Ok results /\
    List.length results = 2%nat.
Proof.
  destruct (@retrieve_returns_k_documents Toy.world 2
              {| d := 3; xb := [[1%Q; 0%Q; 0%Q]; [0%Q; 1%Q; 0%Q]; [0%Q; 0%Q; 1%Q]] |}
              ["Apples are red."; "Bananas are yellow."; "Cherries are dark red."]
              "Bananas are yellow." [0%Q; 1%Q; 0%Q])
    as (scores & positions & results & _ & _ & Hlen & Hr & _).
  - reflexivity.
  - cbn. lia.
  - reflexivity.
  - reflexivity.
  - exists results. rewrite Hr. split; [reflexivity | exact Hlen].
Defined.

(* ===================================================================== *)
(** ** Further properties: the session *)
(* ===================================================================== *)

Lemma prompts_shown_app (o1 o2 : list out) :
  prompts_shown (o1 ++ o2) = (prompts_shown o1 + prompts_shown o2)%nat.
Proof. unfold prompts_shown. now rewrite filter_app, length_app. Qed.

Lemma mbind_no_prompt {A B : Type} (m : M A) (k : A -> M B) :
  prompts_shown (fst m) = 0%nat ->
  (forall a, prompts_shown (fst (k a)) = 0%nat) ->
  prompts_shown (fst (mbind m k)) = 0%nat.
Proof.
  intros Hm Hk. unfold mbind. destruct m as [o1 [a | e]]; cbn [fst] in *; [| exact Hm].
  specialize (Hk a). destruct (k a) as [o2 r]. cbn [fst] in *.
  rewrite prompts_shown_app. lia.
Qed.

Lemma mbind_output_prefix {A B : Type} (m : M A) (k : A -> M B) :
  exists rest, fst (mbind m k) = fst m ++ rest.
Proof.
  unfold mbind. destruct m as [o1 [a | e]]; cbn [fst].
  - destruct (k a) as [o2 r]. now exists o2.
  - exists []. now rewrite app_nil_r.
Qed.

Lemma pprint_rows_no_prompt (scores : list score) (docs : list string)
  (doc_indices : list Z) :
  forall i, prompts_shown (fst (pprint_rows scores docs i doc_indices)) = 0%nat.
Proof.
  induction doc_indices as [| doc_ix rest IH]; intros i; cbn [pprint_rows];
    [reflexivity |].
  destruct (nth_error scores i) as [s |]; cbn [bind]; [| reflexivity].
  destruct (list_get docs doc_ix) as [doc | e]; cbn [bind].
  - apply mbind_no_prompt; [reflexivity | intros _; apply IH].
  - destruct e; reflexivity.
Qed.

Lemma retrieve_no_prompt (w : World) (k : Z) (index : IndexFlatIP) (docs : list string)
  (query : string) :
  prompts_shown (fst (retrieve w k index docs query)) = 0%nat.
Proof.
  unfold retrieve.
  repeat (apply mbind_no_prompt; [try reflexivity | intros ?]); try reflexivity.
  unfold pprint_search_results.
  repeat (apply mbind_no_prompt; [try reflexivity | intros ?]); try reflexivity.
  apply pprint_rows_no_prompt.
Qed.

Lemma answer_no_prompt (w : World) (search_results : list string) (query : string) :
  prompts_shown (fst (answer w search_results query)) = 0%nat.
Proof.
  unfold answer.
  repeat (apply mbind_no_prompt; [try reflexivity | intros ?]); reflexivity.
Qed.

Lemma query_turn_no_prompt (w : World) (k : Z) (index : IndexFlatIP) (docs : list string)
  (query : string) :
  prompts_shown (fst (query_turn w k index docs query)) = 0%nat.
Proof.
  unfold query_turn.
  apply mbind_no_prompt; [apply retrieve_no_prompt | intros results].
  apply mbind_no_prompt; [apply answer_no_prompt | intros prompt]. reflexivity.
Qed.

Lemma query_turn_echoes (w : World) (k : Z) (index : IndexFlatIP) (docs : list string)
  (query : string) :
  In (Print query) (fst (query_turn w k index docs query)).
Proof.
  unfold query_turn.
  destruct (mbind_output_prefix (retrieve w k index docs query)
              (fun search_results =>
                 mbind (answer w search_results query)
                       (fun prompt => ret (search_results, prompt)))) as [rest ->].
  apply in_or_app. left. unfold retrieve.
  cbn [emit mbind fst app].
  destruct (embed w query) as [emb | e]; cbn [lift mbind fst app]; [| right; now left].
  destruct (index_search index emb k) as [found | e]; cbn [lift mbind fst app];
    [| right; now left].
  destruct (pprint_search_results (fst found) (snd found) docs) as [o [u | e]];
    cbn [mbind fst app]; right; now left.
Qed.

(** The first thing a session writes is the prompt. *)
Lemma query_loop_starts_with_prompt (w : World) (k : Z) (index : IndexFlatIP)
  (docs : list string) (stdin : list string) :
  exists rest,
    fst (query_loop w k index docs stdin)
    = Prompt "Enter query (ctrl-d to quit):> " :: rest.
Proof.
  destruct stdin as [| query rest]; cbn [query_loop]; [now exists [] |].
  destruct (query_turn w k index docs query) as [o [r | e]].
  - destruct (query_loop w k index docs rest) as [o' e]. now eexists.
  - now eexists.
Qed.

(** X12: a session in which no empty line is typed (an empty line is
    not a query: [click.prompt] asks again and never hands it back) and
    every query turn returns: it reads every line that is typed, echoes
    each of them, asks once more than there are lines, and ends, at the end
    of the input, in the [Abort] of [click.prompt]. *)
Theorem session_ends_at_end_of_input (w : World) (k : Z) (index : IndexFlatIP)
  (docs : list string) (stdin : list string) :
  (forall q, In q stdin -> q <> "") ->
  (forall q, In q stdin -> is_ok (snd (query_turn w k index docs q)) = true) ->
  snd (query_loop w k index docs stdin) = Abort /\
  prompts_shown (fst (query_loop w k index docs stdin)) = S (List.length stdin) /\
  (forall q, In q stdin -> In (Print q) (fst (query_loop w k index docs stdin))).
Proof.
  intros _.
  induction stdin as [| query rest IH]; intros Hok.
  - cbn. repeat split. intros q [].
  - destruct IH as (IHe & IHn & IHin); [intros q Hq; apply Hok; now right |].
    assert (Hq : is_ok (snd (query_turn w k index docs query)) = true)
      by (apply Hok; now left).
    pose proof (query_turn_no_prompt w k index docs query) as Hquiet.
    pose proof (query_turn_echoes w k index docs query) as Hecho.
    cbn [query_loop List.length].
    destruct (query_turn w k index docs query) as [o [r | e]]; [| discriminate Hq].
    destruct (query_loop w k index docs rest) as [o' e'].
    cbn [fst snd] in *. split; [exact IHe |]. split.
    + change (Prompt "Enter query (ctrl-d to quit):> " :: o ++ o')
        with ([Prompt "Enter query (ctrl-d to quit):> "] ++ o ++ o').
      rewrite !prompts_shown_app, Hquiet, IHn. reflexivity.
    + intros q [<- | Hin]; right; apply in_or_app; [now left | right; now apply IHin].
Qed.

Lemma session_ends_at_end_of_input_witness :
  snd (query_loop Toy.world 3 {| d := 3; xb := [] |} []
         ["What color are apples?"; "What color are bananas?"]) = Abort /\
  prompts_shown (fst (query_loop Toy.world 3 {| d := 3; xb := [] |} []
                        ["What color are apples?"; "What color are bananas?"])) = 3%nat.
Proof.
  destruct (@session_ends_at_end_of_input Toy.world 3 {| d := 3; xb := [] |} []
              ["What color are apples?"; "What color are bananas?"])
    as (Hend & Hprompts & _).
  - intros q [<- | [<- | []]]; discriminate.
  - intros q [<- | [<- | []]]; vm_compute; reflexivity.
  - split; [exact Hend | exact Hprompts].
Defined.

(** X13: [rag] asks for a query exactly when the save directory exists
    and both the index and the document list can be read from it.
    Without a save directory it ends in [FileNotFoundError] before it has
    written anything, whatever is typed. *)
Theorem rag_prompts_iff_index_loaded (w : World) (k : Z) (fs : Store) (stdin : list string) :
  (prompts_shown (fst (rag w k fs stdin)) = 0%nat <->
   savedir_exists fs = false \/ index_faiss fs = None \/ index_json fs = None) /\
  (savedir_exists fs = false -> rag w k fs stdin = ([], FileNotFoundError)).
Proof.
  unfold rag, load_index. destruct (savedir_exists fs); cbn [negb].
  - split; [| discriminate].
    destruct (index_faiss fs) as [index |]; cbn [lift].
    + destruct (index_json fs) as [docs |]; cbn [emit mbind lift ret app].
      * destruct (query_loop_starts_with_prompt w k index docs stdin) as [rest Hrest].
        destruct (query_loop w k index docs stdin) as [o' e]. cbn [fst] in *. subst o'.
        split.
        -- intros H. exfalso. cbn in H. discriminate.
        -- intros [H | [H | H]]; discriminate.
      * split; [intros _; right; now right | reflexivity].
    + split; [intros _; right; now left | reflexivity].
  - split; [| reflexivity]. split; [intros _; now left | reflexivity].
Qed.

Lemma rag_prompts_iff_index_loaded_witness :
  rag Toy.world 3 no_store ["What color are apples?"] = ([], FileNotFoundError).
Proof.
  apply (proj2 (rag_prompts_iff_index_loaded Toy.world 3 no_store
                  ["What color are apples?"])).
  reflexivity.
Defined.

Lemma emitted_app (evs1 evs2 : list event) :
  emitted (evs1 ++ evs2) = emitted evs1 ++ emitted evs2.
Proof.
  induction evs1 as [| [origin chunk | o] evs1 IH]; cbn [app emitted];
    [reflexivity | exact IH | now rewrite IH].
Qed.

Lemma emitted_of_chunks (origin : string) (chunks : list string) :
  emitted (map (Yield origin) chunks) = [].
Proof. induction chunks as [| c chunks IH]; cbn; [reflexivity | exact IH]. Qed.

(** The local directories emit nothing. *)
Lemma files_gen_emits_nothing (w : World) (read : string -> result string)
  (paths : list string) :
  emitted (fst (files_gen w read paths)) = [].
Proof.
  induction paths as [| path rest IH]; cbn [files_gen]; [reflexivity |].
  unfold gen_seq, file_gen.
  destruct (text <- read path ;; chunk_text w text) as [chunks | e]; cbn [fst].
  - now rewrite emitted_app, emitted_of_chunks, IH.
  - reflexivity.
Qed.

Lemma dirs_gen_emits_nothing (w : World) (directories : list string) :
  emitted (fst (dirs_gen w directories)) = [].
Proof.
  induction directories as [| directory rest IH]; cbn [dirs_gen]; [reflexivity |].
  unfold gen_seq at 1.
  assert (Hd : emitted (fst (dir_gen w directory)) = []).
  { unfold dir_gen, gen_seq.
    pose proof (files_gen_emits_nothing w (read_text w) (rglob w directory "*.txt")) as Ht.
    destruct (files_gen w (read_text w) (rglob w directory "*.txt")) as [ev1 [e |]];
      cbn [fst] in *; [exact Ht |].
    now rewrite emitted_app, Ht, files_gen_emits_nothing. }
  destruct (dir_gen w directory) as [ev1 [e |]]; cbn [fst] in *; [exact Hd |].
  now rewrite emitted_app, Hd, IH.
Qed.

Lemma load_data_emits_no_prompt (w : World) :
  prompts_shown (emitted (fst (load_data_for_indexing w))) = 0%nat.
Proof.
  unfold load_data_for_indexing, gen_seq. cbn [fst].
  rewrite emitted_app, dirs_gen_emits_nothing, app_nil_r.
  unfold urls_events. induction (INDEX_URLS w) as [| url rest IH]; [reflexivity |].
  cbn [flat_map]. rewrite emitted_app, prompts_shown_app, IH.
  unfold url_events. destruct (fetch_chunks w url) as [chunks | e].
  - now rewrite emitted_of_chunks.
  - reflexivity.
Qed.

Lemma build_loop_no_prompt (w : World) (evs : list event) :
  forall index docs,
    prompts_shown (emitted evs) = 0%nat ->
    prompts_shown (fst (build_loop w index docs evs)) = 0%nat.
Proof.
  induction evs as [| [origin chunk | o] evs IH]; intros index docs H; cbn [build_loop].
  - reflexivity.
  - apply mbind_no_prompt; [reflexivity | intros index'; now apply IH].
  - cbn [emitted] in H.
    change (o :: emitted evs) with ([o] ++ emitted evs) in H.
    rewrite prompts_shown_app in H.
    apply mbind_no_prompt; [cbn [emit fst]; lia | intros _; apply IH; lia].
Qed.

Lemma build_index_no_prompt (w : World) (fs : Store) :
  prompts_shown (trace (build_index w fs)) = 0%nat.
Proof.
  assert (Hlog : prompts_shown (fst (reuse_check w fs)) = 0%nat).
  { unfold reuse_check. destruct (savedir_exists fs); [| reflexivity].
    destruct (last_hash_txt fs); [| reflexivity].
    destruct (INDEX_LOCAL_DATA_DIRS w) as [| d0 rest]; [reflexivity |].
    now destruct (contains d0 s). }
  unfold build_index. destruct (reuse_check w fs) as [log skip]. cbn [fst] in Hlog.
  destruct skip; [exact Hlog |].
  destruct (llamafile_embed w "Apples are red.") as [probe | e]; [| exact Hlog].
  pose proof (load_data_emits_no_prompt w) as Hgen.
  destruct (load_data_for_indexing w) as [evs gen_exn]. cbn [fst] in Hgen.
  pose proof (build_loop_no_prompt w evs {| d := dim probe; xb := [] |} [] Hgen) as Hloop.
  destruct (build_loop w {| d := dim probe; xb := [] |} [] evs)
    as [log2 [[index docs] | e]]; cbn [fst] in Hloop;
    [| cbn [trace]; rewrite prompts_shown_app; lia].
  destruct gen_exn; [cbn [trace]; rewrite prompts_shown_app; lia |].
  destruct (savedir_exists fs); [cbn [trace]; rewrite prompts_shown_app; lia |].
  destruct (write_hashes w "" (INDEX_LOCAL_DATA_DIRS w)) as [hashes [e |]];
    cbn [trace]; rewrite ?prompts_shown_app; rewrite ?prompts_shown_app;
    cbn [prompts_shown filter is_prompt List.length]; lia.
Qed.

(** X14: the script serves no query unless [build_index] has returned.
    When the build raises, that exception ends the script and
    [click.prompt] has not asked once.  So a start over a save directory
    that exists and is not reused never reaches the query loop, and
    leaves the directory as it was. *)
Theorem failed_build_serves_no_query (w : World) (cmd : command) (fs : Store)
  (stdin : list string) :
  (forall e,
     raised (build_index w fs) = Some e ->
     main w cmd fs stdin = (trace (build_index w fs), store (build_index w fs), e) /\
     prompts_shown (fst (fst (main w cmd fs stdin))) = 0%nat) /\
  (savedir_exists fs = true ->
   snd (reuse_check w fs) = false ->
   exists o e,
     main w cmd fs stdin = (o, fs, e) /\ prompts_shown o = 0%nat).
Proof.
  assert (Hfail : forall e,
            raised (build_index w fs) = Some e ->
            main w cmd fs stdin = (trace (build_index w fs), store (build_index w fs), e) /\
            prompts_shown (fst (fst (main w cmd fs stdin))) = 0%nat).
  { intros e He. unfold main. rewrite He. split; [reflexivity |].
    cbn [fst]. apply build_index_no_prompt. }
  split; [exact Hfail |].
  intros Hs Hskip.
  destruct (build_index_existing_savedir w fs Hs Hskip) as [Hraised Hstore].
  destruct (raised (build_index w fs)) as [e |] eqn:He; [| contradiction].
  destruct (Hfail e eq_refl) as [Hmain Hquiet].
  exists (trace (build_index w fs)), e. rewrite Hmain, Hstore.
  split; [reflexivity | apply build_index_no_prompt].
Qed.

Lemma failed_build_serves_no_query_witness :
  exists o e,
    main Toy.world NoCommand Toy.built ["What color are apples?"] = (o, Toy.built, e) /\
    prompts_shown o = 0%nat.
Proof.
  apply (proj2 (failed_build_serves_no_query Toy.world NoCommand Toy.built
                  ["What color are apples?"])).
  - reflexivity.
  - vm_compute. reflexivity.
Defined.

(** X15: the first start of the script, when the build ends without
    exception: the session that follows prints the count of the loaded
    entries and then runs the query loop on exactly the index and the
    documents the build has just stored, the yielded chunks in order, with
    three results per query unless [-k] says otherwise. *)
Theorem first_start_serves_what_was_built (w : World) (cmd : command) (fs : Store)
  (stdin : list string) :
  savedir_exists fs = false ->
  raised (build_index w fs) = None ->
  exists index,
    index_faiss (store (build_index w fs)) = Some index /\
    main w cmd fs stdin
    = (trace (build_index w fs)
         ++ loaded_message w index
         :: fst (query_loop w
                   (match cmd with
                    | NoCommand | RagCommand None => 3
                    | RagCommand (Some k) => k
                    end)
                   index (yielded_chunks (fst (load_data_for_indexing w))) stdin),
       store (build_index w fs),
       snd (query_loop w
              (match cmd with
               | NoCommand | RagCommand None => 3
               | RagCommand (Some k) => k
               end)
              index (yielded_chunks (fst (load_data_for_indexing w))) stdin)).
Proof.
  intros Hs Hret.
  destruct (build_index_fresh_inv w fs Hs Hret)
    as (probe & index & docs & marker & log2 & _ & _ & Hloop & _ & Hb).
  apply build_loop_ok in Hloop. destruct Hloop as (_ & Hdocs & _). cbn [app] in Hdocs.
  subst docs. exists index. unfold main. rewrite Hb. cbn [raised store trace index_faiss].
  split; [reflexivity |].
  assert (Hrag : forall k,
            rag w k {| savedir_exists := true; last_hash_txt := Some marker;
                       index_faiss := Some index;
                       index_json := Some (yielded_chunks (fst (load_data_for_indexing w))) |}
                stdin
            = (loaded_message w index
                 :: fst (query_loop w k index
                           (yielded_chunks (fst (load_data_for_indexing w))) stdin),
               snd (query_loop w k index
                      (yielded_chunks (fst (load_data_for_indexing w))) stdin))).
  { intros k. unfold rag, load_index.
    cbn [savedir_exists negb index_faiss index_json emit mbind ret app].
    now destruct (query_loop w k index
                    (yielded_chunks (fst (load_data_for_indexing w))) stdin). }
  unfold cli, k_option. destruct cmd as [| [k |]]; rewrite Hrag; reflexivity.
Qed.

Lemma first_start_serves_what_was_built_witness :
  snd (main Toy.world (RagCommand (Some 1)) no_store ["Apples are red."]) = Abort.
Proof.
  destruct (@first_start_serves_what_was_built Toy.world (RagCommand (Some 1)) no_store
              ["Apples are red."] eq_refl eq_refl) as (index & Hindex & Hmain).
  vm_compute in Hindex. injection Hindex as <-.
  rewrite Hmain. vm_compute. reflexivity.
Defined.

(* ===================================================================== *)
(** ** Further properties: the order of ingestion *)
(* ===================================================================== *)

Lemma gen_seq_none (g1 g2 : gen) :
  snd (gen_seq g1 g2) = None ->
  snd g1 = None /\ snd g2 = None /\ fst (gen_seq g1 g2) = fst g1 ++ fst g2.
Proof.
  unfold gen_seq. destruct g1 as [ev1 [e |]]; cbn [fst snd]; [discriminate |].
  intros H. auto.
Qed.

Lemma dir_gen_complete (w : World) (directory : string) :
  snd (dir_gen w directory) = None ->
  fst (dir_gen w directory) = dir_events w directory.
Proof.
  unfold dir_gen, dir_events. intros H. apply gen_seq_none in H.
  destruct H as (Ht & Hp & ->).
  now rewrite (files_gen_complete _ _ _ Ht), (files_gen_complete _ _ _ Hp).
Qed.

Lemma dirs_gen_complete (w : World) (directories : list string) :
  snd (dirs_gen w directories) = None ->
  fst (dirs_gen w directories) = flat_map (dir_events w) directories.
Proof.
  induction directories as [| directory rest IH]; cbn [dirs_gen flat_map];
    [reflexivity |].
  intros H. apply gen_seq_none in H. destruct H as (Hd & Hr & ->).
  now rewrite (dir_gen_complete _ _ Hd), (IH Hr).
Qed.

(** X16: when the generator ends without exception it has gone through
    the sources in configured order: first every URL in the order of
    [INDEX_URLS], each with its chunks or with the two records of its
    failure, then every directory in the order of [INDEX_LOCAL_DATA_DIRS],
    each with all its text files before all its PDF files.  Every chunk
    yielded comes from a configured URL or from a listed file. *)
Theorem ingestion_follows_configured_order (w : World) :
  snd (load_data_for_indexing w) = None ->
  fst (load_data_for_indexing w)
  = flat_map (url_events w) (INDEX_URLS w)
      ++ flat_map (dir_events w) (INDEX_LOCAL_DATA_DIRS w) /\
  (forall origin chunk,
     In (origin, chunk) (yields (fst (load_data_for_indexing w))) ->
     In origin (INDEX_URLS w) \/
     exists directory,
       In directory (INDEX_LOCAL_DATA_DIRS w) /\
       (In origin (rglob w directory "*.txt") \/ In origin (rglob w directory "*.pdf"))).
Proof.
  intros Hnone.
  assert (Hev : fst (load_data_for_indexing w)
                = flat_map (url_events w) (INDEX_URLS w)
                    ++ flat_map (dir_events w) (INDEX_LOCAL_DATA_DIRS w)).
  { unfold load_data_for_indexing in *. apply gen_seq_none in Hnone.
    destruct Hnone as (_ & Hd & ->). cbn [fst]. unfold urls_events.
    now rewrite (dirs_gen_complete _ _ Hd). }
  split; [exact Hev |].
  intros origin chunk Hin. rewrite Hev, yields_app in Hin. clear Hev Hnone.
  assert (Hfiles : forall read paths,
            In (origin, chunk) (yields (flat_map (file_events w read) paths)) ->
            In origin paths).
  { intros read paths. induction paths as [| path paths IHp]; [contradiction |].
    cbn [flat_map]. rewrite yields_app. intros H.
    apply in_app_or in H. destruct H as [H | H]; [| right; now apply IHp].
    left. unfold file_events in H.
    pose proof (file_gen_origin w read path) as Ho.
    exact (eq_sym (proj1 (Forall_forall _ _) Ho _ H)). }
  apply in_app_or in Hin. destruct Hin as [Hin | Hin].
  - left. induction (INDEX_URLS w) as [| url rest IH]; [contradiction |].
    cbn [flat_map] in Hin. rewrite yields_app in Hin.
    apply in_app_or in Hin. destruct Hin as [Hin | Hin]; [| right; now apply IH].
    left. unfold url_events in Hin.
    destruct (fetch_chunks w url) as [chunks | e]; [| contradiction].
    rewrite yields_of_chunks in Hin. apply in_map_iff in Hin.
    destruct Hin as (c & Hc & _). now inversion Hc.
  - right. induction (INDEX_LOCAL_DATA_DIRS w) as [| directory rest IH]; [contradiction |].
    cbn [flat_map] in Hin. rewrite yields_app in Hin.
    apply in_app_or in Hin. destruct Hin as [Hin | Hin].
    + exists directory. split; [now left |].
      unfold dir_events in Hin. rewrite yields_app in Hin.
      apply in_app_or in Hin. destruct Hin as [Hin | Hin]; [left | right];
        eapply Hfiles; exact Hin.
    + destruct (IH Hin) as (directory' & Hd & Ho).
      exists directory'. split; [now right | exact Ho].
Qed.

Lemma ingestion_follows_configured_order_witness :
  fst (load_data_for_indexing web_world)
  = flat_map (url_events web_world) (INDEX_URLS web_world)
      ++ flat_map (dir_events web_world) (INDEX_LOCAL_DATA_DIRS web_world).
Proof.
  apply (proj1 (ingestion_follows_configured_order web_world eq_refl)).
Defined.

(* ===================================================================== *)
(** ** Further properties: the prompt *)
(* ===================================================================== *)

Lemma prefix_front (a s q : string) :
  String.prefix a s = true -> String.prefix a (s ++ q) = true.
Proof.
  revert s. induction a as [| c a IH]; intros s H;
    [now destruct (s ++ q)%string |].
  destruct s as [| c' s]; cbn in H; [discriminate |]. cbn.
  destruct (Ascii.ascii_dec c c'); [now apply IH | discriminate].
Qed.

Lemma contains_front (a s q : string) :
  contains a s = true -> contains a (s ++ q) = true.
Proof.
  induction s as [| c s IH]; cbn [contains]; intros H.
  - rewrite orb_false_r in H. destruct a; [| discriminate]. now destruct q.
  - apply orb_true_iff in H. change (String c s ++ q)%string with (String c (s ++ q)).
    cbn [contains]. apply orb_true_iff. destruct H as [H | H].
    + left. exact (prefix_front _ (String c s) q H).
    + right. now apply IH.
Qed.

Lemma contains_itself (a : string) : contains a a = true.
Proof.
  apply contains_prefix. rewrite <- (append_empty_r a) at 2. apply prefix_append.
Qed.

Lemma contains_in_joined (sep r : string) (texts : list string) :
  In r texts -> contains r (String.concat sep texts) = true.
Proof.
  induction texts as [| t texts IH]; intros Hin; [contradiction |].
  destruct texts as [| t' texts'].
  - destruct Hin as [-> | []]. apply contains_itself.
  - change (String.concat sep (t :: t' :: texts'))
      with (t ++ sep ++ String.concat sep (t' :: texts'))%string.
    destruct Hin as [-> | Hin].
    + apply contains_front, contains_itself.
    + apply contains_behind, contains_behind. now apply IH.
Qed.

(** X17: a query turn that returns has built its prompt from what the
    retrieval returned: the prompt is the template filled with the
    retrieved texts joined by line breaks and with the query, so every
    retrieved text and the query occur in it verbatim; that prompt is the
    one printed, counted by [tokenize] and sent to [completion], and the
    turn's output ends with the quoted answer, a blank line and the
    separator. *)
Theorem returned_turn_prompt (w : World) (k : Z) (index : IndexFlatIP)
  (docs : list string) (query : string) (o : list out) (results : list string)
  (prompt : string) :
  query_turn w k index docs query = (o, Ok (results, prompt)) ->
  exists o1 tokens reply,
    retrieve w k index docs query = (o1, Ok results) /\
    prompt = prompt_template (String.concat TextSplitter.nl results) query /\
    llamafile_tokenize w prompt = Ok tokens /\
    llamafile_completion w prompt = Ok reply /\
    o = o1 ++ [Print "=== Prompt ==="; Print (quoted prompt);
               Print ("(prompt_ntokens: " ++ str_of_nat (List.length tokens) ++ ")")%string;
               Print ""; Print ""; Print "=== Answer ===";
               Print (quoted reply); Print ""; Print SEP] /\
    (forall r, In r results -> contains r prompt = true) /\
    contains query prompt = true.
Proof.
  intros H. unfold query_turn in H.
  apply mbind_ok in H. destruct H as (o1 & results' & o2 & Hr & H & ->).
  apply mbind_ok in H. destruct H as (o3 & prompt' & o4 & Ha & H & ->).
  unfold ret in H. inversion H; subst results' prompt' o4. clear H.
  unfold answer in Ha.
  set (p := prompt_template (String.concat TextSplitter.nl results) query) in *.
  cbn [emit lift mbind app] in Ha.
  destruct (llamafile_tokenize w p) as [tokens | e] eqn:Ht; [| discriminate].
  cbn [emit lift mbind app] in Ha.
  destruct (llamafile_completion w p) as [reply | e] eqn:Hc; [| discriminate].
  cbn [emit lift mbind ret app] in Ha. inversion Ha; subst o3 prompt. clear Ha.
  exists o1, tokens, reply.
  split; [exact Hr |]. split; [reflexivity |]. split; [exact Ht |]. split; [exact Hc |].
  split; [now rewrite app_nil_r |].
  unfold p, prompt_template. split.
  - intros r Hin. do 4 apply contains_behind. apply contains_front.
    now apply contains_in_joined.
  - do 7 apply contains_behind. apply contains_itself.
Qed.

Lemma returned_turn_prompt_witness :
  contains "What color are apples?"
    (prompt_template (String.concat TextSplitter.nl []) "What color are apples?") = true.
Proof.
  destruct (@returned_turn_prompt Toy.world 3 {| d := 3; xb := [] |} []
              "What color are apples?"
              (fst (query_turn Toy.world 3 {| d := 3; xb := [] |} []
                      "What color are apples?"))
              [] (prompt_template (String.concat TextSplitter.nl []) "What color are apples?"))
    as (o1 & tokens & reply & _ & _ & _ & _ & _ & _ & Hq).
  - vm_compute. reflexivity.
  - exact Hq.
Defined.
